(** * Graph kernels of pyamg's amg_core/graph.h: a shallow embedding

    The kernels work on graphs in compressed sparse row (CSR) form and on
    caller-allocated arrays.  Arrays are lists; an index is a [nat]; a
    vertex state, colour, cluster label or level is a [Z] (the code uses
    negative sentinels); a random weight, edge length or distance is the
    rational [Q] it denotes.  The kernels compare and copy these values;
    where they add them, the sum is the one of the template type (rounded
    for a floating-point type, exact for integers in range) and is a
    parameter of the model: [T_add] for the sum of two values of type [T],
    [R_add_I] for the sum of a value of type [R] and an index.  A read
    [a !!! i] outside the array yields the type's default and a write
    [<[i:=v]> a] outside the array leaves it unchanged: the C++ code has no
    defined behaviour there, and the theorems carry the bounds they need. *)

From Stdlib Require Import ZArith QArith List Lia Lqa Permutation Sorted.
From stdpp Require Import base list sorting.

Global Instance Q_inhabited : Inhabited Q := populate 0%Q.

(** ** CSR view *)

(** The slots [Ap[i] .. Ap[i+1]) of row [i], as the loops
    [for(jj = Ap[i]; jj < Ap[i+1]; jj++)] visit them. *)
Definition row_slots (Ap : list nat) (i : nat) : list nat :=
  seq (Ap !!! i) (Ap !!! S i - Ap !!! i).

(** The neighbours [Aj[Ap[i] .. Ap[i+1])] of vertex [i], in stored order. *)
Definition row (Ap Aj : list nat) (i : nat) : list nat :=
  (fun jj => Aj !!! jj) <$> row_slots Ap i.

(** The row pointers do not decrease. *)
Definition csr_rows_ok (n : nat) (Ap : list nat) : Prop :=
  ∀ i, i < n → Ap !!! i ≤ Ap !!! S i.

(** Every stored neighbour is one of the [n] vertices. *)
Definition csr_cols_ok (n : nat) (Ap Aj : list nat) : Prop :=
  ∀ i j, i < n → j ∈ row Ap Aj i → j < n.

(** The graph is symmetric: [j] is stored in row [i] iff [i] is in row [j]. *)
Definition csr_symmetric (n : nat) (Ap Aj : list nat) : Prop :=
  ∀ i j, i < n → j < n → j ∈ row Ap Aj i → i ∈ row Ap Aj j.

(** ** maximal_independent_set_serial *)

(** The inner loop: every neighbour still [active] becomes [F]. *)
Definition mis_mark_row (active F : Z) (x : list Z) (js : list nat) : list Z :=
  fold_left (fun x j => if (x !!! j =? active)%Z then <[j:=F]> x else x) js x.

(** One iteration of the loop over the vertices. *)
Definition mis_serial_step (Ap Aj : list nat) (active C F : Z)
    (st : list Z * nat) (i : nat) : list Z * nat :=
  let '(x, N) := st in
  if negb (x !!! i =? active)%Z then (x, N)
  else (mis_mark_row active F (<[i:=C]> x) (row Ap Aj i), S N).

(** Returns the final state array and the count [N]. *)
Definition maximal_independent_set_serial (num_rows : nat) (Ap Aj : list nat)
    (active C F : Z) (x : list Z) : list Z * nat :=
  fold_left (mis_serial_step Ap Aj active C F) (seq 0 num_rows) (x, 0).

(** ** maximal_independent_set_parallel *)

(** How the first loop over the neighbours of [i] ends: at [row_end], or by
    one of its [break]s. *)
Inductive scan_result := ScanEnd | ScanNeighborMIS | ScanNeighborLarger.

Definition Qgtb (a b : Q) : bool := negb (Qle_bool a b).

Fixpoint mis_scan_row (active C : Z) (x : list Z) (y : list Q) (i : nat)
    (js : list nat) : scan_result :=
  match js with
  | [] => ScanEnd
  | j :: js' =>
      let xj := x !!! j in
      if (xj =? C)%Z then ScanNeighborMIS
      else if (xj =? active)%Z
                && (Qgtb (y !!! j) (y !!! i)
                    || (Qeq_bool (y !!! j) (y !!! i) && (i <? j)))
           then ScanNeighborLarger
           else mis_scan_row active C x y i js'
  end.

(** The body of [for(i = 0; i < num_rows; i++)] in one round; the state is
    the array, the count and the flag [active_nodes].  The first loop leaves
    [jj == row_end] when it runs to its end, which a row with
    [row_start > row_end] never does. *)
Definition mis_parallel_step (Ap Aj : list nat) (active C F : Z) (y : list Q)
    (st : list Z * nat * bool) (i : nat) : list Z * nat * bool :=
  let '(x, N, active_nodes) := st in
  if negb (x !!! i =? active)%Z then st
  else match mis_scan_row active C x y i (row Ap Aj i) with
       | ScanNeighborMIS => (<[i:=F]> x, N, true)
       | ScanNeighborLarger => (x, N, true)
       | ScanEnd =>
           if Ap !!! i <=? Ap !!! S i
           then (<[i:=C]> (mis_mark_row active F x (row Ap Aj i)), S N,
                 active_nodes)
           else (x, N, true)
       end.

(** One round of the while loop, started with [active_nodes = false]. *)
Definition mis_parallel_round (num_rows : nat) (Ap Aj : list nat)
    (active C F : Z) (y : list Q) (x : list Z) (N : nat) : list Z * nat * bool :=
  fold_left (mis_parallel_step Ap Aj active C F y) (seq 0 num_rows) (x, N, false).

(** The while loop; [fuel] bounds the number of rounds the model runs, and
    [None] means that it did not suffice. *)
Fixpoint mis_parallel_while (fuel num_rows : nat) (Ap Aj : list nat)
    (active C F : Z) (y : list Q) (max_iters num_iters : Z)
    (active_nodes : bool) (x : list Z) (N : nat) : option (list Z * nat) :=
  if active_nodes && ((max_iters =? -1)%Z || (num_iters <? max_iters)%Z) then
    match fuel with
    | 0 => None
    | S fuel' =>
        let '(x', N', active_nodes') :=
          mis_parallel_round num_rows Ap Aj active C F y x N in
        mis_parallel_while fuel' num_rows Ap Aj active C F y
          max_iters (num_iters + 1)%Z active_nodes' x' N'
    end
  else Some (x, N).

Definition maximal_independent_set_parallel (fuel num_rows : nat)
    (Ap Aj : list nat) (active C F : Z) (x : list Z) (y : list Q)
    (max_iters : Z) : option (list Z * nat) :=
  mis_parallel_while fuel num_rows Ap Aj active C F y max_iters 0%Z true x 0.

(** A vertex was promoted by a call that took [x] to [x']. *)
Definition promoted (active C : Z) (x x' : list Z) (u : nat) : Prop :=
  x !!! u = active ∧ x' !!! u = C.


(** ** vertex_coloring_mis *)

(** [std::fill(a, a + n, v)]. *)
Definition array_fill {A : Type} (n : nat) (v : A) (a : list A) : list A :=
  fold_left (fun a i => <[i:=v]> a) (seq 0 n) a.

(** The loop [while(N < num_rows)]; [fuel] bounds the rounds of the model. *)
Fixpoint vertex_coloring_mis_while (fuel num_rows : nat) (Ap Aj : list nat)
    (x : list Z) (N : nat) (K : Z) : option (list Z * Z) :=
  if N <? num_rows then
    match fuel with
    | 0 => None
    | S fuel' =>
        let '(x', c) :=
          maximal_independent_set_serial num_rows Ap Aj (-1 - K) K (-2 - K) x in
        vertex_coloring_mis_while fuel' num_rows Ap Aj x' (N + c) (K + 1)%Z
    end
  else Some (x, K).

(** Returns the colouring and the number [K] of colours. *)
Definition vertex_coloring_mis (fuel num_rows : nat) (Ap Aj : list nat)
    (x : list Z) : option (list Z * Z) :=
  vertex_coloring_mis_while fuel num_rows Ap Aj (array_fill num_rows (-1)%Z x) 0 0%Z.

(** ** vertex_coloring_first_fit *)

(** The loop over the neighbours of [i] that fills [mask]. *)
Definition first_fit_mask (x : list Z) (i : nat) (js : list nat)
    (mask : list bool) : list bool :=
  fold_left (fun mask j =>
               if i =? j then mask
               else if (x !!! j <? 0)%Z then mask
               else <[Z.to_nat (x !!! j) := true]> mask) js mask.

(** [std::find(mask.begin(), mask.end(), false) - mask.begin()]. *)
Fixpoint find_false (mask : list bool) : nat :=
  match mask with
  | [] => 0
  | b :: mask' => if b then S (find_false mask') else 0
  end.

Definition first_fit_step (Ap Aj : list nat) (K : Z) (x : list Z) (i : nat)
    : list Z :=
  if negb (x !!! i =? K)%Z then x
  else
    let mask := first_fit_mask x i (row Ap Aj i) (replicate (Z.to_nat K) false) in
    <[i := Z.of_nat (find_false mask)]> x.

Definition vertex_coloring_first_fit (num_rows : nat) (Ap Aj : list nat)
    (x : list Z) (K : Z) : list Z :=
  fold_left (first_fit_step Ap Aj K) (seq 0 num_rows) x.

(** ** Assertions *)

(** A call either returns, or stops at a failed [assert], or (in the model
    only) uses up the fuel given to an unbounded loop. *)
Inductive outcome (A : Type) : Type :=
  | Returns (a : A)
  | AssertionFailed
  | OutOfFuel.
Arguments Returns {A} a.
Arguments AssertionFailed {A}.
Arguments OutOfFuel {A}.

Global Instance outcome_bind : MBind outcome := λ A B f m,
  match m with
  | Returns a => f a
  | AssertionFailed => AssertionFailed
  | OutOfFuel => OutOfFuel
  end.

(** [assert(c)]: checked unless the code is compiled with [NDEBUG]. *)
Definition assert (ndebug : bool) (c : bool) : outcome unit :=
  if ndebug || c then Returns tt else AssertionFailed.

(** ** cluster_node_incidence *)

(** The comparator passed to [std::sort]:
    [(cm[i] > cm[j]) || (cm[i] == cm[j] && i > j)]. *)
Definition cm_before (cm : list Z) (i j : nat) : bool :=
  (cm !!! i >? cm !!! j)%Z || ((cm !!! i =? cm !!! j)%Z && (j <? i)).

(** [std::sort(first, last, comp)], as insertion into a sorted list: [a] goes
    in front of the first element that [comp] puts after it. *)
Fixpoint sort_insert {A : Type} (comp : A → A → bool) (a : A) (l : list A)
    : list A :=
  match l with
  | [] => [a]
  | b :: l' => if comp a b then a :: b :: l' else b :: sort_insert comp a l'
  end.

Definition std_sort {A : Type} (comp : A → A → bool) (l : list A) : list A :=
  fold_right (sort_insert comp) [] l.

(** [for(i = 0; i < num_nodes; i++) ICi[i] = i;] followed by the sort of the
    whole array ([ICi_size] is its length). *)
Definition cni_ICi (num_nodes : nat) (cm : list Z) (ICi : list nat) : list nat :=
  std_sort (cm_before cm)
    (fold_left (fun ICi i => <[i:=i]> ICi) (seq 0 num_nodes) ICi).

(** The loop that builds [ICp]; the state is [ICp] and the current cluster [a]. *)
Definition cni_ICp_step (ndebug : bool) (num_clusters : nat) (cm : list Z)
    (ICi : list nat) (st : outcome (list nat * nat)) (i : nat)
    : outcome (list nat * nat) :=
  '(ICp, a) ← st;
  if negb (cm !!! (ICi !!! i) =? Z.of_nat a)%Z then
    let a := S a in
    _ ← assert ndebug (a <? num_clusters);
    Returns (<[a:=i]> ICp, a)
  else Returns (ICp, a).

Definition cni_ICp (ndebug : bool) (num_nodes num_clusters : nat) (cm : list Z)
    (ICi ICp : list nat) : outcome (list nat) :=
  '(ICp, a) ← fold_left (cni_ICp_step ndebug num_clusters cm ICi)
                 (seq 0 num_nodes) (Returns (<[0:=0]> ICp, 0));
  let a := S a in
  _ ← assert ndebug (a =? num_clusters);
  Returns (<[a:=num_nodes]> ICp).

(** The loops that build [L]; the state is [L] and the running counter [i]. *)
Definition cni_L_inner (ndebug : bool) (num_nodes : nat)
    (st : outcome (list nat * nat)) (m : nat) : outcome (list nat * nat) :=
  '(L, i) ← st;
  let L := <[i:=m]> L in
  let i := S i in
  _ ← assert ndebug (i <=? num_nodes);
  Returns (L, i).

Definition cni_L_outer (ndebug : bool) (num_nodes : nat) (ICp : list nat)
    (st : outcome (list nat * nat)) (a : nat) : outcome (list nat * nat) :=
  let N := ICp !!! S a - ICp !!! a in
  fold_left (cni_L_inner ndebug num_nodes) (seq 0 N) st.

Definition cni_L (ndebug : bool) (num_nodes num_clusters : nat)
    (ICp L : list nat) : outcome (list nat) :=
  '(L, i) ← fold_left (cni_L_outer ndebug num_nodes ICp)
               (seq 0 num_clusters) (Returns (L, 0));
  _ ← assert ndebug (i =? num_nodes);
  Returns L.

(** "check that global -> local has a correct inverse". *)
Definition cni_check_global (ndebug : bool) (num_nodes num_clusters : nat)
    (cm : list Z) (ICp ICi L : list nat) : outcome unit :=
  fold_left (fun st i =>
      _ ← st;
      let a := cm !!! i in
      let m := L !!! Z.to_nat a in
      _ ← assert ndebug ((0 <=? a)%Z && (a <? Z.of_nat num_clusters)%Z);
      _ ← assert ndebug
             (Z.of_nat m <?
                Z.of_nat (ICp !!! S (Z.to_nat a)) - Z.of_nat (ICp !!! Z.to_nat a))%Z;
      assert ndebug (i =? ICi !!! (ICp !!! Z.to_nat a + m)))
    (seq 0 num_nodes) (Returns tt).

(** "check that local -> global has a correct inverse". *)
Definition cni_check_local (ndebug : bool) (num_nodes num_clusters : nat)
    (cm : list Z) (ICp ICi L : list nat) : outcome unit :=
  fold_left (fun st a =>
      let N := ICp !!! a in
      fold_left (fun st m =>
          _ ← st;
          let j := ICi !!! (ICp !!! a + m) in
          _ ← assert ndebug (j <? num_nodes);
          _ ← assert ndebug (Z.of_nat a =? cm !!! j)%Z;
          assert ndebug (m =? L !!! j))
        (seq 0 N) st)
    (seq 0 num_clusters) (Returns tt).

(** The arrays [ICp], [ICi] and [L] the call leaves behind when it returns. *)
Definition cluster_node_incidence (ndebug : bool) (num_nodes num_clusters : nat)
    (cm : list Z) (ICp ICi L : list nat)
    : outcome (list nat * list nat * list nat) :=
  let ICi := cni_ICi num_nodes cm ICi in
  ICp ← cni_ICp ndebug num_nodes num_clusters cm ICi ICp;
  L ← cni_L ndebug num_nodes num_clusters ICp L;
  _ ← cni_check_global ndebug num_nodes num_clusters cm ICp ICi L;
  _ ← cni_check_local ndebug num_nodes num_clusters cm ICp ICi L;
  Returns (ICp, ICi, L).

(** ** bellman_ford *)

(** [T_add a b] is the value of [a + b] in the type [T] of the edge lengths
    and distances. *)

Definition Qltb (a b : Q) : bool := negb (Qle_bool b a).

(** The loop over the row of [i]; the state is [(xi, nci)]. *)
Definition bellman_ford_row (T_add : Q → Q → Q) (Aj : list nat)
    (Ax d : list Q) (cm : list Z) (st : Q * Z) (jj : nat) : Q * Z :=
  let '(xi, nci) := st in
  let j := Aj !!! jj in
  let dd := T_add (Ax !!! jj) (d !!! j) in
  if Qltb dd xi then (dd, cm !!! j) else (xi, nci).

Definition bellman_ford_step (T_add : Q → Q → Q) (Ap Aj : list nat)
    (Ax : list Q) (st : list Q * list Z) (i : nat) : list Q * list Z :=
  let '(d, cm) := st in
  let '(xi, nci) :=
    fold_left (bellman_ford_row T_add Aj Ax d cm) (row_slots Ap i)
      (d !!! i, cm !!! i) in
  (<[i:=xi]> d, <[i:=nci]> cm).

(** One call: the arrays [d] and [cm] on return. *)
Definition bellman_ford (T_add : Q → Q → Q) (num_nodes : nat)
    (Ap Aj : list nat) (Ax : list Q) (d : list Q) (cm : list Z)
    : list Q * list Z :=
  fold_left (bellman_ford_step T_add Ap Aj Ax) (seq 0 num_nodes) (d, cm).

(** ** bellman_ford_balanced *)

(** The arrays and the flag the do-while loop works on. *)
Record bfb_state := BfbState {
  bfb_d : list Q;
  bfb_cm : list Z;
  bfb_predecessor : list Z;
  bfb_pred_count : list Z;
  bfb_cs : list Z;
  bfb_change : bool
}.

(** An array cell read through a signed index.  The code has no defined
    behaviour at a negative index; the model reads cell 0 there. *)
Definition at_Z {A : Type} `{!Inhabited A} (a : list A) (i : Z) : A :=
  a !!! Z.to_nat i.

(** The body of the loop over the neighbours of [i], for slot [jj].  The
    [assert]s on [cs] and [pred_count] can stop the call. *)
Definition bfb_edge (T_add : Q → Q → Q) (ndebug : bool) (Aj : list nat)
    (Ax : list Q) (i : nat) (st : outcome bfb_state) (jj : nat)
    : outcome bfb_state :=
  s ← st;
  let '(BfbState d cm predecessor pred_count cs change) := s in
  let j := Aj !!! jj in
  let new_d := T_add (Ax !!! jj) (d !!! j) in
  if Qltb new_d (d !!! i)
     || ((cm !!! i >? -1)%Z
         && Qeq_bool new_d (d !!! i)
         && (at_Z cs (cm !!! j) <? at_Z cs (cm !!! i))%Z
         && (pred_count !!! i =? 0)%Z)
  then
    cs ←
      (if (cm !!! i >? -1)%Z then
         let cs := <[Z.to_nat (cm !!! i) := (at_Z cs (cm !!! i) - 1)%Z]> cs in
         _ ← assert ndebug (at_Z cs (cm !!! i) >=? 0)%Z;
         Returns cs
       else Returns cs);
    let cs := <[Z.to_nat (cm !!! j) := (at_Z cs (cm !!! j) + 1)%Z]> cs in
    pred_count ←
      (if (predecessor !!! i >? -1)%Z then
         let p := predecessor !!! i in
         let pred_count := <[Z.to_nat p := (at_Z pred_count p - 1)%Z]> pred_count in
         _ ← assert ndebug (at_Z pred_count p >=? 0)%Z;
         Returns pred_count
       else Returns pred_count);
    let predecessor := <[i := Z.of_nat j]> predecessor in
    let pred_count := <[j := (pred_count !!! j + 1)%Z]> pred_count in
    Returns (BfbState (<[i:=new_d]> d) (<[i := cm !!! j]> cm)
               predecessor pred_count cs true)
  else Returns s.

(** One sweep over all nodes, started with [change = false]. *)
Definition bfb_sweep (T_add : Q → Q → Q) (ndebug : bool) (num_nodes : nat)
    (Ap Aj : list nat) (Ax : list Q) (s : bfb_state) : outcome bfb_state :=
  fold_left (fun st i =>
               fold_left (bfb_edge T_add ndebug Aj Ax i) (row_slots Ap i) st)
    (seq 0 num_nodes)
    (Returns (BfbState (bfb_d s) (bfb_cm s) (bfb_predecessor s)
                (bfb_pred_count s) (bfb_cs s) false)).

(** The do-while loop.  [iteration] is the counter of the safety check
    [assert(++iteration < num_nodes*num_nodes*num_nodes)], which is part of
    the assertion and so is not evaluated under [NDEBUG].  The product is
    the exact one: it is the code's as long as it is in the range of the
    index type [I] (up to [num_nodes = 1290] for 32 bits; beyond, the
    product overflows in the code). *)
Fixpoint bfb_do_while (T_add : Q → Q → Q) (fuel : nat) (ndebug : bool)
    (num_nodes : nat) (Ap Aj : list nat) (Ax : list Q) (iteration : nat)
    (s : bfb_state) : outcome bfb_state :=
  match fuel with
  | 0 => OutOfFuel
  | S fuel' =>
      s' ← bfb_sweep T_add ndebug num_nodes Ap Aj Ax s;
      _ ← assert ndebug (S iteration <? num_nodes * num_nodes * num_nodes);
      if bfb_change s' then
        bfb_do_while T_add fuel' ndebug num_nodes Ap Aj Ax (S iteration) s'
      else Returns s'
  end.

(** The cluster sizes counted before the loop. *)
Definition bfb_cluster_sizes (num_nodes num_clusters : nat) (cm : list Z)
    : list Z :=
  fold_left (fun cs i =>
               if (cm !!! i >? -1)%Z
               then <[Z.to_nat (cm !!! i) := (at_Z cs (cm !!! i) + 1)%Z]> cs
               else cs)
    (seq 0 num_nodes) (replicate num_clusters 0%Z).

(** Returns the arrays [d] and [cm]; the array [c] of centers is not read. *)
Definition bellman_ford_balanced (T_add : Q → Q → Q) (fuel : nat)
    (ndebug : bool) (num_nodes num_clusters : nat) (Ap Aj : list nat)
    (Ax : list Q) (d : list Q) (cm : list Z) (c : list nat)
    : outcome (list Q * list Z) :=
  _ ← assert ndebug (length d =? num_nodes);
  _ ← assert ndebug (length cm =? num_nodes);
  _ ← assert ndebug (length c =? num_clusters);
  s ← bfb_do_while T_add fuel ndebug num_nodes Ap Aj Ax 0
        (BfbState d cm (replicate num_nodes (-1)%Z) (replicate num_nodes 0%Z)
           (bfb_cluster_sizes num_nodes num_clusters cm) false);
  Returns (bfb_d s, bfb_cm s).

(** ** csr_propagate_max *)

(** The loop over the neighbours of a vertex; the state is [(k_max, v_max)]. *)
Definition propagate_row (i_keys : list nat) (i_vals : list Q)
    (st : nat * Q) (j : nat) : nat * Q :=
  let '(k_max, v_max) := st in
  let k_j := i_keys !!! j in
  let v_j := i_vals !!! j in
  if k_j =? k_max then st
  else if Qltb v_j v_max then st
  else if Qgtb v_j v_max || (k_max <? k_j) then (k_j, v_j)
  else st.

Definition csr_propagate_max (num_rows : nat) (Ap Aj : list nat)
    (i_keys o_keys : list nat) (i_vals o_vals : list Q) : list nat * list Q :=
  fold_left (fun '(o_keys, o_vals) i =>
               let '(k_max, v_max) :=
                 fold_left (propagate_row i_keys i_vals) (row Ap Aj i)
                   (i_keys !!! i, i_vals !!! i) in
               (<[i:=k_max]> o_keys, <[i:=v_max]> o_vals))
    (seq 0 num_rows) (o_keys, o_vals).

(** ** maximal_independent_set_k_parallel *)

Record misk_state := MiskState {
  misk_x : list Z;
  misk_active : list bool;
  misk_i_keys : list nat;
  misk_o_keys : list nat;
  misk_i_vals : list Q;
  misk_o_vals : list Q
}.

(** [csr_propagate_max] followed by the two [std::swap]s, [k] times. *)
Fixpoint misk_propagate (k num_rows : nat) (Ap Aj : list nat)
    (i_keys o_keys : list nat) (i_vals o_vals : list Q)
    : list nat * list nat * list Q * list Q :=
  match k with
  | 0 => (i_keys, o_keys, i_vals, o_vals)
  | S k' =>
      let '(o_keys', o_vals') :=
        csr_propagate_max num_rows Ap Aj i_keys o_keys i_vals o_vals in
      misk_propagate k' num_rows Ap Aj o_keys' i_keys o_vals' i_vals
  end.

(** The loop that promotes the local maxima and reloads the buffers with [x]. *)
Definition misk_promote (num_rows : nat) (x : list Z) (active : list bool)
    (i_keys : list nat) (i_vals : list Q) : list Z * list nat * list Q :=
  fold_left (fun '(x, i_keys, i_vals) i =>
               let x := if (i_keys !!! i =? i) && (active !!! i)
                        then <[i:=1%Z]> x else x in
               (x, <[i:=i]> i_keys, <[i := inject_Z (x !!! i)]> i_vals))
    (seq 0 num_rows) (x, i_keys, i_vals).

(** The loop that retires the vertices near the set and reloads the buffers
    with [y]; the last component is [work_left]. *)
Definition misk_retire (num_rows : nat) (y : list Q) (active : list bool)
    (i_keys : list nat) (i_vals : list Q)
    : list bool * list nat * list Q * bool :=
  fold_left (fun '(active, i_keys, i_vals, work_left) i =>
               if Qeq_bool (i_vals !!! i) 1
               then (<[i:=false]> active, <[i:=i]> i_keys,
                     <[i := (-1)%Q]> i_vals, work_left)
               else (active, <[i:=i]> i_keys, <[i := y !!! i]> i_vals, true))
    (seq 0 num_rows) (active, i_keys, i_vals, false).

(** One iteration of the outer loop; the flag is [work_left]. *)
Definition misk_round (num_rows : nat) (Ap Aj : list nat) (k : nat)
    (y : list Q) (s : misk_state) : misk_state * bool :=
  let '(MiskState x active i_keys o_keys i_vals o_vals) := s in
  let '(i_keys, o_keys, i_vals, o_vals) :=
    misk_propagate k num_rows Ap Aj i_keys o_keys i_vals o_vals in
  let '(x, i_keys, i_vals) := misk_promote num_rows x active i_keys i_vals in
  let '(i_keys, o_keys, i_vals, o_vals) :=
    misk_propagate k num_rows Ap Aj i_keys o_keys i_vals o_vals in
  let '(active, i_keys, i_vals, work_left) :=
    misk_retire num_rows y active i_keys i_vals in
  (MiskState x active i_keys o_keys i_vals o_vals, work_left).

(** The loop [for(iter = 0; max_iters == -1 || iter < max_iters; iter++)]. *)
Fixpoint misk_for (fuel num_rows : nat) (Ap Aj : list nat) (k : nat)
    (y : list Q) (max_iters iter : Z) (s : misk_state) : option misk_state :=
  if (max_iters =? -1)%Z || (iter <? max_iters)%Z then
    match fuel with
    | 0 => None
    | S fuel' =>
        let '(s', work_left) := misk_round num_rows Ap Aj k y s in
        if negb work_left then Some s'
        else misk_for fuel' num_rows Ap Aj k y max_iters (iter + 1)%Z s'
    end
  else Some s.

(** The first loop: [i_keys[i] = i; i_vals[i] = y[i]; x[i] = 0]. *)
Definition misk_init (num_rows : nat) (x : list Z) (y : list Q) : misk_state :=
  let '(x, i_keys, i_vals) :=
    fold_left (fun '(x, i_keys, i_vals) i =>
                 (<[i:=0%Z]> x, <[i:=i]> i_keys, <[i := y !!! i]> i_vals))
      (seq 0 num_rows) (x, replicate num_rows 0, replicate num_rows 0%Q) in
  MiskState x (replicate num_rows true) i_keys (replicate num_rows 0)
    i_vals (replicate num_rows 0%Q).

(** Returns the array [x]. *)
Definition maximal_independent_set_k_parallel (fuel num_rows : nat)
    (Ap Aj : list nat) (k : nat) (x : list Z) (y : list Q) (max_iters : Z)
    : option (list Z) :=
  misk_x <$> misk_for fuel num_rows Ap Aj k y max_iters 0%Z (misk_init num_rows x y).

(** ** breadth_first_search *)

Record bfs_state := BfsState {
  bfs_order : list nat;
  bfs_level : list Z;
  bfs_N : nat
}.

(** The loop over the neighbours of a vertex of the last level. *)
Definition bfs_visit (current_level : Z) (s : bfs_state) (j : nat) : bfs_state :=
  if (bfs_level s !!! j =? -1)%Z
  then BfsState (<[bfs_N s := j]> (bfs_order s))
                (<[j := current_level]> (bfs_level s)) (S (bfs_N s))
  else s.

(** The loop [for(ii = level_begin; ii < level_end; ii++)]. *)
Definition bfs_scan_level (Ap Aj : list nat) (level_begin level_end : nat)
    (current_level : Z) (s : bfs_state) : bfs_state :=
  fold_left (fun s ii =>
               fold_left (bfs_visit current_level)
                 (row Ap Aj (bfs_order s !!! ii)) s)
    (seq level_begin (level_end - level_begin)) s.

(** The loop [while(level_begin < level_end)]. *)
Fixpoint bfs_while (fuel : nat) (Ap Aj : list nat)
    (level_begin level_end : nat) (current_level : Z) (s : bfs_state)
    : option bfs_state :=
  if level_begin <? level_end then
    match fuel with
    | 0 => None
    | S fuel' =>
        let s' := bfs_scan_level Ap Aj level_begin level_end current_level s in
        bfs_while fuel' Ap Aj level_end (bfs_N s') (current_level + 1)%Z s'
    end
  else Some s.

(** The whole call, keeping the local counter [N] next to the two arrays. *)
Definition bfs_run (fuel : nat) (Ap Aj : list nat) (seed : nat)
    (order : list nat) (level : list Z) : option bfs_state :=
  bfs_while fuel Ap Aj 0 1 1%Z
    (BfsState (<[0:=seed]> order) (<[seed:=0%Z]> level) 1).

(** Returns the arrays [order] and [level]. *)
Definition breadth_first_search (fuel : nat) (Ap Aj : list nat) (seed : nat)
    (order : list nat) (level : list Z) : option (list nat * list Z) :=
  (λ s, (bfs_order s, bfs_level s)) <$> bfs_run fuel Ap Aj seed order level.

(** ** vertex_coloring_jones_plassmann *)

(** [for(i = 0; i < num_rows; i++) z[i] += Ap[i+1] - Ap[i];] where
    [R_add_I a m] is the value of [a + m] in the type [R] of the weights,
    for an index [m]. *)
Definition jp_weights (R_add_I : Q → Z → Q) (num_rows : nat) (Ap : list nat)
    (z : list Q) : list Q :=
  fold_left (fun z i =>
               <[i := R_add_I (z !!! i)
                        (Z.of_nat (Ap !!! S i) - Z.of_nat (Ap !!! i))%Z]> z)
    (seq 0 num_rows) z.

(** [for(i = 0; i < num_rows; i++) if(x[i] == -2) x[i] = -1;] *)
Definition reset_demoted (num_rows : nat) (x : list Z) : list Z :=
  fold_left (fun x i => if (x !!! i =? -2)%Z then <[i:=(-1)%Z]> x else x)
    (seq 0 num_rows) x.

(** [*std::max_element(x, x + num_rows)]; on an empty range the iterator
    returned is [x] itself. *)
Definition max_element (num_rows : nat) (x : list Z) : Z :=
  fold_left (fun m i => if (m <? x !!! i)%Z then x !!! i else m)
    (seq 1 (num_rows - 1)) (x !!! 0).

(** The loop [while(N < num_rows)]; [fuel] bounds its rounds and those of
    the loop inside [maximal_independent_set_parallel]. *)
Fixpoint jones_plassmann_while (fuel num_rows : nat) (Ap Aj : list nat)
    (z : list Q) (x : list Z) (N : nat) (K : Z) : option (list Z) :=
  if N <? num_rows then
    match fuel with
    | 0 => None
    | S fuel' =>
        match maximal_independent_set_parallel fuel num_rows Ap Aj
                (-1) K (-2) x z 1 with
        | None => None
        | Some (x, c) =>
            let x := reset_demoted num_rows x in
            let x := vertex_coloring_first_fit num_rows Ap Aj x K in
            jones_plassmann_while fuel' num_rows Ap Aj z x (N + c) (K + 1)%Z
        end
    end
  else Some x.

(** Returns the arrays [x] and [z] and the value returned. *)
Definition vertex_coloring_jones_plassmann (R_add_I : Q → Z → Q)
    (fuel num_rows : nat)
    (Ap Aj : list nat) (x : list Z) (z : list Q) : option (list Z * list Q * Z) :=
  let x := array_fill num_rows (-1)%Z x in
  let z := jp_weights R_add_I num_rows Ap z in
  match jones_plassmann_while fuel num_rows Ap Aj z x 0 0%Z with
  | None => None
  | Some x => Some (x, z, max_element num_rows x)
  end.

(** ** vertex_coloring_LDF *)

(** The number of uncoloured neighbours of [i] other than [i]. *)
Definition ldf_num_neighbors (x : list Z) (i : nat) (js : list nat) : Z :=
  fold_left (fun num_neighbors j =>
               if (x !!! j =? -1)%Z && negb (i =? j)
               then (num_neighbors + 1)%Z else num_neighbors)
    js 0%Z.

(** The loop that recomputes the weights of the uncoloured vertices. *)
Definition ldf_weights (R_add_I : Q → Z → Q) (num_rows : nat)
    (Ap Aj : list nat) (x : list Z) (y weights : list Q) : list Q :=
  fold_left (fun weights i =>
               if negb (x !!! i =? -1)%Z then weights
               else <[i := R_add_I (y !!! i)
                             (ldf_num_neighbors x i (row Ap Aj i))]>
                      weights)
    (seq 0 num_rows) weights.

(** The loop [while(N < num_rows)]. *)
Fixpoint ldf_while (R_add_I : Q → Z → Q) (fuel num_rows : nat)
    (Ap Aj : list nat) (y : list Q)
    (weights : list Q) (x : list Z) (N : nat) (K : Z) : option (list Z) :=
  if N <? num_rows then
    match fuel with
    | 0 => None
    | S fuel' =>
        let weights := ldf_weights R_add_I num_rows Ap Aj x y weights in
        match maximal_independent_set_parallel fuel num_rows Ap Aj
                (-1) K (-2) x weights 1 with
        | None => None
        | Some (x, c) =>
            let x := reset_demoted num_rows x in
            let x := vertex_coloring_first_fit num_rows Ap Aj x K in
            ldf_while R_add_I fuel' num_rows Ap Aj y weights x (N + c)
              (K + 1)%Z
        end
    end
  else Some x.

(** Returns the array [x] and the value returned. *)
Definition vertex_coloring_LDF (R_add_I : Q → Z → Q) (fuel num_rows : nat)
    (Ap Aj : list nat) (x : list Z) (y : list Q) : option (list Z * Z) :=
  let x := array_fill num_rows (-1)%Z x in
  match ldf_while R_add_I fuel num_rows Ap Aj y (replicate num_rows 0%Q) x
          0 0%Z with
  | None => None
  | Some x => Some (x, max_element num_rows x)
  end.

(** ** connected_components *)

(** The loop over the neighbours of [top]; the state is the stack, its top
    first, and the array of labels. *)
Definition cc_visit (component : Z) (st : list nat * list Z) (j : nat)
    : list nat * list Z :=
  let '(DFS, components) := st in
  if (components !!! j =? -1)%Z
  then (j :: DFS, <[j:=component]> components)
  else st.

(** The loop [while (!DFS.empty())]; [fuel] bounds the number of vertices
    the model pops. *)
Fixpoint cc_while (fuel : nat) (Ap Aj : list nat) (component : Z)
    (DFS : list nat) (components : list Z) : option (list Z) :=
  match DFS with
  | [] => Some components
  | top :: DFS =>
      match fuel with
      | 0 => None
      | S fuel' =>
          let '(DFS, components) :=
            fold_left (cc_visit component) (row Ap Aj top) (DFS, components) in
          cc_while fuel' Ap Aj component DFS components
      end
  end.

(** The body of the loop over the vertices; the state is the array of
    labels and the counter [component]. *)
Definition cc_step (fuel : nat) (Ap Aj : list nat)
    (st : option (list Z * Z)) (i : nat) : option (list Z * Z) :=
  match st with
  | None => None
  | Some (components, component) =>
      if (components !!! i =? -1)%Z then
        match cc_while fuel Ap Aj component [i] (<[i:=component]> components) with
        | None => None
        | Some components => Some (components, (component + 1)%Z)
        end
      else Some (components, component)
  end.

(** Returns the array of labels and the number of components. *)
Definition connected_components (fuel num_nodes : nat) (Ap Aj : list nat)
    (components : list Z) : option (list Z * Z) :=
  fold_left (cc_step fuel Ap Aj) (seq 0 num_nodes)
    (Some (array_fill num_nodes (-1)%Z components, 0%Z)).

(** ** Paths *)

(** [walk n Ap Aj u d v]: [d] stored edges lead from [u] to [v] inside the
    vertices [0 .. n-1]. *)
Inductive walk (n : nat) (Ap Aj : list nat) (u : nat) : nat → nat → Prop :=
  | walk_here : u < n → walk n Ap Aj u 0 u
  | walk_step d w v :
      walk n Ap Aj u d w → v < n → v ∈ row Ap Aj w → walk n Ap Aj u (S d) v.

(** The unweighted shortest-path length from [u] to [v] is [d]. *)
Definition distance (n : nat) (Ap Aj : list nat) (u v d : nat) : Prop :=
  walk n Ap Aj u d v ∧ ∀ d', walk n Ap Aj u d' v → d ≤ d'.

Definition reachable (n : nat) (Ap Aj : list nat) (u v : nat) : Prop :=
  ∃ d, walk n Ap Aj u d v.

(** * Properties *)

(** ** Arrays and loops *)

Lemma fold_left_seq_S {A : Type} (f : A → nat → A) (a : A) (s n : nat) :
  fold_left f (seq s (S n)) a = f (fold_left f (seq s n) a) (s + n).
Proof. by rewrite seq_S, fold_left_app. Qed.

(** ** The marking loop shared by the two MIS kernels *)

Section MarkRow.
Variables active F : Z.

Lemma mis_mark_row_length js x :
  length (mis_mark_row active F x js) = length x.
Proof.
  revert x. induction js as [|j js IH]; intros x; simpl; [done|].
  rewrite IH. destruct (x !!! j =? active)%Z; [apply length_insert|done].
Qed.

Lemma mis_mark_row_miss js x w :
  w ∉ js ∨ x !!! w ≠ active →
  mis_mark_row active F x js !!! w = x !!! w.
Proof.
  revert x. induction js as [|j js IH]; intros x Hw; simpl; [done|].
  destruct (Z.eqb_spec (x !!! j) active) as [Hj|Hj].
  - destruct (decide (w = j)) as [->|Hne].
    + destruct Hw as [Hw|Hw]; [|done]. exfalso. apply Hw. by left.
    + rewrite IH; [by apply list_lookup_total_insert_ne|].
      rewrite list_lookup_total_insert_ne by done.
      destruct Hw as [Hw|Hw]; [left|by right].
      intros Hin. apply Hw. by right.
  - apply IH. destruct Hw as [Hw|Hw]; [left|by right].
    intros Hin. apply Hw. by right.
Qed.

Lemma mis_mark_row_hit js x w :
  w < length x → w ∈ js → x !!! w = active →
  mis_mark_row active F x js !!! w = F.
Proof.
  revert x. induction js as [|j js IH]; intros x Hlen Hin Hw; simpl.
  - by apply elem_of_nil in Hin.
  - destruct (decide (w = j)) as [->|Hne].
    + rewrite Hw, Z.eqb_refl.
      destruct (decide (F = active)) as [HF|HF].
      * destruct (decide (j ∈ js)) as [Hjs|Hjs].
        -- apply IH; [by rewrite length_insert|done|].
           by rewrite list_lookup_total_insert_eq.
        -- rewrite mis_mark_row_miss by (by left).
           by rewrite list_lookup_total_insert_eq.
      * rewrite mis_mark_row_miss.
        -- by rewrite list_lookup_total_insert_eq.
        -- right. by rewrite list_lookup_total_insert_eq.
    + apply elem_of_cons in Hin as [?|Hin]; [done|].
      destruct (x !!! j =? active)%Z.
      * apply IH; [by rewrite length_insert|done|].
        by rewrite list_lookup_total_insert_ne.
      * by apply IH.
Qed.

(** What the loop leaves in each cell. *)
Lemma mis_mark_row_lookup js x w :
  w < length x →
  mis_mark_row active F x js !!! w =
    if decide (w ∈ js ∧ x !!! w = active) then F else x !!! w.
Proof.
  intros Hlen. case_decide as H.
  - destruct H. by apply mis_mark_row_hit.
  - apply mis_mark_row_miss.
    destruct (decide (w ∈ js)); [right|by left]. intros ?. by apply H.
Qed.
End MarkRow.

(** ** Comparing weighted vertices *)

(** The order in which pairs are compared: by value, ties by key. *)
Definition lex_le (k1 : nat) (v1 : Q) (k2 : nat) (v2 : Q) : Prop :=
  (v1 < v2)%Q ∨ ((v1 == v2)%Q ∧ k1 ≤ k2).

Lemma lex_le_refl k v : lex_le k v k v.
Proof. right. split; [reflexivity|lia]. Qed.

Lemma lex_le_trans k1 v1 k2 v2 k3 v3 :
  lex_le k1 v1 k2 v2 → lex_le k2 v2 k3 v3 → lex_le k1 v1 k3 v3.
Proof.
  unfold lex_le. intros [H1|[H1 H1']] [H2|[H2 H2']].
  - left. lra.
  - left. lra.
  - left. lra.
  - right. split; [lra|lia].
Qed.

Lemma lex_le_antisym k1 v1 k2 v2 :
  lex_le k1 v1 k2 v2 → lex_le k2 v2 k1 v1 → k1 = k2.
Proof.
  unfold lex_le. intros [H1|[H1 H1']] [H2|[H2 H2']]; try lra. lia.
Qed.

Lemma lex_le_value k1 v1 k2 v2 : lex_le k1 v1 k2 v2 → (v1 <= v2)%Q.
Proof. unfold lex_le. intros [H|[H _]]; lra. Qed.

Lemma Qgtb_gt a b : Qgtb a b = true ↔ (b < a)%Q.
Proof.
  unfold Qgtb. rewrite negb_true_iff, <- not_true_iff_false, Qle_bool_iff.
  split; [apply Qnot_le_lt|apply Qlt_not_le].
Qed.

Lemma Qltb_iff a b : Qltb a b = true ↔ (a < b)%Q.
Proof.
  unfold Qltb. rewrite negb_true_iff, <- not_true_iff_false, Qle_bool_iff.
  split; [apply Qnot_le_lt|apply Qlt_not_le].
Qed.

Lemma lex_le_total k1 v1 k2 v2 : lex_le k1 v1 k2 v2 ∨ lex_le k2 v2 k1 v1.
Proof.
  unfold lex_le. destruct (Q_dec v1 v2) as [[H|H]|H].
  - left. by left.
  - right. by left.
  - destruct (decide (k1 ≤ k2)).
    + left. right. done.
    + right. right. split; [by symmetry|lia].
Qed.

Lemma Qltb_lt a b : Qltb a b = true → (a < b)%Q.
Proof.
  unfold Qltb. intros H. apply Qnot_le_lt. intros Hle.
  apply Qle_bool_iff in Hle. rewrite Hle in H. discriminate.
Qed.


(** ** Deciding hypotheses on concrete inputs *)

Lemma forall_lt_Forall (P : nat → Prop) (n : nat) :
  (∀ i, i < n → P i) ↔ Forall P (seq 0 n).
Proof.
  rewrite Forall_forall. split; intros H i Hi; apply H.
  - apply elem_of_seq in Hi. lia.
  - apply elem_of_seq. lia.
Qed.

Global Instance forall_lt_dec (P : nat → Prop) `{!∀ i, Decision (P i)} (n : nat) :
  Decision (∀ i, i < n → P i) :=
  match decide (Forall P (seq 0 n)) with
  | left H => left (proj2 (forall_lt_Forall P n) H)
  | right H => right (λ H', H (proj1 (forall_lt_Forall P n) H'))
  end.

Definition csr_cols_okb (n : nat) (Ap Aj : list nat) : bool :=
  forallb (λ i, forallb (λ j, j <? n) (row Ap Aj i)) (seq 0 n).

Lemma csr_cols_okb_sound n Ap Aj :
  csr_cols_okb n Ap Aj = true → csr_cols_ok n Ap Aj.
Proof.
  unfold csr_cols_okb. rewrite forallb_forall. intros H i j Hi Hin.
  specialize (H i ltac:(apply in_seq; lia)). rewrite forallb_forall in H.
  apply Nat.ltb_lt, H. by apply list_elem_of_In.
Qed.

Definition csr_symmetricb (n : nat) (Ap Aj : list nat) : bool :=
  forallb (λ i, forallb (λ j, implb (bool_decide (j ∈ row Ap Aj i))
                                    (bool_decide (i ∈ row Ap Aj j)))
                  (seq 0 n))
    (seq 0 n).

Lemma csr_symmetricb_sound n Ap Aj :
  csr_symmetricb n Ap Aj = true → csr_symmetric n Ap Aj.
Proof.
  unfold csr_symmetricb. rewrite forallb_forall.
  intros H i j Hi Hj Hin.
  specialize (H i ltac:(apply in_seq; lia)).
  rewrite forallb_forall in H.
  specialize (H j ltac:(apply in_seq; lia)).
  rewrite (bool_decide_eq_true_2 _ Hin) in H. simpl in H.
  by apply bool_decide_eq_true_1 in H.
Qed.

Lemma csr_rows_ok_dec_sound n Ap :
  bool_decide (∀ i, i < n → Ap !!! i ≤ Ap !!! S i) = true → csr_rows_ok n Ap.
Proof. intros H. by apply bool_decide_eq_true_1 in H. Qed.

(** ** Small graphs for the examples *)

(** The path 0-1-2. *)
Definition path3_Ap : list nat := [0; 1; 3; 4].
Definition path3_Aj : list nat := [1; 0; 2; 1].

(** The path 0-1-2-3-4. *)
Definition path5_Ap : list nat := [0; 1; 3; 5; 7; 8].
Definition path5_Aj : list nat := [1; 0; 2; 1; 3; 2; 4; 3].


(** ** maximal_independent_set_serial *)

Section MisSerial.
Variables (n : nat) (Ap Aj : list nat) (active C F : Z) (x0 : list Z).
Hypothesis Hsym : csr_symmetric n Ap Aj.
Hypothesis Hlen0 : length x0 = n.
Hypothesis HAC : active ≠ C.
Hypothesis HAF : active ≠ F.
Hypothesis HCF : C ≠ F.

(** Cells only move from [active] to [C] or [F]. *)
Definition mis_monotone (x : list Z) : Prop :=
  ∀ w, w < n →
    x !!! w = x0 !!! w ∨ (x0 !!! w = active ∧ (x !!! w = C ∨ x !!! w = F)).

(** Every formerly active neighbour of a promoted vertex holds [F]. *)
Definition mis_serial_guard (x : list Z) : Prop :=
  ∀ u v, u < n → v < n → u ≠ v →
    x0 !!! u = active → x !!! u = C → v ∈ row Ap Aj u →
    x0 !!! v = active → x !!! v = F.

Definition mis_serial_inv (x : list Z) : Prop :=
  length x = n ∧ mis_monotone x ∧ mis_serial_guard x.

Lemma mis_monotone_active x w :
  mis_monotone x → w < n → x !!! w = active → x0 !!! w = active.
Proof.
  intros Hm Hw Hx. destruct (Hm w Hw) as [H|[H _]]; congruence.
Qed.

Lemma mis_serial_inv_init : mis_serial_inv x0.
Proof.
  split; [done|]. split.
  - intros w _. by left.
  - intros u v _ _ _ Hu HuC. congruence.
Qed.

Lemma mis_serial_inv_step x N i :
  i < n → mis_serial_inv x →
  mis_serial_inv (mis_serial_step Ap Aj active C F (x, N) i).1.
Proof.
  intros Hi (Hlen & Hmono & Hguard). unfold mis_serial_step.
  destruct (Z.eqb_spec (x !!! i) active) as [Hxi|Hxi]; simpl; [|done].
  assert (Hx0i : x0 !!! i = active) by by apply (mis_monotone_active x).
  assert (Hlen' : length (<[i:=C]> x) = n) by by rewrite length_insert.
  assert (Hcell : ∀ w, w < n →
    mis_mark_row active F (<[i:=C]> x) (row Ap Aj i) !!! w =
      if decide (w = i) then C
      else if decide (w ∈ row Ap Aj i ∧ x !!! w = active) then F else x !!! w).
  { intros w Hw. rewrite mis_mark_row_lookup by lia.
    destruct (decide (w = i)) as [->|Hne].
    - rewrite list_lookup_total_insert_eq by lia.
      case_decide as H; [|done]. destruct H; congruence.
    - by rewrite list_lookup_total_insert_ne. }
  split; [by rewrite mis_mark_row_length|]. split.
  - intros w Hw. rewrite Hcell by done.
    destruct (decide (w = i)) as [->|Hne]; [right; auto|].
    case_decide as H; [|apply Hmono; done].
    destruct H as [_ H]. right. split; [|by right].
    by apply (mis_monotone_active x).
  - intros u v Hu Hv Huv Hu0 HuC Hvin Hv0.
    rewrite Hcell in HuC by done. rewrite Hcell by done.
    destruct (decide (u = i)) as [->|Hui].
    + rewrite decide_False by done.
      destruct (Hmono v Hv) as [Hxv|[_ [Hxv|Hxv]]].
      * rewrite decide_True; [done|]. split; [done|congruence].
      * exfalso. assert (x !!! i = F); [|congruence].
        apply (Hguard v i); try done. by apply Hsym.
      * case_decide; done.
    + case_decide as H; [congruence|].
      assert (HvF : x !!! v = F) by by apply (Hguard u v).
      destruct (decide (v = i)) as [->|Hvi]; [congruence|].
      case_decide as H'; [done|done].
Qed.

Lemma mis_serial_inv_loop m :
  m ≤ n →
  mis_serial_inv
    (fold_left (mis_serial_step Ap Aj active C F) (seq 0 m) (x0, 0)).1.
Proof.
  induction m as [|m IH]; intros Hm; [apply mis_serial_inv_init|].
  rewrite fold_left_seq_S. simpl.
  destruct (fold_left _ (seq 0 m) (x0, 0)) as [x N] eqn:E.
  apply mis_serial_inv_step; [lia|]. apply IH. lia.
Qed.

Lemma mis_serial_independent x' N u v :
  maximal_independent_set_serial n Ap Aj active C F x0 = (x', N) →
  u < n → v < n → u ≠ v →
  promoted active C x0 x' u → promoted active C x0 x' v →
  v ∉ row Ap Aj u.
Proof.
  intros Hrun Hu Hv Huv [Hu0 HuC] [Hv0 HvC] Hin.
  pose proof (mis_serial_inv_loop n (le_n n)) as (_ & _ & Hguard).
  unfold maximal_independent_set_serial in Hrun. rewrite Hrun in Hguard.
  simpl in Hguard. specialize (Hguard u v Hu Hv Huv Hu0 HuC Hin Hv0).
  congruence.
Qed.
End MisSerial.

(** *** Every vertex is decided, and the count *)

Section MisSerialCount.
Variables (n : nat) (Ap Aj : list nat) (active C F : Z).
Hypothesis HAC : active ≠ C.
Hypothesis HAF : active ≠ F.

Lemma mis_serial_step_decided x N i w :
  i < length x → w < length x →
  (w = i ∨ x !!! w ≠ active) →
  (mis_serial_step Ap Aj active C F (x, N) i).1 !!! w ≠ active.
Proof.
  intros Hi Hw Hcase. unfold mis_serial_step.
  destruct (Z.eqb_spec (x !!! i) active) as [Hxi|Hxi]; simpl.
  - rewrite mis_mark_row_lookup by (by rewrite length_insert).
    case_decide; [congruence|].
    destruct (decide (w = i)) as [->|Hne].
    + rewrite list_lookup_total_insert_eq by done. congruence.
    + rewrite list_lookup_total_insert_ne by done. by destruct Hcase.
  - destruct Hcase as [->|?]; done.
Qed.

Lemma mis_serial_step_length x N i :
  length (mis_serial_step Ap Aj active C F (x, N) i).1 = length x.
Proof.
  unfold mis_serial_step. destruct (_ =? _)%Z; simpl; [|done].
  by rewrite mis_mark_row_length, length_insert.
Qed.

(** After the first [m] vertices were visited, none of them is active. *)
Lemma mis_serial_prefix_decided x m :
  m ≤ length x →
  let r := fold_left (mis_serial_step Ap Aj active C F) (seq 0 m) (x, 0) in
  length r.1 = length x ∧ ∀ w, w < m → r.1 !!! w ≠ active.
Proof.
  induction m as [|m IH]; intros Hm; cbv zeta; [split; [done|lia]|].
  rewrite fold_left_seq_S. cbv zeta in IH.
  destruct IH as [Hlen Hdec]; [lia|].
  destruct (fold_left _ (seq 0 m) (x, 0)) as [x1 N1].
  change (0 + m) with m. cbn [fst] in Hlen, Hdec.
  split; [by rewrite mis_serial_step_length|].
  intros w Hw. apply mis_serial_step_decided; [lia..|].
  destruct (decide (w = m)); [by left|right]. apply Hdec. lia.
Qed.

Lemma mis_serial_decided x x' N w :
  length x = n →
  maximal_independent_set_serial n Ap Aj active C F x = (x', N) →
  w < n → x' !!! w ≠ active.
Proof.
  intros Hlen Hrun Hw.
  destruct (mis_serial_prefix_decided x n) as [_ H]; [lia|].
  unfold maximal_independent_set_serial in Hrun. rewrite Hrun in H.
  by apply H.
Qed.

Lemma mis_serial_step_cases x N i :
  mis_serial_step Ap Aj active C F (x, N) i = (x, N)
  ∨ (mis_serial_step Ap Aj active C F (x, N) i).2 = S N.
Proof. unfold mis_serial_step. destruct (negb _); auto. Qed.

(** A call that counts nothing changes nothing. *)
Lemma mis_serial_fold_count l x N :
  N ≤ (fold_left (mis_serial_step Ap Aj active C F) l (x, N)).2
  ∧ ((fold_left (mis_serial_step Ap Aj active C F) l (x, N)).2 = N →
     (fold_left (mis_serial_step Ap Aj active C F) l (x, N)).1 = x).
Proof.
  revert x N. induction l as [|i l IH]; intros x N; cbn [fold_left]; [done|].
  destruct (mis_serial_step_cases x N i) as [E|E].
  - rewrite E. apply IH.
  - destruct (mis_serial_step Ap Aj active C F (x, N) i) as [x1 N1].
    simpl in E. subst N1. destruct (IH x1 (S N)) as [IH1 IH2]. split; lia.
Qed.

Lemma mis_serial_progress x x' N w :
  length x = n →
  maximal_independent_set_serial n Ap Aj active C F x = (x', N) →
  w < n → x !!! w = active → 0 < N.
Proof.
  intros Hlen Hrun Hw Hact.
  pose proof (mis_serial_decided x x' N w Hlen Hrun Hw) as Hdec.
  destruct (mis_serial_fold_count (seq 0 n) x 0) as [_ Hsame].
  unfold maximal_independent_set_serial in Hrun. rewrite Hrun in Hsame.
  simpl in Hsame. destruct N; [|lia].
  rewrite Hsame in Hdec by done. done.
Qed.
End MisSerialCount.

(** ** maximal_independent_set_parallel *)

Lemma mis_scan_row_end active C x y i js :
  mis_scan_row active C x y i js = ScanEnd → ∀ j, j ∈ js → x !!! j ≠ C.
Proof.
  induction js as [|j' js IH]; simpl; intros Hscan j Hin.
  - by apply elem_of_nil in Hin.
  - destruct (Z.eqb_spec (x !!! j') C) as [|Hne]; [done|].
    destruct (_ && _); [done|].
    apply elem_of_cons in Hin as [->|Hin]; [done|]. by apply IH.
Qed.

Section MisParallel.
Variables (n : nat) (Ap Aj : list nat) (active C F : Z) (y : list Q).
Variable x0 : list Z.
Hypothesis Hlen0 : length x0 = n.
Hypothesis HAC : active ≠ C.
Hypothesis HAF : active ≠ F.
Hypothesis HCF : C ≠ F.

(** No neighbour of a promoted vertex holds [C] or is still active. *)
Definition mis_parallel_guard (x : list Z) : Prop :=
  ∀ u v, u < n → v < n → u ≠ v →
    x0 !!! u = active → x !!! u = C → v ∈ row Ap Aj u →
    x !!! v ≠ C ∧ x !!! v ≠ active.

Definition mis_parallel_inv (x : list Z) : Prop :=
  length x = n ∧ mis_monotone n active C F x0 x ∧ mis_parallel_guard x.

Lemma mis_parallel_inv_init : mis_parallel_inv x0.
Proof.
  split; [done|]. split.
  - intros w _. by left.
  - intros u v _ _ _ Hu HuC. congruence.
Qed.

Lemma mis_parallel_inv_step st i :
  i < n → mis_parallel_inv st.1.1 →
  mis_parallel_inv (mis_parallel_step Ap Aj active C F y st i).1.1.
Proof.
  destruct st as [[x N] flag]. simpl.
  intros Hi (Hlen & Hmono & Hguard). unfold mis_parallel_step.
  destruct (Z.eqb_spec (x !!! i) active) as [Hxi|Hxi]; simpl; [|done].
  assert (Hx0i : x0 !!! i = active)
    by by apply (mis_monotone_active n active C F x0 x).
  destruct (mis_scan_row _ _ _ _ _ _) eqn:Hscan; simpl.
  - (* promoted *)
    destruct (_ <=? _); simpl; [|done].
    pose proof (mis_scan_row_end _ _ _ _ _ _ Hscan) as HnoC.
    assert (Hcell : ∀ w, w < n →
      <[i:=C]> (mis_mark_row active F x (row Ap Aj i)) !!! w =
        if decide (w = i) then C
        else if decide (w ∈ row Ap Aj i ∧ x !!! w = active) then F
             else x !!! w).
    { intros w Hw. destruct (decide (w = i)) as [->|Hne].
      - apply list_lookup_total_insert_eq. rewrite mis_mark_row_length. lia.
      - rewrite list_lookup_total_insert_ne by done.
        apply mis_mark_row_lookup. lia. }
    split; [by rewrite length_insert, mis_mark_row_length|]. split.
    + intros w Hw. rewrite Hcell by done.
      destruct (decide (w = i)) as [->|Hne]; [right; auto|].
      case_decide as H; [|by apply Hmono].
      destruct H as [_ H]. right. split; [|by right].
      by apply (mis_monotone_active n active C F x0 x).
    + intros u v Hu Hv Huv Hu0 HuC Hvin.
      rewrite Hcell in HuC by done. rewrite Hcell by done.
      destruct (decide (u = i)) as [->|Hui].
      * rewrite decide_False by done.
        case_decide as H; [done|]. split; [by apply HnoC|].
        intros Hact. apply H. done.
      * case_decide as H; [congruence|].
        destruct (Hguard u v) as [HvC Hvact]; try done.
        destruct (decide (v = i)) as [->|Hvi]; [congruence|].
        case_decide as H'; [by destruct H'|done].
  - (* a neighbour is in the set *)
    split; [by rewrite length_insert|]. split.
    + intros w Hw. destruct (decide (w = i)) as [->|Hne].
      * rewrite list_lookup_total_insert_eq by lia. right. auto.
      * rewrite list_lookup_total_insert_ne by done. by apply Hmono.
    + intros u v Hu Hv Huv Hu0 HuC Hvin.
      destruct (decide (u = i)) as [->|Hui].
      { rewrite list_lookup_total_insert_eq in HuC by lia. congruence. }
      rewrite list_lookup_total_insert_ne in HuC by done.
      destruct (Hguard u v) as [HvC Hvact]; try done.
      destruct (decide (v = i)) as [->|Hvi]; [congruence|].
      by rewrite list_lookup_total_insert_ne.
  - (* a neighbour is larger *)
    done.
Qed.

Lemma mis_parallel_inv_round x N :
  mis_parallel_inv x →
  mis_parallel_inv (mis_parallel_round n Ap Aj active C F y x N).1.1.
Proof.
  intros Hinv. unfold mis_parallel_round.
  assert (H : ∀ m, m ≤ n → mis_parallel_inv
    (fold_left (mis_parallel_step Ap Aj active C F y) (seq 0 m) (x, N, false)).1.1).
  { induction m as [|m IH]; intros Hm; [done|].
    rewrite fold_left_seq_S. apply mis_parallel_inv_step; [lia|].
    apply IH. lia. }
  by apply H.
Qed.

Lemma mis_parallel_inv_while fuel max_iters num_iters flag x N x' N' :
  mis_parallel_inv x →
  mis_parallel_while fuel n Ap Aj active C F y max_iters num_iters flag x N
    = Some (x', N') →
  mis_parallel_inv x'.
Proof.
  revert num_iters flag x N.
  induction fuel as [|fuel IH]; intros num_iters flag x N Hinv; simpl.
  - destruct (_ && _); [done|]. by intros [= <- <-].
  - destruct (_ && _); [|by intros [= <- <-]].
    pose proof (mis_parallel_inv_round x N Hinv) as Hround.
    destruct (mis_parallel_round _ _ _ _ _ _ _ _ _) as [[x1 N1] flag1].
    by apply IH.
Qed.

Lemma mis_parallel_independent fuel max_iters x' N u v :
  maximal_independent_set_parallel fuel n Ap Aj active C F x0 y max_iters
    = Some (x', N) →
  u < n → v < n → u ≠ v →
  promoted active C x0 x' u → promoted active C x0 x' v →
  v ∉ row Ap Aj u.
Proof.
  intros Hrun Hu Hv Huv [Hu0 HuC] [Hv0 HvC] Hin.
  apply mis_parallel_inv_while in Hrun as (_ & _ & Hguard);
    [|apply mis_parallel_inv_init].
  by destruct (Hguard u v).
Qed.
End MisParallel.

(** *** The loop of the parallel kernel ends *)

(** The number of cells that hold [a]. *)
Definition count_of `{EqDecision A} (a : A) (l : list A) : nat :=
  length (filter (λ v, v = a) l).

Lemma count_of_le `{EqDecision A} (a : A) (l : list A) :
  count_of a l ≤ length l.
Proof. apply length_filter. Qed.

(** If no cell turns into [a], the count of [a] does not grow, and it
    drops when some cell stops holding [a]. *)
Lemma count_of_shrinks `{EqDecision A} `{!Inhabited A} (a : A) (l l' : list A) :
  length l' = length l →
  (∀ w, w < length l → l' !!! w = a → l !!! w = a) →
  count_of a l' ≤ count_of a l
  ∧ ∀ g, g < length l → l !!! g = a → l' !!! g ≠ a →
      count_of a l' < count_of a l.
Proof.
  unfold count_of. revert l'.
  induction l as [|b l IH]; intros [|b' l'] Hlen Hmono; try done.
  destruct (IH l') as [IHle IHlt].
  { simpl in Hlen. lia. }
  { intros w Hw. apply (Hmono (S w)). simpl. lia. }
  pose proof (Hmono 0 ltac:(simpl; lia)) as Hhead. simpl in Hhead.
  rewrite !filter_cons. split.
  - repeat case_decide; simpl; try lia; exfalso; auto.
  - intros [|g] Hg Hx Hx'; simpl in *.
    + rewrite (decide_True (P := b = a)) by done.
      rewrite (decide_False (P := b' = a)) by done. simpl. lia.
    + specialize (IHlt g ltac:(lia) Hx Hx').
      repeat case_decide; simpl; try lia; exfalso; auto.
Qed.

Lemma count_of_cases `{EqDecision A} `{!Inhabited A} (a : A) (l : list A) :
  (count_of a l = 0 ∧ ∀ w, w < length l → l !!! w ≠ a)
  ∨ (0 < count_of a l ∧ ∃ w, w < length l ∧ l !!! w = a).
Proof.
  unfold count_of. induction l as [|b l IH].
  - left. split; [done|]. simpl. intros; lia.
  - rewrite filter_cons. destruct (decide (b = a)) as [Hb|Hb].
    + right. split; [simpl; lia|]. exists 0. split; [simpl; lia|done].
    + destruct IH as [[IH0 IHn]|[IHp (w & Hw & Hact)]].
      * left. split; [done|]. intros [|w] Hw; [done|].
        apply IHn. simpl in Hw. lia.
      * right. split; [done|]. exists (S w). split; [simpl; lia|done].
Qed.

Lemma mis_scan_row_larger active C x y i js :
  mis_scan_row active C x y i js = ScanNeighborLarger →
  ∃ j, j ∈ js ∧ x !!! j = active
       ∧ (Qgtb (y !!! j) (y !!! i) = true
          ∨ (Qeq_bool (y !!! j) (y !!! i) = true ∧ i < j)).
Proof.
  induction js as [|j js IH]; simpl; [done|].
  destruct (x !!! j =? C)%Z; [done|].
  destruct (Z.eqb_spec (x !!! j) active) as [Hact|Hact]; simpl.
  - destruct (Qgtb _ _) eqn:Hgt; simpl.
    { intros _. exists j. split; [apply elem_of_cons; by left|]. auto. }
    destruct (Qeq_bool _ _) eqn:Heq; simpl.
    + destruct (Nat.ltb_spec i j) as [Hij|Hij].
      { intros _. exists j. split; [apply elem_of_cons; by left|]. auto. }
      intros (j' & Hj' & H)%IH. exists j'.
      split; [apply elem_of_cons; by right|done].
    + intros (j' & Hj' & H)%IH. exists j'.
      split; [apply elem_of_cons; by right|done].
  - intros (j' & Hj' & H)%IH. exists j'.
    split; [apply elem_of_cons; by right|done].
Qed.

(** Among the vertices below [m] that satisfy [P] there is a largest one. *)
Lemma largest_such (P : nat → Prop) `{!∀ w, Decision (P w)} (val : list Q) m :
  (∀ w, w < m → ¬ P w)
  ∨ ∃ g, g < m ∧ P g
         ∧ ∀ w, w < m → P w → lex_le w (val !!! w) g (val !!! g).
Proof.
  induction m as [|m IH]; [left; intros; lia|].
  destruct (decide (P m)) as [Hm|Hm];
    destruct IH as [Hnone|(g & Hg & Hgact & Hmax)].
  - right. exists m. split; [lia|]. split; [done|].
    intros w Hw Hwact. destruct (decide (w = m)) as [->|Hne].
    + apply lex_le_refl.
    + exfalso. apply (Hnone w); [lia|done].
  - destruct (lex_le_total m (val !!! m) g (val !!! g)) as [Hle|Hle].
    + right. exists g. split; [lia|]. split; [done|].
      intros w Hw Hwact. destruct (decide (w = m)) as [->|Hne]; [done|].
      apply Hmax; [lia|done].
    + right. exists m. split; [lia|]. split; [done|].
      intros w Hw Hwact. destruct (decide (w = m)) as [->|Hne].
      * apply lex_le_refl.
      * eapply lex_le_trans; [apply Hmax; [lia|done]|done].
  - left. intros w Hw. destruct (decide (w = m)) as [->|Hne]; [done|].
    apply Hnone. lia.
  - right. exists g. split; [lia|]. split; [done|].
    intros w Hw Hwact. destruct (decide (w = m)) as [->|Hne]; [done|].
    apply Hmax; [lia|done].
Qed.

Section MisParallelEnds.
Variables (n : nat) (Ap Aj : list nat) (active C F : Z) (y : list Q).
Hypothesis Hrows : csr_rows_ok n Ap.
Hypothesis Hcols : csr_cols_ok n Ap Aj.
Hypothesis HAC : active ≠ C.
Hypothesis HAF : active ≠ F.
Hypothesis HCF : C ≠ F.

(** A round that finds no active vertex changes nothing and clears the
    flag. *)
Lemma mis_parallel_round_idle x N :
  length x = n → (∀ w, w < n → x !!! w ≠ active) →
  mis_parallel_round n Ap Aj active C F y x N = (x, N, false).
Proof.
  intros Hlen Hnone. unfold mis_parallel_round.
  assert (H : ∀ m, m ≤ n →
    fold_left (mis_parallel_step Ap Aj active C F y) (seq 0 m) (x, N, false)
    = (x, N, false)).
  { induction m as [|m IH]; intros Hm; [done|].
    rewrite fold_left_seq_S, IH by lia. simpl.
    destruct (Z.eqb_spec (x !!! m) active) as [Hact|_]; [|done].
    exfalso. apply (Hnone m); [lia|done]. }
  by apply H.
Qed.

(** One step never makes a cell active, and decides the largest active
    vertex when it visits it. *)
Lemma mis_parallel_step_mono st i :
  i < n → length st.1.1 = n →
  length (mis_parallel_step Ap Aj active C F y st i).1.1 = n
  ∧ mis_monotone n active C F st.1.1
      (mis_parallel_step Ap Aj active C F y st i).1.1.
Proof.
  intros Hi Hlen.
  destruct (mis_parallel_inv_step n Ap Aj active C F y st.1.1 Hlen HAC HAF HCF
              st i Hi) as (Hlen' & Hmono & _); [|done].
  by apply mis_parallel_inv_init.
Qed.

Lemma mis_parallel_step_largest x0 st g :
  g < n → length st.1.1 = n →
  mis_monotone n active C F x0 st.1.1 →
  (∀ w, w < n → x0 !!! w = active → lex_le w (y !!! w) g (y !!! g)) →
  (mis_parallel_step Ap Aj active C F y st g).1.1 !!! g ≠ active.
Proof.
  destruct st as [[x N] flag]. simpl. intros Hg Hlen Hmono Hmax.
  unfold mis_parallel_step.
  destruct (Z.eqb_spec (x !!! g) active) as [Hact|Hact]; simpl; [|done].
  destruct (mis_scan_row _ _ _ _ _ _) eqn:Hscan; simpl.
  - rewrite (proj2 (Nat.leb_le _ _) (Hrows g Hg)). simpl.
    rewrite list_lookup_total_insert_eq; [congruence|].
    rewrite mis_mark_row_length. lia.
  - rewrite list_lookup_total_insert_eq by lia. congruence.
  - exfalso.
    apply mis_scan_row_larger in Hscan as (j & Hj & Hjact & Hbig).
    assert (Hjn : j < n) by by apply (Hcols g).
    assert (Hj0 : x0 !!! j = active)
      by by apply (mis_monotone_active n active C F x0 x).
    specialize (Hmax j Hjn Hj0). unfold lex_le in Hmax.
    destruct Hbig as [Hgt|[Heq Hlt]].
    + apply Qgtb_gt in Hgt. destruct Hmax as [?|[? ?]]; lra.
    + apply Qeq_bool_iff in Heq. destruct Hmax as [?|[? ?]]; [lra|lia].
Qed.

(** A round that starts with an active vertex ends with fewer of them. *)
Lemma mis_parallel_round_progress x N :
  length x = n → (∃ w, w < n ∧ x !!! w = active) →
  length (mis_parallel_round n Ap Aj active C F y x N).1.1 = n
  ∧ count_of active (mis_parallel_round n Ap Aj active C F y x N).1.1
    < count_of active x.
Proof.
  intros Hlen (w0 & Hw0 & Hw0act).
  destruct (largest_such (λ w, x !!! w = active) y n)
    as [Hnone|(g & Hg & Hgact & Hmax)].
  { exfalso. by apply (Hnone w0). }
  unfold mis_parallel_round.
  assert (H : ∀ m, m ≤ n →
    let st := fold_left (mis_parallel_step Ap Aj active C F y) (seq 0 m)
                (x, N, false) in
    length st.1.1 = n ∧ mis_monotone n active C F x st.1.1
    ∧ (g < m → st.1.1 !!! g ≠ active)).
  { induction m as [|m IH]; intros Hm; cbv zeta.
    - simpl. split; [done|]. split; [intros w _; by left|lia].
    - rewrite fold_left_seq_S. cbv zeta in IH.
      destruct IH as (IHlen & IHmono & IHg); [lia|].
      set (st := fold_left _ (seq 0 m) (x, N, false)) in *.
      change (0 + m) with m.
      destruct (mis_parallel_step_mono st m ltac:(lia) IHlen)
        as [Hlen' Hstep].
      split; [done|]. split.
      + intros w Hw. destruct (Hstep w Hw) as [Heq|[Hact Hnew]].
        * rewrite Heq. by apply IHmono.
        * right. split; [|done].
          by apply (mis_monotone_active n active C F x st.1.1).
      + intros Hgm. destruct (decide (g = m)) as [->|Hne].
        * by apply (mis_parallel_step_largest x).
        * destruct (Hstep g Hg) as [Heq|[Hact _]].
          -- rewrite Heq. apply IHg. lia.
          -- exfalso. apply IHg; [lia|done]. }
  destruct (H n (le_n n)) as (Hlen' & Hmono & Hgone). cbv zeta in *.
  split; [done|].
  set (x' := (fold_left _ (seq 0 n) (x, N, false)).1.1) in *.
  destruct (count_of_shrinks active x x') as [_ Hless]; [lia| |].
  { intros w Hw. rewrite Hlen in Hw.
    by apply (mis_monotone_active n active C F x). }
  apply (Hless g); [lia|done|by apply Hgone].
Qed.

Lemma mis_parallel_while_returns fuel max_iters num_iters flag x N :
  length x = n → count_of active x < fuel →
  ∃ r, mis_parallel_while fuel n Ap Aj active C F y max_iters num_iters
         flag x N = Some r.
Proof.
  revert num_iters flag x N.
  induction fuel as [|fuel IH]; intros num_iters flag x N Hlen Hfuel; [lia|].
  cbn [mis_parallel_while]. destruct (_ && _); [|by eexists].
  destruct (count_of_cases active x) as [[H0 Hnone]|[Hpos Hsome]].
  - rewrite mis_parallel_round_idle; [|done|by rewrite <- Hlen].
    destruct fuel; simpl; by eexists.
  - destruct (mis_parallel_round_progress x N Hlen) as [Hlen' Hless].
    { destruct Hsome as (w & Hw & Hact). exists w. split; [lia|done]. }
    destruct (mis_parallel_round n Ap Aj active C F y x N) as [[x1 N1] flag1].
    simpl in *. apply IH; [done|lia].
Qed.

Lemma mis_parallel_returns fuel max_iters x :
  length x = n → n < fuel →
  ∃ r, maximal_independent_set_parallel fuel n Ap Aj active C F x y max_iters
       = Some r.
Proof.
  intros Hlen Hfuel. apply mis_parallel_while_returns; [done|].
  pose proof (count_of_le active x). lia.
Qed.
End MisParallelEnds.

(** ** The promoted vertices are independent *)

(** C1.  On a symmetric graph and with three distinct sentinel values, the
    vertices promoted by a call to [maximal_independent_set_serial] or to
    [maximal_independent_set_parallel] (those that were [active] before
    the call and hold [C] after it) are pairwise non-adjacent: a promoted
    [v] never occurs in the row [Aj[Ap[u] .. Ap[u+1])] of another
    promoted [u].  Both calls return: the serial one is a single pass, and
    the parallel one needs at most [n + 1] rounds whatever [max_iters]. *)
Theorem mis_promoted_independent (n : nat) (Ap Aj : list nat)
    (active C F : Z) (x : list Z) (y : list Q) (max_iters : Z) :
  csr_rows_ok n Ap → csr_cols_ok n Ap Aj → csr_symmetric n Ap Aj →
  length x = n → active ≠ C → active ≠ F → C ≠ F →
  (∀ x' N u v,
     maximal_independent_set_serial n Ap Aj active C F x = (x', N) →
     u < n → v < n → u ≠ v →
     promoted active C x x' u → promoted active C x x' v →
     v ∉ row Ap Aj u)
  ∧ (∀ fuel x' N u v,
       maximal_independent_set_parallel fuel n Ap Aj active C F x y max_iters
         = Some (x', N) →
       u < n → v < n → u ≠ v →
       promoted active C x x' u → promoted active C x x' v →
       v ∉ row Ap Aj u)
  ∧ (∀ fuel, n < fuel →
       ∃ r, maximal_independent_set_parallel fuel n Ap Aj active C F x y
              max_iters = Some r).
Proof.
  intros Hrows Hcols Hsym Hlen HAC HAF HCF. split; [|split].
  - intros x' N u v. by apply mis_serial_independent.
  - intros fuel x' N u v. by apply mis_parallel_independent.
  - intros fuel Hfuel. by apply mis_parallel_returns.
Qed.

Lemma mis_promoted_independent_witness :
  maximal_independent_set_serial 5 path5_Ap path5_Aj 0 1 2 [0; 0; 0; 0; 0]%Z
    = ([1; 2; 1; 2; 1]%Z, 3)
  ∧ maximal_independent_set_parallel 6 5 path5_Ap path5_Aj 0 1 2
      [0; 0; 0; 0; 0]%Z [1#2; 1#3; 1#2; 1#5; 1#7]%Q (-1)
    = Some ([1; 2; 1; 2; 1]%Z, 3)
  ∧ (2 ∉ row path5_Ap path5_Aj 0) ∧ (4 ∉ row path5_Ap path5_Aj 2).
Proof.
  destruct (mis_promoted_independent 5 path5_Ap path5_Aj 0 1 2
              [0; 0; 0; 0; 0]%Z [1#2; 1#3; 1#2; 1#5; 1#7]%Q (-1))
    as (Hserial & Hparallel & _).
  - apply csr_rows_ok_dec_sound. vm_compute. reflexivity.
  - apply csr_cols_okb_sound. vm_compute. reflexivity.
  - apply csr_symmetricb_sound. vm_compute. reflexivity.
  - reflexivity.
  - lia.
  - lia.
  - lia.
  - split; [reflexivity|]. split; [reflexivity|]. split.
    + apply (Hserial [1; 2; 1; 2; 1]%Z 3 0 2); try lia; try reflexivity;
        split; reflexivity.
    + apply (Hparallel 6 [1; 2; 1; 2; 1]%Z 3 2 4); try lia; try reflexivity;
        split; reflexivity.
Defined.

(** ** Scenarios of the two MIS kernels *)

(** Serial MIS on the path 0-1-2-3-4 with [active = 0], [C = 1], [F = 2]. *)
Example mis_serial_path5 :
  maximal_independent_set_serial 5 path5_Ap path5_Aj 0 1 2 [0; 0; 0; 0; 0]%Z
  = ([1; 2; 1; 2; 1]%Z, 3).
Proof. reflexivity. Qed.

(** CSR arrays of the triangle 0-1-2. *)
Definition triangle_Ap : list nat := [0; 2; 4; 6].
Definition triangle_Aj : list nat := [1; 2; 0; 2; 0; 1].

(** C4.  On the triangle with equal weights [1/2] and all three vertices
    active, the unbounded call promotes exactly vertex 2: it returns the
    count 1 and the state [F; F; C]. *)
Theorem mis_parallel_triangle_promotes_2 (active C F : Z) (fuel : nat) :
  active ≠ C → active ≠ F → C ≠ F → 2 ≤ fuel →
  maximal_independent_set_parallel fuel 3 triangle_Ap triangle_Aj active C F
    [active; active; active] [1#2; 1#2; 1#2]%Q (-1)
  = Some ([F; F; C], 1).
Proof.
  intros HAC HAF HCF Hfuel.
  destruct fuel as [|[|fuel]]; [lia|lia|].
  assert (E1 : (active =? C)%Z = false) by by apply Z.eqb_neq.
  assert (E2 : (active =? F)%Z = false) by by apply Z.eqb_neq.
  assert (E3 : (C =? F)%Z = false) by by apply Z.eqb_neq.
  assert (E4 : (C =? active)%Z = false) by by apply Z.eqb_neq.
  assert (E5 : (F =? active)%Z = false) by by apply Z.eqb_neq.
  assert (E6 : (F =? C)%Z = false) by by apply Z.eqb_neq.
  unfold maximal_independent_set_parallel.
  do 2 (cbn [mis_parallel_while andb orb Z.eqb Pos.eqb];
        unfold mis_parallel_round, triangle_Ap, triangle_Aj;
        repeat (cbv -[Z.eqb mis_parallel_while];
                rewrite ?Z.eqb_refl, ?E1, ?E2, ?E3, ?E4, ?E5, ?E6)).
  destruct fuel; reflexivity.
Qed.

Lemma mis_parallel_triangle_promotes_2_witness :
  maximal_independent_set_parallel 2 3 triangle_Ap triangle_Aj 0 1 2
    [0; 0; 0]%Z [1#2; 1#2; 1#2]%Q (-1)
  = Some ([2; 2; 1]%Z, 1).
Proof.
  apply (mis_parallel_triangle_promotes_2 0 1 2 2); lia.
Defined.

(** ** vertex_coloring_mis *)

(** The number of cells that hold a colour. *)
Definition colored_count (x : list Z) : nat :=
  length (filter (λ v, (0 ≤ v)%Z) x).

Lemma colored_count_full x :
  length x ≤ colored_count x → ∀ w, w < length x → (0 ≤ x !!! w)%Z.
Proof.
  unfold colored_count. induction x as [|v x IH]; simpl; [lia|].
  intros Hle w Hw. rewrite filter_cons in Hle.
  pose proof (length_filter (λ v, (0 ≤ v)%Z) x) as Hf.
  case_decide; simpl in Hle; [|lia].
  destruct w as [|w]; [done|]. apply IH; lia.
Qed.

Lemma colored_count_insert x i v :
  i < length x →
  colored_count (<[i:=v]> x) + (if decide (0 ≤ x !!! i)%Z then 1 else 0) =
  colored_count x + (if decide (0 ≤ v)%Z then 1 else 0).
Proof.
  unfold colored_count. revert i. induction x as [|a x IH]; simpl; [lia|].
  intros [|i] Hi; simpl.
  - rewrite !filter_cons. repeat case_decide; simpl; lia.
  - rewrite !filter_cons. specialize (IH i ltac:(lia)).
    change ((a :: x) !!! S i) with (x !!! i).
    repeat case_decide; simpl in *; lia.
Qed.

Lemma colored_count_mark_row active F js x :
  (active < 0)%Z → (F < 0)%Z →
  colored_count (mis_mark_row active F x js) = colored_count x.
Proof.
  intros HA HF. revert x. induction js as [|j js IH]; intros x; simpl; [done|].
  destruct (Z.eqb_spec (x !!! j) active) as [Hj|Hj]; [|apply IH].
  rewrite IH. destruct (decide (j < length x)) as [Hlt|Hge].
  - pose proof (colored_count_insert x j F Hlt) as H.
    rewrite !decide_False in H by lia. lia.
  - by rewrite list_insert_ge by lia.
Qed.

Lemma colored_count_serial Ap Aj active C F l x N :
  (active < 0)%Z → (F < 0)%Z → (0 ≤ C)%Z → (∀ i, i ∈ l → i < length x) →
  length (fold_left (mis_serial_step Ap Aj active C F) l (x, N)).1 = length x
  ∧ colored_count (fold_left (mis_serial_step Ap Aj active C F) l (x, N)).1 + N
    = colored_count x + (fold_left (mis_serial_step Ap Aj active C F) l (x, N)).2.
Proof.
  intros HA HF HC. revert x N.
  induction l as [|i l IH]; intros x N Hl; cbn [fold_left]; [done|].
  assert (Hi : i < length x) by (apply Hl; by left).
  destruct (mis_serial_step Ap Aj active C F (x, N) i) as [x1 N1] eqn:E.
  assert (Hstep : length x1 = length x ∧ colored_count x1 + N = colored_count x + N1).
  { unfold mis_serial_step in E.
    destruct (Z.eqb_spec (x !!! i) active) as [Hxi|Hxi]; simpl in E;
      injection E as <- <-; [|done].
    rewrite mis_mark_row_length, length_insert. split; [done|].
    rewrite colored_count_mark_row by done.
    pose proof (colored_count_insert x i C Hi) as Hins.
    rewrite decide_False, decide_True in Hins by lia. lia. }
  destruct Hstep as [Hlen1 Hcnt1].
  destruct (IH x1 N1) as [IH1 IH2].
  { intros i' Hi'. rewrite Hlen1. apply Hl. by right. }
  split; [congruence|lia].
Qed.

Lemma colored_count_none x :
  (∀ w, w < length x → (x !!! w < 0)%Z) → colored_count x = 0.
Proof.
  unfold colored_count. induction x as [|v x IH]; intros H; [done|].
  rewrite filter_cons. pose proof (H 0 ltac:(simpl; lia)) as H0. simpl in H0.
  rewrite decide_False by lia. apply IH.
  intros w Hw. apply (H (S w)). simpl. lia.
Qed.

Lemma colored_count_missing x :
  colored_count x < length x → ∃ w, w < length x ∧ (x !!! w < 0)%Z.
Proof.
  unfold colored_count. induction x as [|v x IH]; simpl; [lia|].
  rewrite filter_cons. intros Hlt. destruct (decide (0 ≤ v)%Z) as [Hv|Hv].
  - simpl in Hlt. destruct IH as (w & Hw & Hneg); [lia|].
    exists (S w). split; [lia|done].
  - exists 0. split; [lia|]. simpl. lia.
Qed.

Lemma array_fill_S {A} (n : nat) (v : A) (a : list A) :
  array_fill (S n) v a = <[n:=v]> (array_fill n v a).
Proof. unfold array_fill. by rewrite fold_left_seq_S. Qed.

Lemma array_fill_length {A} (n : nat) (v : A) (a : list A) :
  length (array_fill n v a) = length a.
Proof.
  induction n as [|n IH]; [done|]. by rewrite array_fill_S, length_insert.
Qed.

Lemma array_fill_lookup `{!Inhabited A} (n : nat) (v : A) (a : list A) w :
  w < n → w < length a → array_fill n v a !!! w = v.
Proof.
  induction n as [|n IH]; intros Hn Hw; [lia|].
  rewrite array_fill_S.
  destruct (decide (w = n)) as [->|Hne].
  - apply list_lookup_total_insert_eq. by rewrite array_fill_length.
  - rewrite list_lookup_total_insert_ne by done. apply IH; [lia|done].
Qed.

Section Coloring.
Variables (n : nat) (Ap Aj : list nat).
Hypothesis Hsym : csr_symmetric n Ap Aj.

(** Adjacent coloured vertices have different colours. *)
Definition proper_coloring (x : list Z) : Prop :=
  ∀ u v, u < n → v < n → u ≠ v → v ∈ row Ap Aj u →
    (0 ≤ x !!! u)%Z → (0 ≤ x !!! v)%Z → x !!! u ≠ x !!! v.

(** The state at the head of the loop: colours below [K], every other
    vertex at the sentinel [-1-K], and [N] vertices coloured. *)
Definition coloring_inv (K : Z) (x : list Z) (N : nat) : Prop :=
  length x = n ∧ (0 ≤ K)%Z
  ∧ (∀ w, w < n → (0 ≤ x !!! w < K)%Z ∨ x !!! w = (-1 - K)%Z)
  ∧ proper_coloring x
  ∧ N = colored_count x.

Lemma coloring_inv_round K x N x' c :
  coloring_inv K x N →
  maximal_independent_set_serial n Ap Aj (-1 - K) K (-2 - K) x = (x', c) →
  coloring_inv (K + 1) x' (N + c) ∧ (N < n → 0 < c).
Proof.
  intros (Hlen & HK & Hrange & Hproper & HN) Hrun.
  assert (HAC : (-1 - K)%Z ≠ K) by lia.
  assert (HAF : (-1 - K)%Z ≠ (-2 - K)%Z) by lia.
  assert (HCF : K ≠ (-2 - K)%Z) by lia.
  pose proof (mis_serial_inv_loop n Ap Aj (-1 - K) K (-2 - K) x
                Hsym Hlen HAC HAF HCF n (le_n n)) as (Hlen' & Hmono & _).
  pose proof (λ w, mis_serial_decided n Ap Aj (-1 - K) K (-2 - K) HAC HAF
                x x' c w Hlen Hrun) as Hdec.
  pose proof (λ u v, mis_serial_independent n Ap Aj (-1 - K) K (-2 - K) x
                Hsym Hlen HAC HAF HCF x' c u v Hrun) as Hindep.
  pose proof (λ w, mis_serial_progress n Ap Aj (-1 - K) K (-2 - K) HAC HAF
                x x' c w Hlen Hrun) as Hprog.
  destruct (colored_count_serial Ap Aj (-1 - K) K (-2 - K) (seq 0 n) x 0)
    as [_ Hcount]; [lia..| |].
  { intros i Hi. apply elem_of_seq in Hi. lia. }
  unfold maximal_independent_set_serial in Hrun. rewrite Hrun in *.
  simpl in Hlen', Hmono, Hcount.
  assert (Hcases : ∀ w, w < n →
    (x' !!! w = x !!! w ∧ (0 ≤ x !!! w < K)%Z)
    ∨ (x !!! w = (-1 - K)%Z ∧ (x' !!! w = K ∨ x' !!! w = (-2 - K)%Z))).
  { intros w Hw. destruct (Hmono w Hw) as [Heq|[Hact Hnew]]; [|by right].
    destruct (Hrange w Hw) as [Hin|Hact]; [by left|].
    exfalso. apply (Hdec w Hw). congruence. }
  split.
  - split; [done|]. split; [lia|]. split; [|split].
    + intros w Hw. destruct (Hcases w Hw) as [[-> ?]|[_ [->| ->]]]; lia.
    + intros u v Hu Hv Huv Hin Hcu Hcv.
      destruct (Hcases u Hu) as [[Hu1 Hu2]|[Hu1 Hu2]],
               (Hcases v Hv) as [[Hv1 Hv2]|[Hv1 Hv2]].
      * rewrite Hu1, Hv1. apply Hproper; try done; lia.
      * destruct Hv2 as [Hv2|Hv2]; lia.
      * destruct Hu2 as [Hu2|Hu2]; lia.
      * destruct Hu2 as [Hu2|Hu2]; [|lia]. destruct Hv2 as [Hv2|Hv2]; [|lia].
        exfalso. by apply (Hindep u v Hu Hv Huv).
    + lia.
  - intros HNn. rewrite HN, <- Hlen in HNn.
    destruct (colored_count_missing x HNn) as (w & Hw & Hneg).
    apply (Hprog w); [lia|].
    destruct (Hrange w) as [?|?]; [lia|lia|done].
Qed.

Lemma vertex_coloring_mis_while_spec fuel K x N :
  coloring_inv K x N → n - N ≤ fuel →
  ∃ x' K', vertex_coloring_mis_while fuel n Ap Aj x N K = Some (x', K')
           ∧ (∀ w, w < n → (0 ≤ x' !!! w < K')%Z)
           ∧ proper_coloring x'.
Proof.
  revert K x N. induction fuel as [|fuel IH]; intros K x N Hinv Hfuel; simpl.
  - destruct (Nat.ltb_spec N n) as [Hlt|Hge]; [lia|].
    exists x, K. split; [done|].
    destruct Hinv as (Hlen & HK & Hrange & Hproper & HN). split; [|done].
    intros w Hw. pose proof (colored_count_full x) as Hfull.
    specialize (Hfull ltac:(lia) w ltac:(lia)).
    destruct (Hrange w Hw); lia.
  - destruct (Nat.ltb_spec N n) as [Hlt|Hge].
    + destruct (maximal_independent_set_serial _ _ _ _ _ _ _) as [x1 c] eqn:E.
      destruct (coloring_inv_round K x N x1 c Hinv E) as [Hinv1 Hprog].
      apply IH; [done|]. specialize (Hprog Hlt). lia.
    + exists x, K. split; [done|].
      destruct Hinv as (Hlen & HK & Hrange & Hproper & HN). split; [|done].
      intros w Hw. pose proof (colored_count_full x) as Hfull.
      specialize (Hfull ltac:(lia) w ltac:(lia)).
      destruct (Hrange w Hw); lia.
Qed.

Lemma vertex_coloring_mis_spec fuel x :
  length x = n → n ≤ fuel →
  ∃ x' K, vertex_coloring_mis fuel n Ap Aj x = Some (x', K)
          ∧ (∀ w, w < n → (0 ≤ x' !!! w < K)%Z)
          ∧ proper_coloring x'.
Proof.
  intros Hlen Hfuel. apply vertex_coloring_mis_while_spec; [|lia].
  assert (Hall : ∀ w, w < n → array_fill n (-1)%Z x !!! w = (-1)%Z).
  { intros w Hw. apply array_fill_lookup; lia. }
  split; [by rewrite array_fill_length|]. split; [lia|]. split; [|split].
  - intros w Hw. right. by apply Hall.
  - intros u v Hu _ _ _ Hcu. rewrite Hall in Hcu by done. lia.
  - symmetry. apply colored_count_none. intros w Hw.
    rewrite array_fill_length in Hw. rewrite Hall by lia. lia.
Qed.
End Coloring.

(** CSR arrays of the complete graph on four vertices. *)
Definition K4_Ap : list nat := [0; 3; 6; 9; 12].
Definition K4_Aj : list nat := [1; 2; 3; 0; 2; 3; 0; 1; 3; 0; 1; 2].

(** C6.  On a symmetric graph [vertex_coloring_mis] returns a value [K]
    with every colour [x[i]] in [[0, K)] and different colours at the two
    ends of every edge; on the complete graph K4 it returns 4 and the
    colours 0, 1, 2, 3. *)
Theorem vertex_coloring_mis_proper (n : nat) (Ap Aj : list nat) (x : list Z)
    (fuel : nat) :
  csr_symmetric n Ap Aj → length x = n → n ≤ fuel →
  (∃ x' K,
     vertex_coloring_mis fuel n Ap Aj x = Some (x', K)
     ∧ (∀ i, i < n → (0 ≤ x' !!! i < K)%Z)
     ∧ (∀ i j, i < n → j < n → i ≠ j → j ∈ row Ap Aj i →
               x' !!! i ≠ x' !!! j))
  ∧ (∀ x4 fuel4, length x4 = 4 → 4 ≤ fuel4 →
       vertex_coloring_mis fuel4 4 K4_Ap K4_Aj x4 = Some ([0; 1; 2; 3]%Z, 4%Z)).
Proof.
  intros Hsym Hlen Hfuel. split.
  - destruct (vertex_coloring_mis_spec n Ap Aj Hsym fuel x Hlen Hfuel)
      as (x' & K & Hrun & Hrange & Hproper).
    exists x', K. split; [done|]. split; [done|].
    intros i j Hi Hj Hij Hin. apply Hproper; try done.
    + specialize (Hrange i Hi). lia.
    + specialize (Hrange j Hj). lia.
  - intros x4 fuel4 Hlen4 Hfuel4.
    destruct x4 as [|a [|b [|c [|d [|e x4]]]]]; try discriminate.
    do 4 (destruct fuel4 as [|fuel4]; [lia|]).
    destruct fuel4; vm_compute; reflexivity.
Qed.

Lemma vertex_coloring_mis_proper_witness :
  ∃ x' K,
    vertex_coloring_mis 4 4 K4_Ap K4_Aj [7; 7; 7; 7]%Z = Some (x', K)
    ∧ (∀ i, i < 4 → (0 ≤ x' !!! i < K)%Z)
    ∧ (∀ i j, i < 4 → j < 4 → i ≠ j → j ∈ row K4_Ap K4_Aj i →
              x' !!! i ≠ x' !!! j).
Proof.
  apply (vertex_coloring_mis_proper 4 K4_Ap K4_Aj [7; 7; 7; 7]%Z 4).
  - apply csr_symmetricb_sound. vm_compute. reflexivity.
  - reflexivity.
  - lia.
Defined.

(** ** vertex_coloring_first_fit *)

Lemma find_false_le mask : find_false mask ≤ length mask.
Proof. induction mask as [|[] mask IH]; simpl; lia. Qed.

Lemma find_false_below mask c : c < find_false mask → mask !!! c = true.
Proof.
  revert c. induction mask as [|[] mask IH]; simpl; intros c Hc; try lia.
  destruct c as [|c]; [done|]. apply IH. lia.
Qed.

Lemma find_false_at mask :
  find_false mask < length mask → mask !!! find_false mask = false.
Proof.
  induction mask as [|[] mask IH]; simpl; intros H; [lia| |done].
  apply IH. lia.
Qed.

Lemma first_fit_mask_length x i js mask :
  length (first_fit_mask x i js mask) = length mask.
Proof.
  revert mask. induction js as [|j js IH]; intros mask; simpl; [done|].
  rewrite IH. destruct (i =? j); [done|].
  destruct (_ <? _)%Z; [done|]. apply length_insert.
Qed.

(** A colour is masked iff it was masked before or a coloured neighbour
    other than [i] holds it. *)
Lemma first_fit_mask_lookup x i js mask c :
  c < length mask →
  first_fit_mask x i js mask !!! c = true ↔
    mask !!! c = true
    ∨ ∃ j, j ∈ js ∧ j ≠ i ∧ (0 ≤ x !!! j)%Z ∧ Z.to_nat (x !!! j) = c.
Proof.
  revert mask. induction js as [|j js IH]; intros mask Hc; simpl.
  - split; [by left|]. intros [?|(j & Hj & _)]; [done|].
    by apply elem_of_nil in Hj.
  - destruct (Nat.eqb_spec i j) as [Hij|Hij].
    + rewrite IH by done. split; intros [?|(j' & Hj' & Hne & Hrest)]; auto.
      * right. exists j'. split; [by right|done].
      * apply elem_of_cons in Hj' as [->|Hj']; [congruence|].
        right. by exists j'.
    + destruct (Z.ltb_spec (x !!! j) 0) as [Hneg|Hpos].
      * rewrite IH by done. split; intros [?|(j' & Hj' & ?)]; auto.
        -- right. exists j'. split; [by right|done].
        -- apply elem_of_cons in Hj' as [->|Hj']; [lia|].
           right. by exists j'.
      * rewrite IH by (by rewrite length_insert).
        destruct (decide (Z.to_nat (x !!! j) = c)) as [Heq|Hne].
        -- split; [|intros _; left; rewrite <- Heq;
                     apply list_lookup_total_insert_eq; lia].
           intros _. right. exists j. split; [by left|]. auto.
        -- rewrite list_lookup_total_insert_ne by done.
           split; intros [?|(j' & Hj' & Hne' & Hpos' & Heq')]; auto.
           ++ right. exists j'. split; [by right|done].
           ++ apply elem_of_cons in Hj' as [->|Hj']; [congruence|].
              right. by exists j'.
Qed.

Lemma first_fit_mask_ext x1 x2 i js mask :
  (∀ j, j ∈ js → j ≠ i → x1 !!! j = x2 !!! j) →
  first_fit_mask x1 i js mask = first_fit_mask x2 i js mask.
Proof.
  revert mask. induction js as [|j js IH]; intros mask Hagree; simpl; [done|].
  destruct (Nat.eqb_spec i j) as [Hij|Hij].
  - apply IH. intros j' Hj'. apply Hagree. by right.
  - rewrite (Hagree j) by (by left || done).
    apply IH. intros j' Hj'. apply Hagree. by right.
Qed.

Lemma replicate_false_lookup K c :
  c < K → replicate K false !!! c = false.
Proof.
  revert c. induction K as [|K IH]; intros [|c] Hc; simpl; try done; try lia.
  apply IH. lia.
Qed.

Section FirstFit.
Variables (n : nat) (Ap Aj : list nat) (K : Z) (x : list Z).
Hypothesis Hlen : length x = n.
Hypothesis HK : (0 ≤ K)%Z.
Hypothesis Hcols : csr_cols_ok n Ap Aj.
Hypothesis Hrange : ∀ i, i < n → (x !!! i ≤ K)%Z.
Hypothesis Hindep :
  ∀ i j, i < n → j < n → i ≠ j → j ∈ row Ap Aj i →
    x !!! i = K → x !!! j ≠ K.

(** What first-fit gives vertex [i]: the least colour in [[0, K]] that no
    coloured neighbour holds. *)
Definition first_fit_color (i : nat) (c : Z) : Prop :=
  (0 ≤ c ≤ K)%Z
  ∧ (∀ j, j ∈ row Ap Aj i → j ≠ i → x !!! j ≠ c)
  ∧ (∀ c', (0 ≤ c' < c)%Z → ∃ j, j ∈ row Ap Aj i ∧ j ≠ i ∧ x !!! j = c').

Lemma first_fit_mask_color i :
  i < n → x !!! i = K →
  first_fit_color i
    (Z.of_nat (find_false (first_fit_mask x i (row Ap Aj i)
                             (replicate (Z.to_nat K) false)))).
Proof.
  intros Hi HiK.
  set (mask := first_fit_mask x i (row Ap Aj i) (replicate (Z.to_nat K) false)).
  assert (Hmlen : length mask = Z.to_nat K).
  { unfold mask. by rewrite first_fit_mask_length, length_replicate. }
  assert (Hmask : ∀ c, c < Z.to_nat K →
    mask !!! c = true ↔
      ∃ j, j ∈ row Ap Aj i ∧ j ≠ i ∧ (0 ≤ x !!! j)%Z ∧ Z.to_nat (x !!! j) = c).
  { intros c Hc. unfold mask. rewrite first_fit_mask_lookup
      by (by rewrite length_replicate).
    rewrite replicate_false_lookup by done.
    split; [intros [?|?]; [done|done]|intros ?; by right]. }
  pose proof (find_false_le mask) as Hle.
  split; [lia|]. split.
  - intros j Hj Hji Hxj.
    assert (Hjn : j < n) by by apply (Hcols i).
    destruct (decide (find_false mask < length mask)) as [Hlt|Hge].
    + pose proof (find_false_at mask Hlt) as Hfalse.
      assert (mask !!! find_false mask = true); [|congruence].
      apply Hmask; [lia|]. exists j. repeat split; try done; lia.
    + apply (Hindep i j); try done. lia.
  - intros c' Hc'.
    assert (Htrue : mask !!! Z.to_nat c' = true)
      by (apply find_false_below; lia).
    apply Hmask in Htrue as (j & Hj & Hji & Hpos & Heq); [|lia].
    exists j. repeat split; try done. lia.
Qed.

(** The state after the first [m] vertices were visited. *)
Definition first_fit_inv (m : nat) (x' : list Z) : Prop :=
  length x' = n
  ∧ ∀ i, i < n →
      if decide (i < m ∧ x !!! i = K) then first_fit_color i (x' !!! i)
      else x' !!! i = x !!! i.

Lemma first_fit_inv_step m x' :
  m < n → first_fit_inv m x' →
  first_fit_inv (S m) (first_fit_step Ap Aj K x' m).
Proof.
  intros Hm [Hlen' Hcells].
  assert (Hm' : x' !!! m = x !!! m).
  { specialize (Hcells m Hm). rewrite decide_False in Hcells by lia. done. }
  unfold first_fit_step. rewrite Hm'.
  destruct (Z.eqb_spec (x !!! m) K) as [HmK|HmK]; simpl.
  - split; [by rewrite length_insert|].
    intros i Hi. destruct (decide (i = m)) as [->|Him].
    + rewrite decide_True by (split; [lia|done]).
      rewrite list_lookup_total_insert_eq by lia.
      rewrite (first_fit_mask_ext x' x); [by apply first_fit_mask_color|].
      intros j Hj Hjm.
      assert (Hjn : j < n) by by apply (Hcols m).
      specialize (Hcells j Hjn). rewrite decide_False in Hcells; [done|].
      intros [_ HjK]. by apply (Hindep m j).
    + rewrite list_lookup_total_insert_ne by done.
      specialize (Hcells i Hi).
      destruct (decide (i < m ∧ x !!! i = K)) as [[? ?]|Hno].
      * rewrite decide_True by (split; [lia|done]). done.
      * rewrite decide_False; [done|]. intros [? ?]. apply Hno. split; [lia|done].
  - split; [done|]. intros i Hi. specialize (Hcells i Hi).
    destruct (decide (i < m ∧ x !!! i = K)) as [[? ?]|Hno].
    + rewrite decide_True by (split; [lia|done]). done.
    + rewrite decide_False; [done|]. intros [? ?].
      apply Hno. split; [|done].
      destruct (decide (i = m)) as [->|?]; [done|lia].
Qed.

Lemma first_fit_inv_loop m :
  m ≤ n → first_fit_inv m (fold_left (first_fit_step Ap Aj K) (seq 0 m) x).
Proof.
  induction m as [|m IH]; intros Hm.
  - split; [done|]. intros i Hi. rewrite decide_False by lia. done.
  - rewrite fold_left_seq_S. apply first_fit_inv_step; [lia|]. apply IH. lia.
Qed.

Lemma first_fit_spec :
  length (vertex_coloring_first_fit n Ap Aj x K) = n
  ∧ ∀ i, i < n →
      (x !!! i = K →
         first_fit_color i (vertex_coloring_first_fit n Ap Aj x K !!! i))
      ∧ (x !!! i ≠ K →
           vertex_coloring_first_fit n Ap Aj x K !!! i = x !!! i).
Proof.
  destruct (first_fit_inv_loop n (le_n n)) as [Hlen' Hcells].
  split; [done|]. intros i Hi. specialize (Hcells i Hi).
  unfold vertex_coloring_first_fit. split; intros HiK.
  - rewrite decide_True in Hcells by done. done.
  - rewrite decide_False in Hcells; [done|]. by intros [_ ?].
Qed.
End FirstFit.

(** C7.  Let every entry of [x] be at most [K] (a negative sentinel or a
    colour) and let no two adjacent vertices both hold [K].  Then
    [vertex_coloring_first_fit] gives every vertex that held [K] the least
    colour in [[0, K]] that none of its coloured neighbours holds, leaves
    all other entries as they were, and so raises no entry: every bound on
    the entries of [x] still bounds them after the call. *)
Theorem first_fit_never_increases (n : nat) (Ap Aj : list nat) (K : Z)
    (x : list Z) :
  length x = n → (0 ≤ K)%Z → csr_cols_ok n Ap Aj →
  (∀ i, i < n → (x !!! i ≤ K)%Z) →
  (∀ i j, i < n → j < n → i ≠ j → j ∈ row Ap Aj i →
     x !!! i = K → x !!! j ≠ K) →
  let x' := vertex_coloring_first_fit n Ap Aj x K in
  length x' = n
  ∧ (∀ i, i < n → x !!! i = K → first_fit_color Ap Aj K x i (x' !!! i))
  ∧ (∀ i, i < n → x !!! i ≠ K → x' !!! i = x !!! i)
  ∧ (∀ i, i < n → (x' !!! i ≤ x !!! i)%Z)
  ∧ (∀ M, (∀ i, i < n → (x !!! i ≤ M)%Z) → ∀ i, i < n → (x' !!! i ≤ M)%Z).
Proof.
  intros Hlen HK Hcols Hrange Hindep x'.
  destruct (first_fit_spec n Ap Aj K x Hlen HK Hcols Hindep) as [Hlen' Hcells].
  assert (Hle : ∀ i, i < n → (x' !!! i ≤ x !!! i)%Z).
  { intros i Hi. destruct (Hcells i Hi) as [HK1 HK2].
    destruct (decide (x !!! i = K)) as [HiK|HiK].
    - destruct (HK1 HiK) as [? _]. fold x' in H. lia.
    - fold x' in HK2. rewrite HK2 by done. lia. }
  split; [done|]. split; [|split; [|split; [done|]]].
  - intros i Hi. by apply Hcells.
  - intros i Hi. by apply Hcells.
  - intros M HM i Hi. specialize (Hle i Hi). specialize (HM i Hi). lia.
Qed.

Lemma first_fit_never_increases_witness :
  vertex_coloring_first_fit 3 path3_Ap path3_Aj [2; 0; 2]%Z 2 = [1; 0; 1]%Z
  ∧ ∀ i, i < 3 →
      (vertex_coloring_first_fit 3 path3_Ap path3_Aj [2; 0; 2]%Z 2 !!! i
       ≤ [2; 0; 2]%Z !!! i)%Z.
Proof.
  split; [reflexivity|].
  apply (first_fit_never_increases 3 path3_Ap path3_Aj 2 [2; 0; 2]%Z).
  - reflexivity.
  - lia.
  - apply csr_cols_okb_sound. vm_compute. reflexivity.
  - apply (bool_decide_unpack _). vm_compute. exact I.
  - intros i j Hi Hj. revert j Hj. revert i Hi.
    apply (bool_decide_unpack _). vm_compute. exact I.
Defined.

(** ** bellman_ford *)

Lemma bellman_ford_row_le T_add Aj Ax d cm js xi nci :
  ((fold_left (bellman_ford_row T_add Aj Ax d cm) js (xi, nci)).1 <= xi)%Q.
Proof.
  revert xi nci. induction js as [|jj js IH]; intros xi nci; simpl.
  - apply Qle_refl.
  - destruct (Qltb _ xi) eqn:Hlt.
    + eapply Qle_trans; [apply IH|]. by apply Qlt_le_weak, Qltb_lt.
    + apply IH.
Qed.

Lemma bellman_ford_step_le T_add Ap Aj Ax d cm k i :
  ((bellman_ford_step T_add Ap Aj Ax (d, cm) k).1 !!! i <= d !!! i)%Q.
Proof.
  unfold bellman_ford_step.
  pose proof (bellman_ford_row_le T_add Aj Ax d cm (row_slots Ap k) (d !!! k) (cm !!! k))
    as Hrow.
  destruct (fold_left _ (row_slots Ap k) _) as [xi nci]. simpl in *.
  destruct (decide (i = k)) as [->|Hne].
  - destruct (decide (k < length d)) as [Hlt|Hge].
    + by rewrite list_lookup_total_insert_eq.
    + rewrite list_insert_ge by lia. apply Qle_refl.
  - rewrite list_lookup_total_insert_ne by done. apply Qle_refl.
Qed.

Lemma bellman_ford_fold_le T_add Ap Aj Ax l d cm i :
  ((fold_left (bellman_ford_step T_add Ap Aj Ax) l (d, cm)).1 !!! i <= d !!! i)%Q.
Proof.
  revert d cm. induction l as [|k l IH]; intros d cm; cbn [fold_left].
  - apply Qle_refl.
  - pose proof (bellman_ford_step_le T_add Ap Aj Ax d cm k i) as Hstep.
    destruct (bellman_ford_step T_add Ap Aj Ax (d, cm) k) as [d1 cm1].
    eapply Qle_trans; [apply IH|done].
Qed.

(** C10.  A call to [bellman_ford] raises no distance: every [d[i]] after
    the call is at most its value before, whatever the sum of the type [T]
    yields. *)
Theorem bellman_ford_never_increases (T_add : Q → Q → Q)
    (num_nodes : nat) (Ap Aj : list nat) (Ax d : list Q) (cm : list Z)
    (i : nat) :
  ((bellman_ford T_add num_nodes Ap Aj Ax d cm).1 !!! i <= d !!! i)%Q.
Proof. apply bellman_ford_fold_le. Qed.

Example bellman_ford_path3 :
  bellman_ford Qplus 3 path3_Ap path3_Aj [1; 1; 1; 1]%Q [0; 9; 9]%Q [0; -1; -1]%Z
  = ([0; 1; 2]%Q, [0; 0; 0]%Z).
Proof. reflexivity. Qed.

(** ** std::sort with the comparator of cluster_node_incidence *)

Section Sort.
Context {A : Type} (comp : A → A → bool).

Lemma sort_insert_perm a l : Permutation (sort_insert comp a l) (a :: l).
Proof.
  induction l as [|b l IH]; simpl; [done|].
  destruct (comp a b); [done|].
  rewrite IH. apply perm_swap.
Qed.

Lemma std_sort_perm l : Permutation (std_sort comp l) l.
Proof.
  induction l as [|a l IH]; simpl; [done|].
  rewrite sort_insert_perm. by constructor.
Qed.

(** [a] is not placed after [b]. *)
Definition not_after (a b : A) : Prop := comp b a = false.

Hypothesis comp_asym : ∀ a b, comp a b = true → comp b a = false.
Hypothesis not_after_trans :
  ∀ a b c, not_after a b → not_after b c → not_after a c.

Lemma sort_insert_sorted a l :
  StronglySorted not_after l → StronglySorted not_after (sort_insert comp a l).
Proof.
  induction l as [|b l IH]; simpl; intros Hs.
  - repeat constructor.
  - apply StronglySorted_inv in Hs as [Hs Hb].
    destruct (comp a b) eqn:Hab.
    + constructor; [by constructor|].
      assert (Hnab : not_after a b) by by apply comp_asym.
      constructor; [done|].
      eapply Forall_impl; [exact Hb|]. intros c Hc. simpl in Hc.
      by apply (not_after_trans a b c).
    + constructor; [by apply IH|].
      rewrite sort_insert_perm. by constructor.
Qed.

Lemma std_sort_sorted l : StronglySorted not_after (std_sort comp l).
Proof.
  induction l as [|a l IH]; simpl; [constructor|].
  by apply sort_insert_sorted.
Qed.
End Sort.

Lemma StronglySorted_lookup {A} `{!Inhabited A} (R : A → A → Prop) l p q :
  StronglySorted R l → p < q → q < length l → R (l !!! p) (l !!! q).
Proof.
  intros Hs. revert p q. induction Hs as [|a l Hs IH Ha]; intros p q Hpq Hq.
  - simpl in Hq. lia.
  - destruct q as [|q]; [lia|]. simpl in Hq. destruct p as [|p].
    + rewrite Forall_forall in Ha.
      change (R a (l !!! q)). apply Ha.
      apply list_elem_of_lookup_total_2. lia.
    + change (R (l !!! p) (l !!! q)). apply IH; lia.
Qed.

(** Descending by cluster label, ties descending by node index. *)
Definition cm_desc (cm : list Z) (i j : nat) : Prop :=
  (cm !!! i > cm !!! j)%Z ∨ (cm !!! i = cm !!! j ∧ i > j).

Lemma cm_before_desc cm i j : cm_before cm i j = true ↔ cm_desc cm i j.
Proof.
  unfold cm_before, cm_desc.
  rewrite orb_true_iff, andb_true_iff, Z.gtb_gt, Z.eqb_eq, Nat.ltb_lt.
  done.
Qed.

Lemma cm_before_false cm i j :
  cm_before cm i j = false ↔ ¬ cm_desc cm i j.
Proof. rewrite <- cm_before_desc. by destruct (cm_before cm i j). Qed.

Lemma cm_before_asym cm i j :
  cm_before cm i j = true → cm_before cm j i = false.
Proof.
  rewrite cm_before_desc, cm_before_false. unfold cm_desc. lia.
Qed.

Lemma cm_not_after_trans cm i j k :
  not_after (cm_before cm) i j → not_after (cm_before cm) j k →
  not_after (cm_before cm) i k.
Proof.
  unfold not_after. rewrite !cm_before_false. unfold cm_desc. lia.
Qed.

Lemma cm_not_after_desc cm i j :
  not_after (cm_before cm) i j → i ≠ j → cm_desc cm i j.
Proof.
  unfold not_after. rewrite cm_before_false. unfold cm_desc. lia.
Qed.

(** The first loop of cluster_node_incidence writes the identity. *)
Lemma cni_iota n (ICi : list nat) :
  length ICi = n →
  fold_left (λ ICi i, <[i:=i]> ICi) (seq 0 n) ICi = seq 0 n.
Proof.
  intros Hlen.
  assert (H : ∀ m, m ≤ n →
    let r := fold_left (λ ICi i, <[i:=i]> ICi) (seq 0 m) ICi in
    length r = n ∧ ∀ w, w < m → r !! w = Some w).
  { induction m as [|m IH]; intros Hm; cbv zeta.
    - split; [done|]. lia.
    - rewrite fold_left_seq_S. cbv zeta in IH. destruct IH as [IH1 IH2]; [lia|].
      split; [by rewrite length_insert|]. intros w Hw. simpl.
      destruct (decide (w = m)) as [->|Hne].
      + apply list_lookup_insert_eq. lia.
      + rewrite list_lookup_insert_ne by done. apply IH2. lia. }
  destruct (H n (le_n n)) as [H1 H2].
  apply (list_eq_same_length _ _ n); [by rewrite length_seq|done|].
  intros i a b Hi Ha Hb. rewrite H2 in Ha by done.
  apply lookup_seq in Hb as [-> _]. by injection Ha.
Qed.

Lemma cni_ICi_sorted n cm ICi0 :
  length ICi0 = n →
  Permutation (cni_ICi n cm ICi0) (seq 0 n)
  ∧ ∀ p q, p < q < n →
      cm_desc cm (cni_ICi n cm ICi0 !!! p) (cni_ICi n cm ICi0 !!! q).
Proof.
  intros Hlen. unfold cni_ICi. rewrite (cni_iota n ICi0 Hlen).
  pose proof (std_sort_perm (cm_before cm) (seq 0 n)) as Hperm.
  split; [done|]. intros p q Hpq.
  assert (Hlen' : length (std_sort (cm_before cm) (seq 0 n)) = n).
  { by rewrite Hperm, length_seq. }
  apply cm_not_after_desc.
  - apply StronglySorted_lookup; [|lia|lia].
    apply std_sort_sorted; [apply cm_before_asym|apply cm_not_after_trans].
  - assert (Hnodup : NoDup (std_sort (cm_before cm) (seq 0 n))).
    { rewrite Hperm. apply NoDup_seq. }
    intros Heq.
    assert (p = q); [|lia].
    eapply NoDup_lookup; [exact Hnodup| |].
    + apply list_lookup_lookup_total_lt. lia.
    + rewrite Heq. apply list_lookup_lookup_total_lt. lia.
Qed.

(** Whatever algorithm [std::sort] runs, this is the array it leaves: there
    is only one descending arrangement of the node indices. *)
Lemma cni_ICi_unique n cm ICi0 (l : list nat) :
  length ICi0 = n → l ≡ₚ seq 0 n → StronglySorted (cm_desc cm) l →
  l = cni_ICi n cm ICi0.
Proof.
  intros Hlen Hperm Hsorted.
  assert (Hanti : AntiSymm (=) (cm_desc cm)).
  { intros i j. unfold cm_desc. lia. }
  apply (StronglySorted_unique (cm_desc cm)); [done| |].
  - unfold cni_ICi. rewrite (cni_iota n ICi0 Hlen).
    assert (Hnodup : NoDup (std_sort (cm_before cm) (seq 0 n))).
    { rewrite std_sort_perm. apply NoDup_seq. }
    pose proof (std_sort_sorted (cm_before cm) (cm_before_asym cm)
                  (cm_not_after_trans cm) (seq 0 n)) as Hs.
    induction Hs as [|a l' Hs IH Ha]; [constructor|].
    apply NoDup_cons in Hnodup as [Hnotin Hnodup].
    constructor; [by apply IH|].
    rewrite Forall_forall in Ha |- *. intros b Hb.
    apply cm_not_after_desc; [by apply Ha|]. by intros ->.
  - rewrite Hperm. destruct (cni_ICi_sorted n cm ICi0 Hlen) as [Hp _].
    by rewrite Hp.
Qed.

Lemma cluster_node_incidence_ICi ndebug n k cm ICp0 ICi0 L0 ICp ICi L :
  cluster_node_incidence ndebug n k cm ICp0 ICi0 L0 = Returns (ICp, ICi, L) →
  ICi = cni_ICi n cm ICi0.
Proof.
  unfold cluster_node_incidence.
  destruct (cni_ICp _ _ _ _ _ _) as [ICp1| |]; simpl; try done.
  destruct (cni_L _ _ _ _ _) as [L1| |]; simpl; try done.
  destruct (cni_check_global _ _ _ _ _ _ _) as [[]| |]; simpl; try done.
  destruct (cni_check_local _ _ _ _ _ _ _) as [[]| |]; simpl; try done.
  by intros [= _ <- _].
Qed.

(** Compiled without assertions the call always returns. *)
Definition returns {A : Type} (m : outcome A) : Prop := ∃ a, m = Returns a.

Lemma fold_left_returns {A B : Type} (f : outcome A → B → outcome A) l st :
  (∀ st i, returns st → returns (f st i)) →
  returns st → returns (fold_left f l st).
Proof.
  intros Hf. revert st. induction l as [|i l IH]; intros st Hst; simpl; [done|].
  by apply IH, Hf.
Qed.

Lemma cluster_node_incidence_ndebug_returns n k cm ICp0 ICi0 L0 :
  returns (cluster_node_incidence true n k cm ICp0 ICi0 L0).
Proof.
  unfold cluster_node_incidence.
  assert (HICp : returns (cni_ICp true n k cm (cni_ICi n cm ICi0) ICp0)).
  { unfold cni_ICp.
    destruct (fold_left_returns (cni_ICp_step true k cm (cni_ICi n cm ICi0))
                (seq 0 n) (Returns (<[0:=0]> ICp0, 0))) as [[ICp a] ->].
    - intros st i [[ICp a] ->]. unfold cni_ICp_step. simpl.
      destruct (negb _); by eexists.
    - by eexists.
    - by eexists. }
  destruct HICp as [ICp ->]. simpl.
  assert (HL : returns (cni_L true n k ICp L0)).
  { unfold cni_L.
    destruct (fold_left_returns (cni_L_outer true n ICp) (seq 0 k)
                (Returns (L0, 0))) as [[L i] ->].
    - intros st a Hst. unfold cni_L_outer.
      apply fold_left_returns; [|done].
      intros st' m [[L i] ->]. by eexists.
    - by eexists.
    - by eexists. }
  destruct HL as [L ->]. simpl.
  assert (Hg : returns (cni_check_global true n k cm ICp (cni_ICi n cm ICi0) L)).
  { unfold cni_check_global. apply fold_left_returns; [|by eexists].
    intros st i [[] ->]. by eexists. }
  destruct Hg as [[] ->]. simpl.
  assert (Hl : returns (cni_check_local true n k cm ICp (cni_ICi n cm ICi0) L)).
  { unfold cni_check_local. apply fold_left_returns; [|by eexists].
    intros st a Hst. apply fold_left_returns; [|done].
    intros st' m [[] ->]. by eexists. }
  destruct Hl as [[] ->]. simpl. by eexists.
Qed.

(** C3.  When [cluster_node_incidence] returns, [ICi] is a permutation of
    the node indices [0 .. n-1] in descending order of cluster label, nodes
    with equal labels in descending order of index. *)
Theorem cluster_node_incidence_ICi_descending (ndebug : bool) (n k : nat)
    (cm : list Z) (ICp0 ICi0 L0 ICp ICi L : list nat) :
  length ICi0 = n →
  cluster_node_incidence ndebug n k cm ICp0 ICi0 L0 = Returns (ICp, ICi, L) →
  Permutation ICi (seq 0 n)
  ∧ ∀ p q, p < q < n → cm_desc cm (ICi !!! p) (ICi !!! q).
Proof.
  intros Hlen Hrun. apply cluster_node_incidence_ICi in Hrun as ->.
  by apply cni_ICi_sorted.
Qed.

Lemma cluster_node_incidence_ICi_descending_witness :
  cluster_node_incidence true 3 1 [0; 0; 0]%Z [9; 9] [9; 9; 9] [9; 9; 9]
    = Returns ([0; 3], [2; 1; 0], [0; 1; 2])
  ∧ Permutation [2; 1; 0] (seq 0 3)
  ∧ ∀ p q, p < q < 3 →
      cm_desc [0; 0; 0]%Z ([2; 1; 0] !!! p) ([2; 1; 0] !!! q).
Proof.
  split; [reflexivity|].
  apply (cluster_node_incidence_ICi_descending true 3 1 [0; 0; 0]%Z
           [9; 9] [9; 9; 9] [9; 9; 9] [0; 3] [2; 1; 0] [0; 1; 2]);
    reflexivity.
Defined.

(** ** cluster_node_incidence: the local/global maps *)

(** The two maps are inverse to each other: global to local and back, and
    local to global and back. *)
Definition incidence_inverse (n k : nat) (cm : list Z) (ICp ICi L : list nat)
    : Prop :=
  (∀ i, i < n → ICi !!! (ICp !!! Z.to_nat (cm !!! i) + L !!! i) = i)
  ∧ (∀ a m, a < k → m < ICp !!! S a - ICp !!! a →
       cm !!! (ICi !!! (ICp !!! a + m)) = Z.of_nat a).

(** C2 fails on the code.  Two nodes in one cluster: without assertions the
    call returns [ICp = [0; 2]], [ICi = [1; 0]], [L = [0; 1]], so that
    [ICi[ICp[cm[0]] + L[0]]] is 1 and not 0; with assertions the call stops
    at its own check [assert(i == ICi[ICp[a] + m])].  Three nodes in three
    clusters, [cm = [2; 1; 0]]: the arrays returned send the local index
    [(1, 0)] to node 0, which is in cluster 2. *)
Theorem cluster_node_incidence_not_inverse :
  cluster_node_incidence true 2 1 [0; 0]%Z [9; 9] [9; 9] [9; 9]
    = Returns ([0; 2], [1; 0], [0; 1])
  ∧ ¬ incidence_inverse 2 1 [0; 0]%Z [0; 2] [1; 0] [0; 1]
  ∧ cluster_node_incidence false 2 1 [0; 0]%Z [9; 9] [9; 9] [9; 9]
    = AssertionFailed
  ∧ cluster_node_incidence true 3 3 [2; 1; 0]%Z [9; 9; 9; 9] [9; 9; 9] [9; 9; 9]
    = Returns ([0; 0; 2; 3], [0; 1; 2], [0; 1; 0])
  ∧ [2; 1; 0]%Z !!! ([0; 1; 2] !!! ([0; 0; 2; 3] !!! 1 + 0)) = 2%Z
  ∧ cluster_node_incidence false 3 3 [2; 1; 0]%Z [9; 9; 9; 9] [9; 9; 9] [9; 9; 9]
    = AssertionFailed.
Proof.
  split; [reflexivity|]. split.
  - intros [Hglobal _]. specialize (Hglobal 0 ltac:(lia)). discriminate Hglobal.
  - repeat split; reflexivity.
Qed.

(** ** bellman_ford_balanced: the do-while loop *)

(** Unit weights on the path 0-1-2, seeds at both ends: the input that
    [lloyd_cluster_exact] builds, with 1000 standing for the largest value.
    The sums the code forms on it are whole numbers up to 1001, which every
    arithmetic type adds exactly: the runs below take [Qplus] for [T_add]. *)
Definition bfb_path3_Ax : list Q := [1; 1; 1; 1]%Q.
Definition bfb_path3_d : list Q := [0; 1000; 0]%Q.
Definition bfb_path3_cm : list Z := [0; -1; 1]%Z.

(** The state after the first sweep, and after every later one. *)
Definition bfb_path3_cycle : bfb_state :=
  BfbState [0; 1; 0]%Q [0; 1; 1]%Z [-1; 2; -1]%Z [0; 0; 1]%Z [1; 2]%Z true.

Lemma bfb_path3_first_sweep ndebug :
  bfb_sweep Qplus ndebug 3 path3_Ap path3_Aj bfb_path3_Ax
    (BfbState bfb_path3_d bfb_path3_cm [-1; -1; -1]%Z [0; 0; 0]%Z [1; 1]%Z false)
  = Returns bfb_path3_cycle.
Proof. destruct ndebug; reflexivity. Qed.

(** Node 1 moves to cluster 0 and back to cluster 1 in every sweep. *)
Lemma bfb_path3_sweep_again ndebug :
  bfb_sweep Qplus ndebug 3 path3_Ap path3_Aj bfb_path3_Ax bfb_path3_cycle
  = Returns bfb_path3_cycle.
Proof. destruct ndebug; reflexivity. Qed.

Lemma bfb_path3_spins fuel iteration :
  bfb_do_while Qplus fuel true 3 path3_Ap path3_Aj bfb_path3_Ax iteration
    bfb_path3_cycle = OutOfFuel.
Proof.
  revert iteration. induction fuel as [|fuel IH]; intros iteration; [done|].
  cbn [bfb_do_while]. rewrite bfb_path3_sweep_again. apply IH.
Qed.

Lemma bfb_path3_hits_cap fuel iteration :
  27 ≤ iteration + fuel → 0 < fuel →
  bfb_do_while Qplus fuel false 3 path3_Ap path3_Aj bfb_path3_Ax iteration
    bfb_path3_cycle = AssertionFailed.
Proof.
  revert iteration. induction fuel as [|fuel IH]; intros iteration H1 H2; [lia|].
  cbn [bfb_do_while]. rewrite bfb_path3_sweep_again.
  change (3 * 3 * 3) with 27.
  destruct (Nat.ltb_spec (S iteration) 27) as [Hlt|Hge]; [|done].
  cbn. apply IH; lia.
Qed.

(** The same on the path 0-1-2-3-4 with seeds 0 and 4: from the second
    sweep on, the middle node changes cluster twice in every sweep. *)
Definition bfb_path5_Ax : list Q := [1; 1; 1; 1; 1; 1; 1; 1]%Q.
Definition bfb_path5_d : list Q := [0; 1000; 1000; 1000; 0]%Q.
Definition bfb_path5_cm : list Z := [0; -1; -1; -1; 1]%Z.

Definition bfb_path5_first : bfb_state :=
  BfbState [0; 1; 2; 1; 0]%Q [0; 0; 0; 1; 1]%Z [-1; 0; 1; 4; -1]%Z
    [1; 1; 0; 0; 1]%Z [3; 2]%Z true.

Definition bfb_path5_cycle : bfb_state :=
  BfbState [0; 1; 2; 1; 0]%Q [0; 0; 1; 1; 1]%Z [-1; 0; 3; 4; -1]%Z
    [1; 0; 0; 1; 1]%Z [2; 3]%Z true.

Lemma bfb_path5_sweeps :
  bfb_sweep Qplus true 5 path5_Ap path5_Aj bfb_path5_Ax
    (BfbState bfb_path5_d bfb_path5_cm [-1; -1; -1; -1; -1]%Z
       [0; 0; 0; 0; 0]%Z [1; 1]%Z false)
  = Returns bfb_path5_first
  ∧ bfb_sweep Qplus true 5 path5_Ap path5_Aj bfb_path5_Ax bfb_path5_first
    = Returns bfb_path5_cycle
  ∧ bfb_sweep Qplus true 5 path5_Ap path5_Aj bfb_path5_Ax bfb_path5_cycle
    = Returns bfb_path5_cycle.
Proof. repeat split; reflexivity. Qed.

Lemma bfb_path5_spins fuel iteration :
  bfb_do_while Qplus fuel true 5 path5_Ap path5_Aj bfb_path5_Ax iteration
    bfb_path5_cycle = OutOfFuel.
Proof.
  revert iteration. induction fuel as [|fuel IH]; intros iteration; [done|].
  cbn [bfb_do_while]. rewrite (proj2 (proj2 bfb_path5_sweeps)). apply IH.
Qed.

(** C8 fails on the code.  On the path 0-1-2 with unit weights and seeds 0
    and 2 no sweep of [bellman_ford_balanced] is ever without a change:
    without assertions the loop does not end, whatever the fuel, and with
    assertions the call stops at the safety check after 27 sweeps.  The
    path 0-1-2-3-4 with seeds 0 and 4 behaves alike.  On a single node the
    loop ends after one sweep, and the safety check [1 < 1*1*1] of that
    sweep fails. *)
Theorem bellman_ford_balanced_no_quiescent_sweep :
  (∀ fuel,
     bellman_ford_balanced Qplus fuel true 3 2 path3_Ap path3_Aj bfb_path3_Ax
       bfb_path3_d bfb_path3_cm [0; 2] = OutOfFuel)
  ∧ (∀ fuel, 27 ≤ fuel →
       bellman_ford_balanced Qplus fuel false 3 2 path3_Ap path3_Aj bfb_path3_Ax
         bfb_path3_d bfb_path3_cm [0; 2] = AssertionFailed)
  ∧ (∀ fuel,
       bellman_ford_balanced Qplus fuel true 5 2 path5_Ap path5_Aj bfb_path5_Ax
         bfb_path5_d bfb_path5_cm [0; 4] = OutOfFuel)
  ∧ (∀ fuel, 0 < fuel →
       bellman_ford_balanced Qplus fuel true 1 1 [0; 0] [] [] [0]%Q [0]%Z [0]
         = Returns ([0]%Q, [0]%Z)
       ∧ bellman_ford_balanced Qplus fuel false 1 1 [0; 0] [] [] [0]%Q [0]%Z [0]
         = AssertionFailed).
Proof.
  split; [|split; [|split]].
  - intros [|fuel]; [done|].
    unfold bellman_ford_balanced. cbn [assert orb mbind outcome_bind].
    change (bfb_cluster_sizes 3 2 bfb_path3_cm) with [1; 1]%Z.
    cbn [bfb_do_while replicate]. rewrite bfb_path3_first_sweep.
    cbn. by rewrite bfb_path3_spins.
  - intros [|fuel] Hfuel; [lia|].
    unfold bellman_ford_balanced.
    change (bfb_cluster_sizes 3 2 bfb_path3_cm) with [1; 1]%Z.
    cbn [assert orb mbind outcome_bind length bfb_path3_d bfb_path3_cm Nat.eqb].
    cbn [bfb_do_while replicate]. rewrite bfb_path3_first_sweep.
    cbn. rewrite bfb_path3_hits_cap; [done|lia|lia].
  - intros [|[|fuel]]; [done|done|].
    unfold bellman_ford_balanced. cbn [assert orb mbind outcome_bind].
    change (bfb_cluster_sizes 5 2 bfb_path5_cm) with [1; 1]%Z.
    cbn [bfb_do_while replicate].
    rewrite (proj1 bfb_path5_sweeps). cbn [assert orb mbind outcome_bind].
    cbn [bfb_change bfb_path5_first].
    rewrite (proj1 (proj2 bfb_path5_sweeps)). cbn [mbind outcome_bind].
    cbn [bfb_change bfb_path5_cycle]. by rewrite bfb_path5_spins.
  - intros [|fuel] Hfuel; [lia|]. split; reflexivity.
Qed.

(** ** breadth_first_search *)

Lemma NoDup_bounded_length (l : list nat) (n : nat) :
  NoDup l → (∀ v, v ∈ l → v < n) → length l ≤ n.
Proof.
  intros Hnd Hb. transitivity (length (seq 0 n)); [|by rewrite length_seq].
  apply submseteq_length, NoDup_submseteq; [done|].
  intros v Hv. apply elem_of_seq. specialize (Hb v Hv). lia.
Qed.

Section Bfs.
Variables (n : nat) (Ap Aj : list nat).
Hypothesis Hcols : csr_cols_ok n Ap Aj.

(** The vertices written to [order] so far. *)
Definition bfs_visited (s : bfs_state) : list nat :=
  take (bfs_N s) (bfs_order s).

(** The marked vertices are those in [order[0 .. N)], each once. *)
Record bfs_wf (s : bfs_state) : Prop := BfsWf {
  wf_order_len : length (bfs_order s) = n;
  wf_level_len : length (bfs_level s) = n;
  wf_N : bfs_N s ≤ n;
  wf_nodup : NoDup (bfs_visited s);
  wf_bound : ∀ v, v ∈ bfs_visited s → v < n;
  wf_marked : ∀ v, v < n → bfs_level s !!! v ≠ (-1)%Z ↔ v ∈ bfs_visited s
}.

(** What a run of visits with level [cl] may change from [s] to [s']. *)
Record bfs_ext (cl : Z) (s s' : bfs_state) : Prop := BfsExt {
  ext_N : bfs_N s ≤ bfs_N s';
  ext_prefix : take (bfs_N s) (bfs_order s') = take (bfs_N s) (bfs_order s);
  ext_suffix : drop (bfs_N s') (bfs_order s') = drop (bfs_N s') (bfs_order s);
  ext_old : ∀ v, v < n → bfs_level s !!! v ≠ (-1)%Z →
              bfs_level s' !!! v = bfs_level s !!! v;
  ext_new : ∀ v, v < n → bfs_level s !!! v = (-1)%Z →
              bfs_level s' !!! v = (-1)%Z ∨ bfs_level s' !!! v = cl
}.

Lemma bfs_ext_refl cl s : bfs_ext cl s s.
Proof. split; auto. Qed.

Lemma drop_eq_mono {A} (l1 l2 : list A) a b :
  a ≤ b → drop a l1 = drop a l2 → drop b l1 = drop b l2.
Proof.
  intros Hab Heq. replace b with (a + (b - a)) by lia.
  by rewrite <- !drop_drop, Heq.
Qed.

Lemma take_eq_mono {A} (l1 l2 : list A) a b :
  a ≤ b → take b l1 = take b l2 → take a l1 = take a l2.
Proof.
  intros Hab Heq. replace a with (min a b) by lia.
  by rewrite <- !take_take, Heq.
Qed.

Lemma bfs_ext_trans cl s1 s2 s3 :
  cl ≠ (-1)%Z → bfs_ext cl s1 s2 → bfs_ext cl s2 s3 → bfs_ext cl s1 s3.
Proof.
  intros Hcl [HN1 Hp1 Hs1 Ho1 Hn1] [HN2 Hp2 Hs2 Ho2 Hn2]. split.
  - lia.
  - rewrite <- Hp1. by apply (take_eq_mono _ _ _ (bfs_N s2)).
  - rewrite Hs2. by apply (drop_eq_mono _ _ (bfs_N s2)).
  - intros v Hv Hold. rewrite Ho2; [by apply Ho1|done|].
    rewrite Ho1; done.
  - intros v Hv Hnew. destruct (Hn1 v Hv Hnew) as [H|H].
    + by apply Hn2.
    + right. rewrite Ho2; [done..|]. congruence.
Qed.

Lemma bfs_wf_visited_length s : bfs_wf s → length (bfs_visited s) = bfs_N s.
Proof.
  intros Hwf. unfold bfs_visited. rewrite length_take.
  pose proof (wf_order_len s Hwf). pose proof (wf_N s Hwf). lia.
Qed.

(** There is room in [order] for a vertex that is not yet in it. *)
Lemma bfs_wf_room s j :
  bfs_wf s → j < n → j ∉ bfs_visited s → bfs_N s < n.
Proof.
  intros Hwf Hj Hnot.
  assert (H : length (j :: bfs_visited s) ≤ n).
  { apply NoDup_bounded_length.
    - constructor; [done|by apply wf_nodup].
    - intros v [->|Hv]%elem_of_cons; [done|by apply (wf_bound s)]. }
  simpl in H. rewrite bfs_wf_visited_length in H by done. lia.
Qed.

Lemma bfs_visit_spec cl s j :
  cl ≠ (-1)%Z → bfs_wf s → j < n →
  bfs_wf (bfs_visit cl s j) ∧ bfs_ext cl s (bfs_visit cl s j)
  ∧ bfs_level (bfs_visit cl s j) !!! j ≠ (-1)%Z
  ∧ ∀ v, v < n → bfs_level s !!! v = (-1)%Z →
         bfs_level (bfs_visit cl s j) !!! v ≠ (-1)%Z → v = j.
Proof.
  intros Hcl Hwf Hj. unfold bfs_visit.
  destruct (Z.eqb_spec (bfs_level s !!! j) (-1)) as [Hfresh|Hseen].
  - assert (Hnot : j ∉ bfs_visited s).
    { intros Hin. by apply (wf_marked s Hwf j Hj) in Hin. }
    pose proof (bfs_wf_room s j Hwf Hj Hnot) as Hroom.
    destruct Hwf as [Hol Hll HN Hnd Hb Hm].
    assert (Hvis : take (S (bfs_N s)) (<[bfs_N s := j]> (bfs_order s))
                   = bfs_visited s ++ [j]).
    { erewrite take_S_r; [|apply list_lookup_insert_eq; lia].
      by rewrite take_insert_ge by lia. }
    split; [|split; [|split]].
    + split; simpl; unfold bfs_visited; simpl.
      * by rewrite length_insert.
      * by rewrite length_insert.
      * lia.
      * rewrite Hvis. apply NoDup_app. split; [done|]. split.
        -- intros v Hv ->%list_elem_of_singleton. done.
        -- apply NoDup_singleton.
      * rewrite Hvis. intros v [Hv| ->%list_elem_of_singleton]%elem_of_app;
          [by apply Hb|done].
      * intros v Hv. rewrite Hvis, elem_of_app, list_elem_of_singleton.
        destruct (decide (v = j)) as [->|Hne].
        -- rewrite list_lookup_total_insert_eq by lia. split; [auto|done].
        -- rewrite list_lookup_total_insert_ne by done. rewrite Hm by done.
           split; [auto|]. by intros [?|?].
    + split; simpl.
      * lia.
      * by rewrite take_insert_ge by lia.
      * by rewrite drop_insert_lt by lia.
      * intros v Hv Hold. rewrite list_lookup_total_insert_ne; [done|].
        intros <-. done.
      * intros v Hv Hnew. destruct (decide (v = j)) as [->|Hne].
        -- right. by rewrite list_lookup_total_insert_eq by lia.
        -- left. by rewrite list_lookup_total_insert_ne.
    + simpl. by rewrite list_lookup_total_insert_eq by lia.
    + simpl. intros v Hv Hnew Hset. destruct (decide (v = j)); [done|].
      by rewrite list_lookup_total_insert_ne in Hset.
  - split; [done|]. split; [apply bfs_ext_refl|]. split; [done|].
    intros v _ Hnew Hset. done.
Qed.

(** Visiting all of [js]. *)
Lemma bfs_visit_fold cl js s :
  cl ≠ (-1)%Z → bfs_wf s → (∀ j, j ∈ js → j < n) →
  bfs_wf (fold_left (bfs_visit cl) js s)
  ∧ bfs_ext cl s (fold_left (bfs_visit cl) js s)
  ∧ (∀ v, v ∈ js → bfs_level (fold_left (bfs_visit cl) js s) !!! v ≠ (-1)%Z)
  ∧ (∀ v, v < n → bfs_level s !!! v = (-1)%Z →
        bfs_level (fold_left (bfs_visit cl) js s) !!! v ≠ (-1)%Z → v ∈ js).
Proof.
  intros Hcl. revert s. induction js as [|j js IH]; intros s Hwf Hjs; simpl.
  - split; [done|]. split; [apply bfs_ext_refl|]. split.
    + intros v Hv. by apply elem_of_nil in Hv.
    + intros v _ Hnew Hset. done.
  - assert (Hj : j < n) by (apply Hjs; by left).
    destruct (bfs_visit_spec cl s j Hcl Hwf Hj) as (Hwf1 & Hext1 & Hj1 & Hnew1).
    destruct (IH (bfs_visit cl s j) Hwf1) as (Hwf2 & Hext2 & Hall2 & Hnew2).
    { intros j' Hj'. apply Hjs. by right. }
    split; [done|]. split; [by apply (bfs_ext_trans cl s (bfs_visit cl s j))|].
    split.
    + intros v [->|Hv]%elem_of_cons; [|by apply Hall2].
      rewrite (ext_old _ _ _ Hext2); done.
    + intros v Hv Hnew Hset.
      destruct (decide (bfs_level (bfs_visit cl s j) !!! v = (-1)%Z)) as [H|H].
      * apply elem_of_cons. right. by apply Hnew2.
      * apply elem_of_cons. left. by apply Hnew1.
Qed.

Lemma bfs_ext_lookup cl s0 s ii :
  bfs_ext cl s0 s → ii < bfs_N s0 →
  bfs_order s !!! ii = bfs_order s0 !!! ii.
Proof.
  intros Hext Hii.
  rewrite <- (lookup_total_take_lt (bfs_order s) (bfs_N s0)) by done.
  rewrite (ext_prefix _ _ _ Hext). by apply lookup_total_take_lt.
Qed.

(** Visiting the rows of the vertices [order[ii]], [ii] in [iis]. *)
Lemma bfs_scan_fold cl s0 iis s :
  cl ≠ (-1)%Z → bfs_wf s → bfs_ext cl s0 s →
  (∀ ii, ii ∈ iis → ii < bfs_N s0 ∧ bfs_order s0 !!! ii < n) →
  let s' := fold_left (λ s ii, fold_left (bfs_visit cl)
                                 (row Ap Aj (bfs_order s !!! ii)) s) iis s in
  bfs_wf s' ∧ bfs_ext cl s s'
  ∧ (∀ ii v, ii ∈ iis → v ∈ row Ap Aj (bfs_order s0 !!! ii) →
       bfs_level s' !!! v ≠ (-1)%Z)
  ∧ (∀ v, v < n → bfs_level s !!! v = (-1)%Z → bfs_level s' !!! v ≠ (-1)%Z →
       ∃ ii, ii ∈ iis ∧ v ∈ row Ap Aj (bfs_order s0 !!! ii)).
Proof.
  intros Hcl. revert s.
  induction iis as [|ii iis IH]; intros s Hwf Hext Hiis; cbn [fold_left].
  - split; [done|]. split; [apply bfs_ext_refl|]. split.
    + intros ii v Hii. by apply elem_of_nil in Hii.
    + intros v _ Hnew Hset. done.
  - destruct (Hiis ii) as [Hii Hw]; [by left|].
    rewrite (bfs_ext_lookup cl s0 s ii Hext Hii).
    set (w := bfs_order s0 !!! ii) in *.
    assert (Hrow : ∀ j, j ∈ row Ap Aj w → j < n) by (intros j; by apply Hcols).
    destruct (bfs_visit_fold cl (row Ap Aj w) s Hcl Hwf Hrow)
      as (Hwf1 & Hext1 & Hall1 & Hnew1).
    set (s1 := fold_left (bfs_visit cl) (row Ap Aj w) s) in *.
    destruct (IH s1 Hwf1) as (Hwf2 & Hext2 & Hall2 & Hnew2).
    { by apply (bfs_ext_trans cl s0 s). }
    { intros ii' Hii'. apply Hiis. by right. }
    split; [done|]. split; [by apply (bfs_ext_trans cl s s1)|]. split.
    + intros ii' v [->|Hii']%elem_of_cons Hv; [|by apply (Hall2 ii')].
      rewrite (ext_old _ _ _ Hext2); [by apply Hall1|by apply Hrow|].
      by apply Hall1.
    + intros v Hv Hnew Hset.
      destruct (decide (bfs_level s1 !!! v = (-1)%Z)) as [H|H].
      * destruct (Hnew2 v Hv H Hset) as (ii' & Hii' & Hin).
        exists ii'. split; [|done]. apply elem_of_cons. by right.
      * exists ii. split; [apply elem_of_cons; by left|]. by apply Hnew1.
Qed.

Variables (seed : nat) (order0 : list nat).

(** The state at the head of the while loop when [current_level] is [c+1]:
    the marked vertices are those at distance at most [c], their level is
    their distance, and [order[lb .. le)] holds those at distance [c]. *)
Record bfs_inv (c lb le : nat) (s : bfs_state) : Prop := BfsInv {
  inv_wf : bfs_wf s;
  inv_le : le = bfs_N s;
  inv_lb : lb ≤ le;
  inv_suffix : drop (bfs_N s) (bfs_order s) = drop (bfs_N s) order0;
  inv_dist : ∀ v, v < n → bfs_level s !!! v ≠ (-1)%Z →
    ∃ d, d ≤ c ∧ bfs_level s !!! v = Z.of_nat d ∧ distance n Ap Aj seed v d;
  inv_near : ∀ v d, walk n Ap Aj seed d v → d ≤ c →
    bfs_level s !!! v ≠ (-1)%Z;
  inv_window : ∀ v, v < n →
    bfs_level s !!! v = Z.of_nat c ↔ ∃ p, lb ≤ p < le ∧ bfs_order s !!! p = v
}.

Lemma walk_bound u d v : walk n Ap Aj u d v → v < n.
Proof. by intros [|]. Qed.

Lemma bfs_inv_step c lb le s :
  bfs_inv c lb le s → lb < le →
  let s' := bfs_scan_level Ap Aj lb le (Z.of_nat (S c)) s in
  bfs_inv (S c) le (bfs_N s') s'.
Proof.
  intros [Hwf Hle Hlb Hsuf Hdist Hnear Hwin] Hlt s'.
  assert (Hcl : Z.of_nat (S c) ≠ (-1)%Z) by lia.
  assert (Hiis : ∀ ii, ii ∈ seq lb (le - lb) →
            ii < bfs_N s ∧ bfs_order s !!! ii < n).
  { intros ii Hii%elem_of_seq. split; [lia|].
    apply (wf_bound s Hwf). unfold bfs_visited.
    rewrite <- (lookup_total_take_lt _ (bfs_N s)) by lia.
    apply list_elem_of_lookup_total_2.
    rewrite length_take, (wf_order_len s Hwf). pose proof (wf_N s Hwf). lia. }
  destruct (bfs_scan_fold (Z.of_nat (S c)) s (seq lb (le - lb)) s Hcl Hwf
              (bfs_ext_refl _ s) Hiis) as (Hwf' & Hext & Hall & Hnew).
  fold (bfs_scan_level Ap Aj lb le (Z.of_nat (S c)) s) in Hwf', Hext, Hall, Hnew.
  fold s' in Hwf', Hext, Hall, Hnew.
  (* the vertices in the window are those at level [c] *)
  assert (Hrows : ∀ v, (∃ ii, ii ∈ seq lb (le - lb)
                         ∧ v ∈ row Ap Aj (bfs_order s !!! ii))
              ↔ ∃ w, w < n ∧ bfs_level s !!! w = Z.of_nat c ∧ v ∈ row Ap Aj w).
  { intros v. split.
    - intros (ii & Hii & Hv). exists (bfs_order s !!! ii).
      destruct (Hiis ii Hii) as [_ Hw]. split; [done|]. split; [|done].
      apply Hwin; [done|]. exists ii. apply elem_of_seq in Hii. split; [lia|done].
    - intros (w & Hw & Hlev & Hv). apply Hwin in Hlev as (p & Hp & <-); [|done].
      exists p. split; [|done]. apply elem_of_seq. lia. }
  assert (Hfresh : ∀ v, v < n → bfs_level s !!! v = (-1)%Z →
            bfs_level s' !!! v ≠ (-1)%Z → bfs_level s' !!! v = Z.of_nat (S c)).
  { intros v Hv Hold Hset. by destruct (ext_new _ _ _ Hext v Hv Hold). }
  split.
  - done.
  - done.
  - rewrite Hle. apply (ext_N _ _ _ Hext).
  - rewrite (ext_suffix _ _ _ Hext).
    by apply (drop_eq_mono _ _ (bfs_N s)); [apply (ext_N _ _ _ Hext)|].
  - intros v Hv Hset.
    destruct (decide (bfs_level s !!! v = (-1)%Z)) as [Hold|Hold].
    + exists (S c). split; [lia|]. split; [by apply Hfresh|].
      destruct (Hnew v Hv Hold Hset) as (ii & Hii & Hin).
      destruct (proj1 (Hrows v)) as (w & Hw & Hlev & Hvw); [by exists ii|].
      destruct (Hdist w Hw) as (d & Hd & Hwd & [Hwalk _]); [lia|].
      assert (d = c) as -> by lia.
      split; [by apply (walk_step _ _ _ _ _ w)|].
      intros d' Hwalk'. destruct (decide (d' ≤ c)) as [Hd'|]; [|lia].
      exfalso. by apply (Hnear v d' Hwalk' Hd').
    + destruct (Hdist v Hv Hold) as (d & Hd & Hvd & Hmin).
      exists d. split; [lia|]. split; [|done].
      by rewrite (ext_old _ _ _ Hext).
  - intros v d Hwalk Hd.
    assert (Hkeep : ∀ u, u < n → bfs_level s !!! u ≠ (-1)%Z →
              bfs_level s' !!! u ≠ (-1)%Z).
    { intros u Hu Hold. by rewrite (ext_old _ _ _ Hext). }
    destruct (decide (d ≤ c)) as [Hdc|Hdc].
    { apply Hkeep; [by apply (walk_bound seed d)|by apply (Hnear v d)]. }
    assert (d = S c) as -> by lia.
    inversion Hwalk as [|d0 w v0 Hwalk0 Hv Hin]; subst.
    pose proof (walk_bound _ _ _ Hwalk0) as Hw.
    pose proof (Hnear w c Hwalk0 (le_n c)) as Hwset.
    destruct (Hdist w Hw Hwset) as (dw & Hdw & Hwlev & [Hwalkw _]).
    destruct (decide (dw = c)) as [->|Hne].
    + destruct (proj2 (Hrows v)) as (ii & Hii & Hvii); [by exists w|].
      by apply (Hall ii).
    + apply Hkeep; [done|]. apply (Hnear v (S dw)); [|lia].
      by apply (walk_step _ _ _ _ _ w).
  - intros v Hv. split.
    + intros Hlev.
      assert (Hold : bfs_level s !!! v = (-1)%Z).
      { destruct (decide (bfs_level s !!! v = (-1)%Z)) as [|Hold]; [done|].
        destruct (Hdist v Hv Hold) as (d & Hd & Hvd & _).
        rewrite (ext_old _ _ _ Hext) in Hlev by done. lia. }
      assert (Hin : v ∈ bfs_visited s').
      { apply (wf_marked s' Hwf' v Hv). lia. }
      apply elem_of_take in Hin as (p & Hp & HpN).
      exists p. split; [|by apply list_lookup_total_correct].
      split; [|done].
      destruct (decide (le ≤ p)) as [|Hsmall]; [done|]. exfalso.
      assert (Hvs : v ∈ bfs_visited s).
      { apply elem_of_take. exists p. split; [|lia].
        rewrite <- (lookup_take_lt _ (bfs_N s)) by lia.
        rewrite <- (ext_prefix _ _ _ Hext).
        rewrite lookup_take_lt by lia. done. }
      apply (wf_marked s Hwf v Hv) in Hvs. done.
    + intros (p & Hp & Hpv).
      assert (Hin : v ∈ bfs_visited s').
      { apply elem_of_take. exists p. split; [|lia].
        rewrite <- Hpv. apply list_lookup_lookup_total_lt.
        rewrite (wf_order_len s' Hwf'). pose proof (wf_N s' Hwf'). lia. }
      assert (Hset : bfs_level s' !!! v ≠ (-1)%Z)
        by by apply (wf_marked s' Hwf' v Hv).
      apply Hfresh; [done| |done].
      destruct (decide (bfs_level s !!! v = (-1)%Z)) as [|Hold]; [done|].
      exfalso. apply (wf_marked s Hwf v Hv) in Hold.
      apply elem_of_take in Hold as (q & Hq & HqN).
      assert (Hq' : bfs_order s' !! q = Some v).
      { rewrite <- (lookup_take_lt _ (bfs_N s)) by lia.
        rewrite (ext_prefix _ _ _ Hext). by rewrite lookup_take_lt by lia. }
      assert (Hp' : bfs_order s' !! p = Some v).
      { rewrite <- Hpv. apply list_lookup_lookup_total_lt.
        rewrite (wf_order_len s' Hwf'). pose proof (wf_N s' Hwf'). lia. }
      assert (p = q); [|lia].
      apply (NoDup_lookup (bfs_visited s') p q v (wf_nodup s' Hwf'));
        unfold bfs_visited; rewrite lookup_take_lt; try done; lia.
Qed.

Lemma bfs_while_spec fuel c lb le s :
  bfs_inv c lb le s → n - lb ≤ fuel →
  ∃ s' c' lb',
    bfs_while fuel Ap Aj lb le (Z.of_nat (S c)) s = Some s'
    ∧ bfs_inv c' lb' lb' s'.
Proof.
  revert c lb le s. induction fuel as [|fuel IH]; intros c lb le s Hinv Hfuel.
  - simpl. destruct (Nat.ltb_spec lb le) as [Hlt|Hge].
    + pose proof (inv_wf _ _ _ _ Hinv) as Hwf. pose proof (wf_N s Hwf).
      pose proof (inv_le _ _ _ _ Hinv). lia.
    + exists s, c, lb. split; [done|].
      pose proof (inv_lb _ _ _ _ Hinv). by replace le with lb in Hinv by lia.
  - cbn [bfs_while]. destruct (Nat.ltb_spec lb le) as [Hlt|Hge].
    + pose proof (bfs_inv_step c lb le s Hinv Hlt) as Hinv'. cbv zeta in Hinv'.
      replace (Z.of_nat (S c) + 1)%Z with (Z.of_nat (S (S c))) by lia.
      apply (IH (S c)); [done|]. lia.
    + exists s, c, lb. split; [done|].
      pose proof (inv_lb _ _ _ _ Hinv). by replace le with lb in Hinv by lia.
Qed.

Hypothesis Hseed : seed < n.

Lemma walk_0_inv u v : walk n Ap Aj u 0 v → v = u.
Proof. by inversion 1. Qed.

Lemma bfs_inv_init level0 :
  length order0 = n → length level0 = n →
  (∀ v, v < n → level0 !!! v = (-1)%Z) →
  bfs_inv 0 0 1 (BfsState (<[0:=seed]> order0) (<[seed:=0%Z]> level0) 1).
Proof.
  intros Hol Hll Hfresh.
  assert (Hvis : take 1 (<[0:=seed]> order0) = [seed]).
  { destruct order0; [simpl in Hol; lia|done]. }
  assert (Hlev : ∀ v, v < n →
            <[seed:=0%Z]> level0 !!! v = if decide (v = seed) then 0%Z else (-1)%Z).
  { intros v Hv. case_decide as Hvs.
    - subst. apply list_lookup_total_insert_eq. lia.
    - rewrite list_lookup_total_insert_ne by done. by apply Hfresh. }
  assert (Hd0 : distance n Ap Aj seed seed 0).
  { split; [by constructor|]. intros; lia. }
  split; simpl.
  - split; simpl; unfold bfs_visited; simpl.
    + by rewrite length_insert.
    + by rewrite length_insert.
    + lia.
    + rewrite Hvis. apply NoDup_singleton.
    + rewrite Hvis. by intros v ->%list_elem_of_singleton.
    + intros v Hv. rewrite Hvis, list_elem_of_singleton, Hlev by done.
      case_decide; split; done.
  - done.
  - lia.
  - by rewrite drop_insert_lt by lia.
  - intros v Hv Hset. rewrite Hlev in Hset |- * by done.
    case_decide; [subst|done]. exists 0. done.
  - intros v d Hwalk Hd. assert (d = 0) as -> by lia.
    apply walk_0_inv in Hwalk as ->. rewrite Hlev by done.
    by rewrite decide_True.
  - intros v Hv. rewrite Hlev by done. split.
    + case_decide; [subst|done]. intros _. exists 0. split; [lia|].
      apply list_lookup_total_insert_eq. lia.
    + intros (p & Hp & Hpv). assert (p = 0) as -> by lia.
      rewrite list_lookup_total_insert_eq in Hpv by lia.
      by rewrite decide_True.
Qed.

(** Once the window is empty every reachable vertex is marked. *)
Lemma bfs_inv_final c lb s v d :
  bfs_inv c lb lb s → walk n Ap Aj seed d v → bfs_level s !!! v ≠ (-1)%Z.
Proof.
  intros Hinv Hwalk. induction Hwalk as [|d w v Hwalk IH Hv Hin].
  - apply (inv_near _ _ _ _ Hinv seed 0); [by constructor|lia].
  - pose proof (walk_bound _ _ _ Hwalk) as Hw.
    destruct (inv_dist _ _ _ _ Hinv w Hw IH) as (dw & Hdw & Hlev & [Hwalkw _]).
    destruct (decide (dw = c)) as [->|Hne].
    + apply (inv_window _ _ _ _ Hinv w Hw) in Hlev as (p & Hp & _). lia.
    + apply (inv_near _ _ _ _ Hinv v (S dw)); [|lia].
      by apply (walk_step _ _ _ _ _ w).
Qed.

Lemma bfs_run_spec fuel level0 :
  length order0 = n → length level0 = n →
  (∀ v, v < n → level0 !!! v = (-1)%Z) → n ≤ fuel →
  ∃ s, bfs_run fuel Ap Aj seed order0 level0 = Some s
    ∧ length (bfs_order s) = n ∧ length (bfs_level s) = n
    ∧ 1 ≤ bfs_N s ≤ n
    ∧ NoDup (take (bfs_N s) (bfs_order s))
    ∧ drop (bfs_N s) (bfs_order s) = drop (bfs_N s) order0
    ∧ (∀ v, v ∈ take (bfs_N s) (bfs_order s) ↔ reachable n Ap Aj seed v)
    ∧ (∀ v, reachable n Ap Aj seed v →
         ∃ d, distance n Ap Aj seed v d ∧ bfs_level s !!! v = Z.of_nat d)
    ∧ (∀ v, v < n → ¬ reachable n Ap Aj seed v →
         bfs_level s !!! v = (-1)%Z).
Proof.
  intros Hol Hll Hfresh Hfuel.
  pose proof (bfs_inv_init level0 Hol Hll Hfresh) as Hinit.
  destruct (bfs_while_spec fuel 0 0 1 _ Hinit ltac:(lia))
    as (s & c & lb & Hrun & Hinv).
  exists s. split; [exact Hrun|].
  assert (Hext1 : ∀ v, v < n → bfs_level s !!! v ≠ (-1)%Z →
            ∃ d, distance n Ap Aj seed v d ∧ bfs_level s !!! v = Z.of_nat d).
  { intros v Hv Hset.
    destruct (inv_dist _ _ _ _ Hinv v Hv Hset) as (d & _ & Hlev & Hd).
    by exists d. }
  pose proof (inv_wf _ _ _ _ Hinv) as Hwf.
  assert (Hreach : ∀ v, v ∈ take (bfs_N s) (bfs_order s)
                       ↔ reachable n Ap Aj seed v).
  { intros v. split.
    - intros Hin. pose proof (wf_bound s Hwf v Hin) as Hv.
      apply (wf_marked s Hwf v Hv) in Hin.
      destruct (Hext1 v Hv Hin) as (d & [Hwalk _] & _). by exists d.
    - intros [d Hwalk]. apply (wf_marked s Hwf v (walk_bound _ _ _ Hwalk)).
      by apply (bfs_inv_final c lb s v d). }
  assert (Hseedin : seed ∈ take (bfs_N s) (bfs_order s)).
  { apply Hreach. exists 0. by constructor. }
  split; [apply (wf_order_len s Hwf)|]. split; [apply (wf_level_len s Hwf)|].
  split.
  { split; [|apply (wf_N s Hwf)].
    destruct (bfs_N s); [|lia]. by apply elem_of_nil in Hseedin. }
  split; [apply (wf_nodup s Hwf)|].
  split; [apply (inv_suffix _ _ _ _ Hinv)|].
  split; [done|]. split.
  - intros v Hv. apply Hext1.
    + destruct Hv as [d Hwalk]. by apply (walk_bound seed d).
    + apply Hreach in Hv. apply (wf_marked s Hwf v); [|done].
      by apply (wf_bound s Hwf).
  - intros v Hv Hnot.
    destruct (decide (bfs_level s !!! v = (-1)%Z)) as [|Hset]; [done|].
    exfalso. apply Hnot, Hreach. by apply (wf_marked s Hwf v Hv).
Qed.
End Bfs.

(** C5.  Let [level] be filled with [-1] and [seed] be a vertex.  When
    [breadth_first_search] returns, the level of every vertex reachable
    from [seed] is its unweighted shortest-path distance from [seed] (0 for
    [seed] itself); the entries the search has appended to [order], which
    are its first [N], [N] being the number of reachable vertices, list
    exactly the reachable vertices, each once, and the cells after them are
    not written; every unreachable vertex keeps the level [-1] and is not
    among the appended entries. *)
Theorem bfs_levels_and_order_prefix (n : nat) (Ap Aj : list nat) (seed : nat)
    (order : list nat) (level : list Z) (fuel : nat) :
  csr_cols_ok n Ap Aj → seed < n →
  length order = n → length level = n →
  (∀ v, v < n → level !!! v = (-1)%Z) → n ≤ fuel →
  ∃ order' level' N,
    breadth_first_search fuel Ap Aj seed order level = Some (order', level')
    ∧ length order' = n ∧ length level' = n ∧ 1 ≤ N ≤ n
    ∧ (∀ j, reachable n Ap Aj seed j →
         ∃ d, distance n Ap Aj seed j d ∧ level' !!! j = Z.of_nat d)
    ∧ level' !!! seed = 0%Z
    ∧ NoDup (take N order')
    ∧ (∀ j, j ∈ take N order' ↔ reachable n Ap Aj seed j)
    ∧ drop N order' = drop N order
    ∧ (∀ j, j < n → ¬ reachable n Ap Aj seed j →
         level' !!! j = (-1)%Z ∧ j ∉ take N order').
Proof.
  intros Hcols Hseed Hol Hll Hfresh Hfuel.
  destruct (bfs_run_spec n Ap Aj Hcols seed order Hseed fuel level
              Hol Hll Hfresh Hfuel)
    as (s & Hrun & Hol' & Hll' & HN & Hnd & Hsuf & Hreach & Hdist & Hun).
  exists (bfs_order s), (bfs_level s), (bfs_N s).
  split; [unfold breadth_first_search; by rewrite Hrun|].
  do 3 (split; [done|]). split; [done|]. split.
  { destruct (Hdist seed) as (d & Hd & ->); [exists 0; by constructor|].
    assert (d = 0) as ->; [|done].
    destruct Hd as [_ Hmin]. specialize (Hmin 0 ltac:(by constructor)). lia. }
  do 3 (split; [done|]).
  intros j Hj Hnot. split; [by apply Hun|]. by rewrite Hreach.
Qed.

(** The edges 0-1, 0-2 and 2-3, searched from vertex 0. *)
Example bfs_four_vertices :
  breadth_first_search 4 [0; 2; 3; 5; 6] [1; 2; 0; 0; 3; 2] 0
    [9; 9; 9; 9] [-1; -1; -1; -1]%Z
  = Some ([0; 1; 2; 3], [0; 1; 1; 2]%Z).
Proof. reflexivity. Qed.

(** Two vertices and no edge. *)
Definition isolated2_Ap : list nat := [0; 0; 0].
Definition isolated2_Aj : list nat := [].

Lemma bfs_levels_and_order_prefix_witness :
  ∃ order' level' N,
    breadth_first_search 2 isolated2_Ap isolated2_Aj 0 [1; 1] [-1; -1]%Z
      = Some (order', level')
    ∧ length order' = 2 ∧ length level' = 2 ∧ 1 ≤ N ≤ 2
    ∧ (∀ j, reachable 2 isolated2_Ap isolated2_Aj 0 j →
         ∃ d, distance 2 isolated2_Ap isolated2_Aj 0 j d
              ∧ level' !!! j = Z.of_nat d)
    ∧ level' !!! 0 = 0%Z
    ∧ NoDup (take N order')
    ∧ (∀ j, j ∈ take N order' ↔ reachable 2 isolated2_Ap isolated2_Aj 0 j)
    ∧ drop N order' = drop N [1; 1]
    ∧ (∀ j, j < 2 → ¬ reachable 2 isolated2_Ap isolated2_Aj 0 j →
         level' !!! j = (-1)%Z ∧ j ∉ take N order').
Proof.
  apply (bfs_levels_and_order_prefix 2 isolated2_Ap isolated2_Aj 0
           [1; 1] [-1; -1]%Z 2).
  - apply csr_cols_okb_sound. vm_compute. reflexivity.
  - lia.
  - reflexivity.
  - reflexivity.
  - apply (bool_decide_unpack _). vm_compute. exact I.
  - lia.
Defined.

(** ** Walks *)

Section Walks.
Variables (n : nat) (Ap Aj : list nat).

Lemma walk_start u d v : walk n Ap Aj u d v → u < n.
Proof. induction 1; done. Qed.

(** An edge in front of a walk. *)
Lemma walk_cons u j d w :
  u < n → j ∈ row Ap Aj u → walk n Ap Aj j d w → walk n Ap Aj u (S d) w.
Proof.
  intros Hu Hj Hwalk. induction Hwalk as [Hjn|d w v Hwalk IH Hv Hin].
  - apply (walk_step _ _ _ _ _ u); [by constructor|done..].
  - by apply (walk_step _ _ _ _ _ w).
Qed.

(** The first edge of a walk. *)
Lemma walk_first u d w :
  walk n Ap Aj u (S d) w →
  ∃ j, j < n ∧ j ∈ row Ap Aj u ∧ walk n Ap Aj j d w.
Proof.
  revert w. induction d as [|d IH]; intros w Hwalk;
    inversion Hwalk as [|d0 w' v0 Hwalk' Hw Hin]; subst.
  - inversion Hwalk'; subst. exists w. split; [done|]. split; [done|].
    by constructor.
  - destruct (IH w' Hwalk') as (j & Hj & Hju & Hjw).
    exists j. split; [done|]. split; [done|].
    by apply (walk_step _ _ _ _ _ w').
Qed.

Hypothesis Hsym : csr_symmetric n Ap Aj.

Lemma walk_sym u d v : walk n Ap Aj u d v → walk n Ap Aj v d u.
Proof.
  induction 1 as [Hu|d w v Hwalk IH Hv Hin]; [by constructor|].
  apply (walk_cons v w); [done| |done].
  apply Hsym; [by apply (walk_bound n Ap Aj u d)|done|done].
Qed.
End Walks.

(** ** csr_propagate_max *)

Section PropagateRow.
Variables (n : nat) (val : list Q) (i_keys : list nat) (i_vals : list Q).

(** Every buffered pair is some vertex with its own value. *)
Hypothesis Hpairs : ∀ j, j < n → i_vals !!! j = val !!! (i_keys !!! j).

Lemma propagate_row_max k_max j :
  j < n →
  let r := propagate_row i_keys i_vals (k_max, val !!! k_max) j in
  r.2 = val !!! r.1
  ∧ (r.1 = k_max ∨ r.1 = i_keys !!! j)
  ∧ lex_le k_max (val !!! k_max) r.1 r.2
  ∧ lex_le (i_keys !!! j) (i_vals !!! j) r.1 r.2.
Proof.
  intros Hj. unfold propagate_row. cbv zeta. rewrite (Hpairs j Hj).
  destruct (Nat.eqb_spec (i_keys !!! j) k_max) as [Heq|Hne]; simpl.
  { rewrite Heq. repeat split; auto using lex_le_refl. }
  destruct (Qltb _ _) eqn:Hlt; simpl.
  { apply Qltb_iff in Hlt. repeat split; auto using lex_le_refl.
    by left. }
  apply not_true_iff_false in Hlt. rewrite Qltb_iff in Hlt.
  destruct (Qgtb _ _) eqn:Hgt; simpl.
  { apply Qgtb_gt in Hgt. repeat split; auto using lex_le_refl.
    by left. }
  apply not_true_iff_false in Hgt. rewrite Qgtb_gt in Hgt.
  assert (Heq : (val !!! (i_keys !!! j) == val !!! k_max)%Q) by lra.
  destruct (Nat.ltb_spec k_max (i_keys !!! j)) as [Hk|Hk]; simpl.
  - repeat split; auto using lex_le_refl.
    right. split; [lra|lia].
  - repeat split; auto using lex_le_refl.
    right. split; [lra|lia].
Qed.

(** The loop over a row leaves the largest pair among the start pair and
    the pairs of the row. *)
Lemma propagate_row_fold js k0 :
  (∀ j, j ∈ js → j < n) →
  let r := fold_left (propagate_row i_keys i_vals) js (k0, val !!! k0) in
  r.2 = val !!! r.1
  ∧ (r.1 = k0 ∨ ∃ j, j ∈ js ∧ r.1 = i_keys !!! j)
  ∧ lex_le k0 (val !!! k0) r.1 r.2
  ∧ ∀ j, j ∈ js → lex_le (i_keys !!! j) (i_vals !!! j) r.1 r.2.
Proof.
  revert k0. induction js as [|j js IH]; intros k0 Hjs; cbn [fold_left];
    cbv zeta.
  - split; [done|]. split; [by left|]. split; [apply lex_le_refl|].
    intros j Hj. by apply elem_of_nil in Hj.
  - destruct (propagate_row_max k0 j) as (Hval & Hkey & Hle0 & Hlej).
    { apply Hjs, elem_of_cons. by left. }
    destruct (propagate_row i_keys i_vals (k0, val !!! k0) j) as [k1 v1].
    simpl in *. subst v1.
    destruct (IH k1) as (Hval' & Hkey' & Hle1 & Hall).
    { intros j' Hj'. apply Hjs, elem_of_cons. by right. }
    cbv zeta in *.
    split; [done|]. split; [|split].
    + destruct Hkey' as [->|(j' & Hj' & ->)].
      * destruct Hkey as [->| ->]; [by left|].
        right. exists j. split; [apply elem_of_cons; by left|done].
      * right. exists j'. split; [apply elem_of_cons; by right|done].
    + eapply lex_le_trans; [exact Hle0|exact Hle1].
    + intros j' [->|Hj']%elem_of_cons; [|by apply Hall].
      eapply lex_le_trans; [exact Hlej|exact Hle1].
Qed.
End PropagateRow.

(** What [csr_propagate_max] writes: cell [u] gets the result of the loop
    over the row of [u]. *)
Lemma csr_propagate_max_lookup n Ap Aj i_keys o_keys i_vals o_vals :
  length o_keys = n → length o_vals = n →
  let r := csr_propagate_max n Ap Aj i_keys o_keys i_vals o_vals in
  length r.1 = n ∧ length r.2 = n
  ∧ ∀ u, u < n →
      (r.1 !!! u, r.2 !!! u) =
      fold_left (propagate_row i_keys i_vals) (row Ap Aj u)
        (i_keys !!! u, i_vals !!! u).
Proof.
  intros Hok Hov. unfold csr_propagate_max. cbv zeta.
  assert (H : ∀ m, m ≤ n →
    let r := fold_left (λ '(o_keys, o_vals) i,
               let '(k_max, v_max) :=
                 fold_left (propagate_row i_keys i_vals) (row Ap Aj i)
                   (i_keys !!! i, i_vals !!! i) in
               (<[i:=k_max]> o_keys, <[i:=v_max]> o_vals))
             (seq 0 m) (o_keys, o_vals) in
    length r.1 = n ∧ length r.2 = n
    ∧ ∀ u, u < m →
        (r.1 !!! u, r.2 !!! u) =
        fold_left (propagate_row i_keys i_vals) (row Ap Aj u)
          (i_keys !!! u, i_vals !!! u)).
  { induction m as [|m IH]; intros Hm; cbv zeta.
    - split; [done|]. split; [done|]. lia.
    - rewrite fold_left_seq_S. cbv zeta in IH.
      destruct IH as (IH1 & IH2 & IH3); [lia|].
      destruct (fold_left _ (seq 0 m) (o_keys, o_vals)) as [ok ov].
      simpl in IH1, IH2, IH3. simpl.
      destruct (fold_left (propagate_row i_keys i_vals) (row Ap Aj m) _)
        as [k_max v_max] eqn:E. simpl.
      split; [by rewrite length_insert|]. split; [by rewrite length_insert|].
      intros u Hu. destruct (decide (u = m)) as [->|Hne].
      + rewrite !list_lookup_total_insert_eq by lia. by rewrite E.
      + rewrite !list_lookup_total_insert_ne by done. apply IH3. lia. }
  by apply H.
Qed.

(** ** maximal_independent_set_k_parallel *)

Section Propagate.
Variables (n : nat) (Ap Aj : list nat).
Hypothesis Hcols : csr_cols_ok n Ap Aj.

(** After [t] propagations of the pairs [(u, val[u])], the cell of [u]
    holds the largest pair among the vertices within [t] edges of [u]. *)
Definition propagated (val : list Q) (t : nat) (keys : list nat)
    (vals : list Q) : Prop :=
  length keys = n ∧ length vals = n
  ∧ ∀ u, u < n →
      keys !!! u < n
      ∧ vals !!! u = val !!! (keys !!! u)
      ∧ (∃ d, d ≤ t ∧ walk n Ap Aj u d (keys !!! u))
      ∧ ∀ w d, d ≤ t → walk n Ap Aj u d w →
          lex_le w (val !!! w) (keys !!! u) (val !!! (keys !!! u)).

Lemma propagated_0 keys vals :
  length keys = n → length vals = n → (∀ u, u < n → keys !!! u = u) →
  propagated vals 0 keys vals.
Proof.
  intros Hk Hv Hid. split; [done|]. split; [done|].
  intros u Hu. rewrite (Hid u Hu). split; [done|]. split; [done|]. split.
  - exists 0. split; [lia|]. by constructor.
  - intros w d Hd Hwalk. assert (d = 0) as -> by lia.
    inversion Hwalk; subst. apply lex_le_refl.
Qed.

Lemma propagated_S val t keys vals o_keys o_vals :
  propagated val t keys vals → length o_keys = n → length o_vals = n →
  propagated val (S t)
    (csr_propagate_max n Ap Aj keys o_keys vals o_vals).1
    (csr_propagate_max n Ap Aj keys o_keys vals o_vals).2.
Proof.
  intros (Hk & Hv & Hcells) Hok Hov.
  destruct (csr_propagate_max_lookup n Ap Aj keys o_keys vals o_vals Hok Hov)
    as (Hk' & Hv' & Hnew).
  split; [done|]. split; [done|]. intros u Hu.
  specialize (Hnew u Hu).
  destruct (Hcells u Hu) as (Hku & Hvu & (du & Hdu & Hwalku) & Hmaxu).
  rewrite Hvu in Hnew.
  assert (Hpairs : ∀ j, j < n → vals !!! j = val !!! (keys !!! j)).
  { intros j Hj. by destruct (Hcells j Hj) as (_ & ? & _). }
  assert (Hrow : ∀ j, j ∈ row Ap Aj u → j < n) by (intros j; by apply Hcols).
  destruct (propagate_row_fold n val keys vals Hpairs (row Ap Aj u)
              (keys !!! u) Hrow) as (Hrv & Hrk & Hle0 & Hlej).
  cbv zeta in *. rewrite <- Hnew in *. simpl in *.
  set (K := (csr_propagate_max n Ap Aj keys o_keys vals o_vals).1 !!! u) in *.
  set (V := (csr_propagate_max n Ap Aj keys o_keys vals o_vals).2 !!! u) in *.
  split; [|split; [done|split]].
  - destruct Hrk as [HK|(j & Hj & HK)]; rewrite HK; [done|].
    by destruct (Hcells j (Hrow j Hj)) as (? & _).
  - destruct Hrk as [HK|(j & Hj & HK)]; rewrite HK.
    + exists du. split; [lia|done].
    + destruct (Hcells j (Hrow j Hj)) as (_ & _ & (dj & Hdj & Hwalkj) & _).
      exists (S dj). split; [lia|]. by apply (walk_cons n Ap Aj u j).
  - intros w d Hd Hwalk. rewrite <- Hrv.
    destruct (decide (d ≤ t)) as [Hdt|Hdt].
    + eapply lex_le_trans; [by apply (Hmaxu w d)|done].
    + assert (d = S t) as -> by lia.
      apply walk_first in Hwalk as (j & Hj & Hju & Hwalkj).
      destruct (Hcells j Hj) as (_ & Hvj & _ & Hmaxj).
      eapply lex_le_trans; [by apply (Hmaxj w t)|].
      rewrite <- Hvj. by apply Hlej.
Qed.

Lemma misk_propagate_spec val k t keys o_keys vals o_vals :
  propagated val t keys vals → length o_keys = n → length o_vals = n →
  let r := misk_propagate k n Ap Aj keys o_keys vals o_vals in
  propagated val (t + k) r.1.1.1 r.1.2
  ∧ length r.1.1.2 = n ∧ length r.2 = n.
Proof.
  revert t keys o_keys vals o_vals.
  induction k as [|k IH]; intros t keys o_keys vals o_vals Hp Hok Hov;
    cbn [misk_propagate]; cbv zeta.
  - simpl. by rewrite Nat.add_0_r.
  - pose proof (propagated_S val t keys vals o_keys o_vals Hp Hok Hov) as HS.
    destruct (csr_propagate_max n Ap Aj keys o_keys vals o_vals)
      as [o_keys' o_vals'].
    simpl in HS. destruct Hp as (Hk & Hv & _).
    replace (t + S k) with (S t + k) by lia.
    by apply IH.
Qed.
End Propagate.

(** The three loops over the vertices between the propagations. *)

Lemma misk_promote_spec n x active keys vals :
  length x = n → length keys = n → length vals = n →
  let r := misk_promote n x active keys vals in
  length r.1.1 = n ∧ length r.1.2 = n ∧ length r.2 = n
  ∧ ∀ u, u < n →
      r.1.1 !!! u = (if (keys !!! u =? u) && (active !!! u)
                     then 1%Z else x !!! u)
      ∧ r.1.2 !!! u = u
      ∧ r.2 !!! u = inject_Z (r.1.1 !!! u).
Proof.
  intros Hx Hk Hv. unfold misk_promote. cbv zeta.
  assert (H : ∀ m, m ≤ n →
    let r := fold_left (λ '(x, i_keys, i_vals) i,
               let x := if (i_keys !!! i =? i) && (active !!! i)
                        then <[i:=1%Z]> x else x in
               (x, <[i:=i]> i_keys, <[i := inject_Z (x !!! i)]> i_vals))
             (seq 0 m) (x, keys, vals) in
    length r.1.1 = n ∧ length r.1.2 = n ∧ length r.2 = n
    ∧ (∀ u, u < m →
         r.1.1 !!! u = (if (keys !!! u =? u) && (active !!! u)
                        then 1%Z else x !!! u)
         ∧ r.1.2 !!! u = u
         ∧ r.2 !!! u = inject_Z (r.1.1 !!! u))
    ∧ (∀ u, m ≤ u → r.1.1 !!! u = x !!! u ∧ r.1.2 !!! u = keys !!! u)).
  { induction m as [|m IH]; intros Hm; cbv zeta.
    - simpl. do 3 (split; [done|]). split; [intros u Hu; lia|by intros u _].
    - rewrite fold_left_seq_S. cbv zeta in IH.
      destruct IH as (L1 & L2 & L3 & Hdone & Hrest); [lia|].
      destruct (fold_left _ (seq 0 m) (x, keys, vals)) as [[x1 k1] v1].
      simpl in L1, L2, L3, Hdone, Hrest. simpl.
      destruct (Hrest m (le_n m)) as [Hxm Hkm]. rewrite Hkm.
      set (x2 := if (keys !!! m =? m) && (active !!! m)
                 then <[m:=1%Z]> x1 else x1).
      assert (Lx2 : length x2 = n).
      { unfold x2. destruct (_ && _); [by rewrite length_insert|done]. }
      assert (Hx2 : ∀ u, x2 !!! u =
                if decide (u = m)
                then (if (keys !!! m =? m) && (active !!! m)
                      then 1%Z else x !!! m)
                else x1 !!! u).
      { intros u. unfold x2. destruct (_ && _); case_decide; subst.
        - apply list_lookup_total_insert_eq. lia.
        - by apply list_lookup_total_insert_ne.
        - done.
        - done. }
      clearbody x2.
      split; [done|]. split; [by rewrite length_insert|].
      split; [by rewrite length_insert|]. split.
      + intros u Hu. rewrite !Hx2. rewrite (decide_True (P := m = m)) by done.
        destruct (decide (u = m)) as [->|Hum].
        * by rewrite !list_lookup_total_insert_eq by lia.
        * rewrite !list_lookup_total_insert_ne by done. apply Hdone. lia.
      + intros u Hu. rewrite Hx2, decide_False by lia.
        rewrite list_lookup_total_insert_ne by lia. apply Hrest. lia. }
  destruct (H n (le_n n)) as (L1 & L2 & L3 & Hdone & _). done.
Qed.

Lemma misk_retire_spec n y active keys vals :
  length active = n → length keys = n → length vals = n →
  let r := misk_retire n y active keys vals in
  length r.1.1.1 = n ∧ length r.1.1.2 = n ∧ length r.1.2 = n
  ∧ (∀ u, u < n →
       r.1.1.1 !!! u = (if Qeq_bool (vals !!! u) 1 then false else active !!! u)
       ∧ r.1.1.2 !!! u = u
       ∧ r.1.2 !!! u = (if Qeq_bool (vals !!! u) 1 then (-1)%Q else y !!! u))
  ∧ (r.2 = true ↔ ∃ u, u < n ∧ Qeq_bool (vals !!! u) 1 = false).
Proof.
  intros Ha Hk Hv. unfold misk_retire. cbv zeta.
  assert (H : ∀ m, m ≤ n →
    let r := fold_left (λ '(active, i_keys, i_vals, work_left) i,
               if Qeq_bool (i_vals !!! i) 1
               then (<[i:=false]> active, <[i:=i]> i_keys,
                     <[i := (-1)%Q]> i_vals, work_left)
               else (active, <[i:=i]> i_keys, <[i := y !!! i]> i_vals, true))
             (seq 0 m) (active, keys, vals, false) in
    length r.1.1.1 = n ∧ length r.1.1.2 = n ∧ length r.1.2 = n
    ∧ (∀ u, u < m →
         r.1.1.1 !!! u = (if Qeq_bool (vals !!! u) 1 then false
                          else active !!! u)
         ∧ r.1.1.2 !!! u = u
         ∧ r.1.2 !!! u = (if Qeq_bool (vals !!! u) 1 then (-1)%Q
                          else y !!! u))
    ∧ (∀ u, m ≤ u → r.1.1.1 !!! u = active !!! u ∧ r.1.2 !!! u = vals !!! u)
    ∧ (r.2 = true ↔ ∃ u, u < m ∧ Qeq_bool (vals !!! u) 1 = false)).
  { induction m as [|m IH]; intros Hm; cbv zeta.
    - simpl. do 3 (split; [done|]). split; [intros u Hu; lia|].
      split; [by intros u _|]. split; [done|]. intros (u & Hu & _). lia.
    - rewrite fold_left_seq_S. cbv zeta in IH.
      destruct IH as (L1 & L2 & L3 & Hdone & Hrest & Hwl); [lia|].
      destruct (fold_left _ (seq 0 m) (active, keys, vals, false))
        as [[[a1 k1] v1] wl].
      simpl in L1, L2, L3, Hdone, Hrest, Hwl. simpl.
      destruct (Hrest m (le_n m)) as [Ham Hvm]. rewrite Hvm.
      destruct (Qeq_bool (vals !!! m) 1) eqn:E; simpl.
      + split; [by rewrite length_insert|]. split; [by rewrite length_insert|].
        split; [by rewrite length_insert|]. split; [|split].
        * intros u Hu. destruct (decide (u = m)) as [->|Hne].
          -- rewrite !list_lookup_total_insert_eq by lia. by rewrite E.
          -- rewrite !list_lookup_total_insert_ne by done. apply Hdone. lia.
        * intros u Hu. rewrite !list_lookup_total_insert_ne by lia.
          apply Hrest. lia.
        * rewrite Hwl. split; intros (u & Hu & Hne).
          -- exists u. split; [lia|done].
          -- exists u. split; [|done].
             destruct (decide (u = m)) as [->|?]; [congruence|lia].
      + split; [done|]. split; [by rewrite length_insert|].
        split; [by rewrite length_insert|]. split; [|split].
        * intros u Hu. destruct (decide (u = m)) as [->|Hne].
          -- rewrite !list_lookup_total_insert_eq by lia. by rewrite E.
          -- rewrite !list_lookup_total_insert_ne by done. apply Hdone. lia.
        * intros u Hu. rewrite !list_lookup_total_insert_ne by lia.
          apply Hrest. lia.
        * split; [|done]. intros _. exists m. split; [lia|done]. }
  destruct (H n (le_n n)) as (L1 & L2 & L3 & Hdone & _ & Hwl). done.
Qed.

Lemma misk_init_spec n x y :
  length x = n →
  let s := misk_init n x y in
  length (misk_x s) = n ∧ length (misk_active s) = n
  ∧ length (misk_i_keys s) = n ∧ length (misk_o_keys s) = n
  ∧ length (misk_i_vals s) = n ∧ length (misk_o_vals s) = n
  ∧ ∀ u, u < n →
      misk_x s !!! u = 0%Z ∧ misk_i_keys s !!! u = u
      ∧ misk_active s !!! u = true ∧ misk_i_vals s !!! u = y !!! u.
Proof.
  intros Hx. unfold misk_init. cbv zeta.
  assert (H : ∀ m, m ≤ n →
    let r := fold_left (λ '(x, i_keys, i_vals) i,
               (<[i:=0%Z]> x, <[i:=i]> i_keys, <[i := y !!! i]> i_vals))
             (seq 0 m) (x, replicate n 0, replicate n 0%Q) in
    length r.1.1 = n ∧ length r.1.2 = n ∧ length r.2 = n
    ∧ ∀ u, u < m →
        r.1.1 !!! u = 0%Z ∧ r.1.2 !!! u = u ∧ r.2 !!! u = y !!! u).
  { induction m as [|m IH]; intros Hm; cbv zeta.
    - simpl. rewrite !length_replicate. do 3 (split; [done|]). intros u Hu. lia.
    - rewrite fold_left_seq_S. cbv zeta in IH.
      destruct IH as (L1 & L2 & L3 & Hdone); [lia|].
      destruct (fold_left _ (seq 0 m) _) as [[x1 k1] v1].
      simpl in L1, L2, L3, Hdone. simpl.
      rewrite !length_insert. do 3 (split; [done|]).
      intros u Hu. destruct (decide (u = m)) as [->|Hne].
      + by rewrite !list_lookup_total_insert_eq by lia.
      + rewrite !list_lookup_total_insert_ne by done. apply Hdone. lia. }
  destruct (H n (le_n n)) as (L1 & L2 & L3 & Hdone).
  destruct (fold_left _ (seq 0 n) _) as [[x1 k1] v1]. simpl in *.
  rewrite !length_replicate. do 6 (split; [done|]).
  intros u Hu. destruct (Hdone u Hu) as (? & ? & ?). do 2 (split; [done|]).
  split; [|done]. by apply list_lookup_total_correct, lookup_replicate_2.
Qed.

Section MisK.
Variables (n : nat) (Ap Aj : list nat) (k : nat) (y : list Q).
Hypothesis Hcols : csr_cols_ok n Ap Aj.

(** The six arrays have length [n] and [i_keys] is the identity. *)
Record misk_shape (s : misk_state) : Prop := MiskShape {
  ms_x_len : length (misk_x s) = n;
  ms_active_len : length (misk_active s) = n;
  ms_i_keys_len : length (misk_i_keys s) = n;
  ms_o_keys_len : length (misk_o_keys s) = n;
  ms_i_vals_len : length (misk_i_vals s) = n;
  ms_o_vals_len : length (misk_o_vals s) = n;
  ms_keys : ∀ u, u < n → misk_i_keys s !!! u = u
}.

(** Vertex [u] is within [k] edges of a vertex that holds 1 in [x]. *)
Definition near_set (x : list Z) (u : nat) : Prop :=
  ∃ w d, d ≤ k ∧ walk n Ap Aj u d w ∧ x !!! w = 1%Z.

(** What one iteration of the outer loop does, cell by cell: [keys1] is
    [i_keys] after the first [k] propagations and [vals3] is [i_vals]
    after the second [k]. *)
Record misk_round_rel (s s1 : misk_state) (work_left : bool)
    (keys1 : list nat) (vals3 : list Q) : Prop := MiskRoundRel {
  mr_shape : misk_shape s1;
  mr_keys1_bound : ∀ u, u < n → keys1 !!! u < n;
  mr_keys1 : ∀ u w d, d ≤ k → walk n Ap Aj u d w →
    lex_le w (misk_i_vals s !!! w)
      (keys1 !!! u) (misk_i_vals s !!! (keys1 !!! u));
  mr_x : ∀ u, u < n →
    misk_x s1 !!! u = (if (keys1 !!! u =? u) && (misk_active s !!! u)
                       then 1%Z else misk_x s !!! u);
  mr_vals3_max : ∀ u w d, d ≤ k → walk n Ap Aj u d w →
    (inject_Z (misk_x s1 !!! w) <= vals3 !!! u)%Q;
  mr_vals3_at : ∀ u, u < n →
    ∃ w d, d ≤ k ∧ walk n Ap Aj u d w
           ∧ vals3 !!! u = inject_Z (misk_x s1 !!! w);
  mr_active : ∀ u, u < n →
    misk_active s1 !!! u =
      (if Qeq_bool (vals3 !!! u) 1 then false else misk_active s !!! u);
  mr_i_vals : ∀ u, u < n →
    misk_i_vals s1 !!! u =
      (if Qeq_bool (vals3 !!! u) 1 then (-1)%Q else y !!! u);
  mr_work_left :
    work_left = true ↔ ∃ u, u < n ∧ Qeq_bool (vals3 !!! u) 1 = false
}.

Lemma misk_round_unfold s :
  misk_shape s →
  ∃ keys1 vals3,
    misk_round_rel s (misk_round n Ap Aj k y s).1
      (misk_round n Ap Aj k y s).2 keys1 vals3.
Proof.
  intros [Lx La Lik Lok Liv Lov Hkeys].
  unfold misk_round. destruct s as [x active i_keys o_keys i_vals o_vals].
  simpl in *.
  (* the first [k] propagations *)
  pose proof (propagated_0 n Ap Aj Hcols i_keys i_vals Lik Liv Hkeys) as Hp0.
  destruct (misk_propagate_spec n Ap Aj Hcols i_vals k 0 i_keys o_keys
              i_vals o_vals Hp0 Lok Lov) as (Hp1 & Lok1 & Lov1).
  cbv zeta in Hp1, Lok1, Lov1.
  destruct (misk_propagate k n Ap Aj i_keys o_keys i_vals o_vals)
    as [[[keys1 okeys1] vals1] ovals1].
  simpl in Hp1, Lok1, Lov1. destruct Hp1 as (Lk1 & Lv1 & Hmax1).
  (* promotion *)
  destruct (misk_promote_spec n x active keys1 vals1 Lx Lk1 Lv1)
    as (Lx2 & Lk2 & Lv2 & Hprom).
  cbv zeta in Lx2, Lk2, Lv2, Hprom.
  destruct (misk_promote n x active keys1 vals1) as [[x2 keys2] vals2].
  simpl in Lx2, Lk2, Lv2, Hprom.
  (* the second [k] propagations *)
  assert (Hid2 : ∀ u, u < n → keys2 !!! u = u).
  { intros u Hu. by destruct (Hprom u Hu) as (_ & ? & _). }
  pose proof (propagated_0 n Ap Aj Hcols keys2 vals2 Lk2 Lv2 Hid2) as Hq0.
  destruct (misk_propagate_spec n Ap Aj Hcols vals2 k 0 keys2 okeys1
              vals2 ovals1 Hq0 Lok1 Lov1) as (Hq1 & Lok3 & Lov3).
  cbv zeta in Hq1, Lok3, Lov3.
  destruct (misk_propagate k n Ap Aj keys2 okeys1 vals2 ovals1)
    as [[[keys3 okeys3] vals3] ovals3].
  simpl in Hq1, Lok3, Lov3. destruct Hq1 as (Lk3 & Lv3 & Hmax3).
  (* retirement *)
  destruct (misk_retire_spec n y active keys3 vals3 La Lk3 Lv3)
    as (La4 & Lk4 & Lv4 & Hretire & Hwl).
  cbv zeta in La4, Lk4, Lv4, Hretire, Hwl.
  destruct (misk_retire n y active keys3 vals3)
    as [[[active4 keys4] vals4] work_left].
  simpl in La4, Lk4, Lv4, Hretire, Hwl. simpl.
  exists keys1, vals3. split; simpl.
  - split; simpl; try done. intros u Hu. by destruct (Hretire u Hu) as (_ & ? & _).
  - intros u Hu. by destruct (Hmax1 u Hu) as (? & _).
  - intros u w d Hd Hwalk.
    destruct (Hmax1 u (walk_start _ _ _ _ _ _ Hwalk)) as (_ & _ & _ & Hmax).
    apply (Hmax w d); [lia|done].
  - intros u Hu. by destruct (Hprom u Hu) as (? & _).
  - intros u w d Hd Hwalk.
    destruct (Hmax3 u (walk_start _ _ _ _ _ _ Hwalk)) as (HK & HV & _ & Hmax).
    specialize (Hmax w d ltac:(lia) Hwalk). apply lex_le_value in Hmax.
    destruct (Hprom w (walk_bound _ _ _ _ _ _ Hwalk)) as (_ & _ & Hvw).
    by rewrite HV, <- Hvw.
  - intros u Hu. destruct (Hmax3 u Hu) as (HK & HV & (d & Hd & Hwalk) & _).
    exists (keys3 !!! u), d. split; [lia|]. split; [done|].
    destruct (Hprom (keys3 !!! u) HK) as (_ & _ & HvK). by rewrite HV.
  - intros u Hu. by destruct (Hretire u Hu) as (? & _).
  - intros u Hu. by destruct (Hretire u Hu) as (_ & _ & ?).
  - done.
Qed.

(** After the second propagation a cell holds 1 exactly at the vertices
    within [k] edges of the set. *)
Lemma misk_round_near s s1 work_left keys1 vals3 u :
  misk_round_rel s s1 work_left keys1 vals3 →
  (∀ w, w < n → misk_x s1 !!! w = 0%Z ∨ misk_x s1 !!! w = 1%Z) →
  u < n →
  Qeq_bool (vals3 !!! u) 1 = true ↔ near_set (misk_x s1) u.
Proof.
  intros Hrel Hx01 Hu. rewrite Qeq_bool_iff. split.
  - intros Heq.
    destruct (mr_vals3_at _ _ _ _ _ Hrel u Hu) as (w & d & Hd & Hwalk & Hval).
    exists w, d. split; [done|]. split; [done|].
    destruct (Hx01 w (walk_bound _ _ _ _ _ _ Hwalk)) as [H0|H1]; [|done].
    rewrite Hval, H0 in Heq. by compute in Heq.
  - intros (w & d & Hd & Hwalk & Hw).
    pose proof (mr_vals3_max _ _ _ _ _ Hrel u w d Hd Hwalk) as Hle.
    rewrite Hw in Hle.
    destruct (mr_vals3_at _ _ _ _ _ Hrel u Hu) as (w' & d' & _ & Hwalk' & Hval).
    rewrite Hval in Hle |- *.
    destruct (Hx01 w' (walk_bound _ _ _ _ _ _ Hwalk')) as [H0|H1].
    + rewrite H0 in Hle. compute in Hle. by exfalso.
    + by rewrite H1.
Qed.

Hypothesis Hsym : csr_symmetric n Ap Aj.

(** The state between two iterations of the outer loop: cells of [x] are
    0 or 1, the retired vertices are those within [k] edges of the set,
    and two vertices in the set are more than [k] edges apart. *)
Record misk_inv (s : misk_state) : Prop := MiskInv {
  mi_shape : misk_shape s;
  mi_x01 : ∀ u, u < n → misk_x s !!! u = 0%Z ∨ misk_x s !!! u = 1%Z;
  mi_retired : ∀ u, u < n →
    misk_active s !!! u = false ↔ near_set (misk_x s) u;
  mi_apart : ∀ u v d, u ≠ v → misk_x s !!! u = 1%Z → misk_x s !!! v = 1%Z →
    d ≤ k → ¬ walk n Ap Aj u d v
}.

Lemma misk_inv_init x :
  length x = n → misk_inv (misk_init n x y).
Proof.
  intros Hx.
  destruct (misk_init_spec n x y Hx) as (L1 & L2 & L3 & L4 & L5 & L6 & Hc).
  split.
  - split; try done. intros u Hu. by destruct (Hc u Hu) as (_ & ? & _).
  - intros u Hu. left. by destruct (Hc u Hu).
  - intros u Hu. destruct (Hc u Hu) as (_ & _ & -> & _). split; [done|].
    intros (w & d & _ & Hwalk & Hw).
    destruct (Hc w (walk_bound _ _ _ _ _ _ Hwalk)) as [Hw0 _]. congruence.
  - intros u v d _ Hu _ _ Hwalk.
    destruct (Hc u (walk_start _ _ _ _ _ _ Hwalk)) as [Hu0 _]. congruence.
Qed.

Lemma misk_inv_rel s s1 work_left keys1 vals3 :
  misk_inv s → misk_round_rel s s1 work_left keys1 vals3 → misk_inv s1.
Proof.
  intros [Hshape Hx01 Hret Hapart] Hrel.
  assert (Hx1 : ∀ u, u < n →
            misk_x s1 !!! u = 1%Z ↔
            (keys1 !!! u = u ∧ misk_active s !!! u = true)
            ∨ misk_x s !!! u = 1%Z).
  { intros u Hu. rewrite (mr_x _ _ _ _ _ Hrel u Hu).
    destruct (Nat.eqb_spec (keys1 !!! u) u) as [Hk|Hk];
      destruct (misk_active s !!! u); simpl; split; auto;
      intros [[? ?]|?]; done. }
  assert (Hx1_01 : ∀ u, u < n →
            misk_x s1 !!! u = 0%Z ∨ misk_x s1 !!! u = 1%Z).
  { intros u Hu. rewrite (mr_x _ _ _ _ _ Hrel u Hu).
    destruct (_ && _); [by right|by apply Hx01]. }
  split.
  - apply (mr_shape _ _ _ _ _ Hrel).
  - done.
  - (* the retired vertices are those near the set *)
    intros u Hu. rewrite (mr_active _ _ _ _ _ Hrel u Hu).
    rewrite <- (misk_round_near s s1 work_left keys1 vals3 u Hrel Hx1_01 Hu).
    destruct (Qeq_bool (vals3 !!! u) 1) eqn:E; [done|].
    split; [|done]. intros Hold. exfalso.
    apply (Hret u Hu) in Hold as (w & d & Hd & Hwalk & Hw).
    apply not_true_iff_false in E. apply E.
    apply (misk_round_near s s1 work_left keys1 vals3 u Hrel Hx1_01 Hu).
    exists w, d. split; [done|]. split; [done|].
    apply (Hx1 w (walk_bound _ _ _ _ _ _ Hwalk)). by right.
  - (* two vertices of the set are more than [k] edges apart *)
    intros u v d Huv Hu1 Hv1 Hd Hwalk.
    pose proof (walk_start _ _ _ _ _ _ Hwalk) as Hu.
    pose proof (walk_bound _ _ _ _ _ _ Hwalk) as Hv.
    pose proof (walk_sym n Ap Aj Hsym u d v Hwalk) as Hback.
    destruct (proj1 (Hx1 u Hu) Hu1) as [[Hku Hau]|Hu1'];
      destruct (proj1 (Hx1 v Hv) Hv1) as [[Hkv Hav]|Hv1'].
    + (* both promoted in this round *)
      pose proof (mr_keys1 _ _ _ _ _ Hrel u v d Hd Hwalk) as Hmaxu.
      pose proof (mr_keys1 _ _ _ _ _ Hrel v u d Hd Hback) as Hmaxv.
      rewrite Hku in Hmaxu. rewrite Hkv in Hmaxv.
      apply Huv. symmetry. by apply (lex_le_antisym _ _ _ _ Hmaxu Hmaxv).
    + (* [v] was in the set and [u] was still active *)
      assert (misk_active s !!! u = false); [|congruence].
      apply (Hret u Hu). by exists v, d.
    + assert (misk_active s !!! v = false); [|congruence].
      apply (Hret v Hv). by exists u, d.
    + by apply (Hapart u v d).
Qed.

Lemma misk_inv_round s :
  misk_inv s → misk_inv (misk_round n Ap Aj k y s).1.
Proof.
  intros Hinv.
  destruct (misk_round_unfold s (mi_shape s Hinv)) as (keys1 & vals3 & Hrel).
  exact (misk_inv_rel s _ _ keys1 vals3 Hinv Hrel).
Qed.

Lemma misk_inv_for fuel max_iters iter s s' :
  misk_inv s →
  misk_for fuel n Ap Aj k y max_iters iter s = Some s' → misk_inv s'.
Proof.
  revert iter s. induction fuel as [|fuel IH]; intros iter s Hinv; simpl.
  - destruct (_ || _); [done|]. by intros [= <-].
  - destruct (_ || _); [|by intros [= <-]].
    pose proof (misk_inv_round s Hinv) as Hround.
    destruct (misk_round n Ap Aj k y s) as [s1 work_left]. simpl in Hround.
    destruct work_left; simpl; [by apply IH|by intros [= <-]].
Qed.
End MisK.

(** *** The loop of the distance-k kernel ends when the weights exceed -1 *)

Section MisKEnds.
Variables (n : nat) (Ap Aj : list nat) (k : nat) (y : list Q).
Hypothesis Hcols : csr_cols_ok n Ap Aj.
Hypothesis Hsym : csr_symmetric n Ap Aj.
Hypothesis Hy : ∀ u, u < n → (-1 < y !!! u)%Q.

(** Between two iterations [i_vals] holds the weight of every vertex that
    is still active and -1 for the others. *)
Record misk_live (s : misk_state) : Prop := MiskLive {
  ml_inv : misk_inv n Ap Aj k s;
  ml_vals : ∀ u, u < n →
    misk_i_vals s !!! u =
      (if (misk_active s !!! u : bool) then y !!! u else (-1)%Q)
}.

Lemma misk_live_rel s s1 work_left keys1 vals3 :
  misk_live s → misk_round_rel n Ap Aj k y s s1 work_left keys1 vals3 →
  misk_live s1
  ∧ (count_of true (misk_active s) = 0 → work_left = false)
  ∧ (0 < count_of true (misk_active s) →
     count_of true (misk_active s1) < count_of true (misk_active s)).
Proof.
  intros [Hinv Hvals] Hrel.
  pose proof (misk_inv_rel n Ap Aj k y Hsym s s1 work_left keys1 vals3
                Hinv Hrel) as Hinv1.
  pose proof (mi_shape _ _ _ _ _ Hinv) as Hshape.
  pose proof (mi_shape _ _ _ _ _ Hinv1) as Hshape1.
  assert (Hgrow : ∀ u, near_set n Ap Aj k (misk_x s) u →
                       near_set n Ap Aj k (misk_x s1) u).
  { intros u (w & d & Hd & Hwalk & Hw). exists w, d.
    split; [done|]. split; [done|].
    rewrite (mr_x _ _ _ _ _ _ _ _ _ _ Hrel w (walk_bound _ _ _ _ _ _ Hwalk)).
    rewrite Hw. by destruct (_ && _). }
  assert (Hnear : ∀ u, u < n →
            Qeq_bool (vals3 !!! u) 1 = true ↔ near_set n Ap Aj k (misk_x s1) u).
  { intros u Hu.
    apply (misk_round_near n Ap Aj k y s s1 work_left keys1 vals3 u Hrel);
      [|done].
    apply (mi_x01 _ _ _ _ _ Hinv1). }
  assert (Hout : ∀ u, u < n → Qeq_bool (vals3 !!! u) 1 = false →
            misk_active s !!! u = true).
  { intros u Hu E. destruct (misk_active s !!! u) eqn:Ea; [done|].
    exfalso. apply not_true_iff_false in E. apply E, Hnear; [done|].
    by apply Hgrow, (mi_retired _ _ _ _ _ Hinv u Hu). }
  split; [|split].
  - split; [done|]. intros u Hu.
    rewrite (mr_i_vals _ _ _ _ _ _ _ _ _ _ Hrel u Hu).
    rewrite (mr_active _ _ _ _ _ _ _ _ _ _ Hrel u Hu).
    destruct (Qeq_bool (vals3 !!! u) 1) eqn:E; [done|].
    by rewrite (Hout u Hu E).
  - intros H0. destruct work_left; [|done]. exfalso.
    destruct (proj1 (mr_work_left _ _ _ _ _ _ _ _ _ _ Hrel) eq_refl)
      as (u & Hu & E).
    destruct (count_of_cases true (misk_active s)) as [[_ Hnone]|[Hpos _]];
      [|lia].
    apply (Hnone u); [by rewrite (ms_active_len _ _ Hshape)|].
    by apply Hout.
  - intros Hpos.
    destruct (count_of_cases true (misk_active s))
      as [[Hzero _]|[_ (a & Ha & Haact)]]; [lia|].
    rewrite (ms_active_len _ _ Hshape) in Ha.
    destruct (largest_such (λ _, True) (misk_i_vals s) n)
      as [Hnone|(g & Hg & _ & Hmax)].
    { exfalso. by apply (Hnone a). }
    (* the largest vertex is active *)
    assert (Hgact : misk_active s !!! g = true).
    { destruct (misk_active s !!! g) eqn:Eg; [done|]. exfalso.
      pose proof (Hmax a Ha I) as Hle. apply lex_le_value in Hle.
      rewrite (Hvals a Ha), Haact, (Hvals g Hg), Eg in Hle.
      specialize (Hy a Ha). lra. }
    (* it sees itself as the largest within [k] edges, and is promoted *)
    assert (Hkg : keys1 !!! g = g).
    { pose proof (mr_keys1_bound _ _ _ _ _ _ _ _ _ _ Hrel g Hg) as HK.
      pose proof (mr_keys1 _ _ _ _ _ _ _ _ _ _ Hrel g g 0 ltac:(lia)
                    ltac:(by constructor)) as Hle1.
      pose proof (Hmax (keys1 !!! g) HK I) as Hle2.
      symmetry. by apply (lex_le_antisym _ _ _ _ Hle1 Hle2). }
    assert (Hg1 : misk_x s1 !!! g = 1%Z).
    { rewrite (mr_x _ _ _ _ _ _ _ _ _ _ Hrel g Hg), Hkg, Nat.eqb_refl, Hgact.
      done. }
    assert (Hgoff : misk_active s1 !!! g = false).
    { apply (mi_retired _ _ _ _ _ Hinv1 g Hg). exists g, 0.
      split; [lia|]. split; [by constructor|done]. }
    destruct (count_of_shrinks true (misk_active s) (misk_active s1))
      as [_ Hless].
    { by rewrite (ms_active_len _ _ Hshape), (ms_active_len _ _ Hshape1). }
    { intros w Hw. rewrite (ms_active_len _ _ Hshape) in Hw.
      rewrite (mr_active _ _ _ _ _ _ _ _ _ _ Hrel w Hw).
      by destruct (Qeq_bool _ _). }
    apply (Hless g); [by rewrite (ms_active_len _ _ Hshape)|done|].
    by rewrite Hgoff.
Qed.

Lemma misk_for_returns fuel max_iters iter s :
  misk_live s → count_of true (misk_active s) < fuel →
  ∃ s', misk_for fuel n Ap Aj k y max_iters iter s = Some s'.
Proof.
  revert iter s. induction fuel as [|fuel IH]; intros iter s Hlive Hfuel;
    [lia|].
  cbn [misk_for]. destruct (_ || _); [|by eexists].
  destruct (misk_round_unfold n Ap Aj k y Hcols s
              (mi_shape _ _ _ _ _ (ml_inv s Hlive))) as (keys1 & vals3 & Hrel).
  destruct (misk_live_rel s _ _ keys1 vals3 Hlive Hrel)
    as (Hlive1 & Hidle & Hless).
  destruct (misk_round n Ap Aj k y s) as [s1 work_left]. simpl in *.
  destruct work_left; simpl; [|by eexists].
  apply IH; [done|].
  destruct (count_of_cases true (misk_active s)) as [[H0 _]|[Hpos _]].
  - by specialize (Hidle H0).
  - specialize (Hless Hpos). lia.
Qed.

Lemma misk_live_init x : length x = n → misk_live (misk_init n x y).
Proof.
  intros Hx. split; [by apply misk_inv_init|].
  destruct (misk_init_spec n x y Hx) as (_ & _ & _ & _ & _ & _ & Hc).
  intros u Hu. destruct (Hc u Hu) as (_ & _ & -> & ->). done.
Qed.

Lemma misk_returns fuel max_iters x :
  length x = n → n < fuel →
  ∃ x', maximal_independent_set_k_parallel fuel n Ap Aj k x y max_iters
        = Some x'.
Proof.
  intros Hx Hfuel. unfold maximal_independent_set_k_parallel.
  destruct (misk_for_returns fuel max_iters 0%Z (misk_init n x y)) as [s' ->].
  - by apply misk_live_init.
  - destruct (misk_init_spec n x y Hx) as (_ & La & _).
    pose proof (count_of_le true (misk_active (misk_init n x y))). lia.
  - by eexists.
Qed.
End MisKEnds.

(** Weights at or below -1 can keep the unbounded loop from ending: on the
    path 0-1-2 with [k = 1] and weights -5, -3, 0, vertex 2 is promoted,
    vertex 0 stays active and loses every later round to the retired
    vertex 1, whose value is -1. *)
Definition misk_low_y : list Q := [-5; -3; 0]%Q.

Definition misk_low_state : misk_state :=
  MiskState [0; 0; 1]%Z [true; false; false] [0; 1; 2] [0; 1; 2]
    [-5; -1; -1]%Q [0; 0; 1]%Q.

Lemma misk_low_round :
  misk_round 3 path3_Ap path3_Aj 1 misk_low_y (misk_init 3 [0; 0; 0]%Z misk_low_y)
    = (misk_low_state, true)
  ∧ misk_round 3 path3_Ap path3_Aj 1 misk_low_y misk_low_state
    = (misk_low_state, true).
Proof. split; reflexivity. Qed.

Lemma misk_low_spins fuel iter :
  misk_for fuel 3 path3_Ap path3_Aj 1 misk_low_y (-1) iter misk_low_state = None.
Proof.
  revert iter. induction fuel as [|fuel IH]; intros iter; [done|].
  cbn [misk_for Z.eqb orb]. rewrite (proj2 misk_low_round). apply IH.
Qed.

Lemma misk_low_weights_never_return fuel :
  maximal_independent_set_k_parallel fuel 3 path3_Ap path3_Aj 1
    [0; 0; 0]%Z misk_low_y (-1) = None.
Proof.
  unfold maximal_independent_set_k_parallel.
  destruct fuel as [|fuel]; [done|].
  cbn [misk_for Z.eqb orb]. rewrite (proj1 misk_low_round).
  cbn [negb]. by rewrite misk_low_spins.
Qed.

(** C9.  On a symmetric graph, whatever the weights [y], the separation [k]
    and the bound [max_iters] ([-1] for none), any two distinct vertices
    that hold 1 when [maximal_independent_set_k_parallel] returns are more
    than [k] edges apart: no walk of at most [k] edges joins them.  With
    weights above -1 the call does return. *)
Theorem misk_promoted_far_apart (n : nat) (Ap Aj : list nat) (k : nat)
    (x : list Z) (y : list Q) (max_iters : Z) :
  csr_cols_ok n Ap Aj → csr_symmetric n Ap Aj → length x = n →
  (∀ fuel x',
     maximal_independent_set_k_parallel fuel n Ap Aj k x y max_iters = Some x' →
     ∀ u v d, u ≠ v → x' !!! u = 1%Z → x' !!! v = 1%Z → d ≤ k →
       ¬ walk n Ap Aj u d v)
  ∧ ((∀ u, u < n → (-1 < y !!! u)%Q) →
     ∀ fuel, n < fuel →
       ∃ x', maximal_independent_set_k_parallel fuel n Ap Aj k x y max_iters
             = Some x').
Proof.
  intros Hcols Hsym Hx. split.
  - intros fuel x' Hrun. unfold maximal_independent_set_k_parallel in Hrun.
    destruct (misk_for _ _ _ _ _ _ _ _ _) as [s'|] eqn:Hfor; [|done].
    injection Hrun as <-.
    apply (misk_inv_for n Ap Aj k y Hcols Hsym) in Hfor;
      [|by apply misk_inv_init].
    apply (mi_apart _ _ _ _ _ Hfor).
  - intros Hy fuel Hfuel. by apply misk_returns.
Qed.

Lemma misk_promoted_far_apart_witness :
  maximal_independent_set_k_parallel 6 5 path5_Ap path5_Aj 2
    [7; 7; 7; 7; 7]%Z [1#2; 1#3; 1#4; 1#5; 1#6]%Q (-1)
    = Some [1; 0; 0; 1; 0]%Z
  ∧ ∀ d, d ≤ 2 → ¬ walk 5 path5_Ap path5_Aj 0 d 3.
Proof.
  split; [reflexivity|]. intros d.
  destruct (misk_promoted_far_apart 5 path5_Ap path5_Aj 2
              [7; 7; 7; 7; 7]%Z [1#2; 1#3; 1#4; 1#5; 1#6]%Q (-1))
    as [Hfar _].
  - apply csr_cols_okb_sound. vm_compute. reflexivity.
  - apply csr_symmetricb_sound. vm_compute. reflexivity.
  - reflexivity.
  - apply (Hfar 6 [1; 0; 0; 1; 0]%Z); [reflexivity|lia|reflexivity|reflexivity].
Defined.

(** * Further properties of the kernels *)

(** ** Counting cells *)

Lemma count_of_insert `{EqDecision A} `{!Inhabited A} (a v : A) (l : list A) i :
  i < length l →
  count_of a (<[i:=v]> l) + (if decide (l !!! i = a) then 1 else 0)
  = count_of a l + (if decide (v = a) then 1 else 0).
Proof.
  unfold count_of. revert i. induction l as [|b l IH]; simpl; [lia|].
  intros [|i] Hi; simpl.
  - rewrite !filter_cons. repeat case_decide; simpl; lia.
  - rewrite !filter_cons. specialize (IH i ltac:(lia)).
    change ((b :: l) !!! S i) with (l !!! i).
    repeat case_decide; simpl in *; lia.
Qed.

Lemma count_of_mark_row active F C js x :
  active ≠ C → F ≠ C →
  count_of C (mis_mark_row active F x js) = count_of C x.
Proof.
  intros HA HF. revert x. induction js as [|j js IH]; intros x; simpl; [done|].
  destruct (Z.eqb_spec (x !!! j) active) as [Hj|Hj]; [|apply IH].
  rewrite IH. destruct (decide (j < length x)) as [Hlt|Hge].
  - pose proof (count_of_insert C F x j Hlt) as H.
    rewrite !decide_False in H by congruence. lia.
  - by rewrite list_insert_ge by lia.
Qed.

(** ** maximal_independent_set_serial: the set is maximal *)

Section MisSerialMaximal.
Variables (n : nat) (Ap Aj : list nat) (active C F : Z) (x0 : list Z).
Hypothesis Hlen0 : length x0 = n.
Hypothesis HAC : active ≠ C.
Hypothesis HAF : active ≠ F.
Hypothesis HCF : C ≠ F.

(** What one visit of an active vertex [i] leaves in each cell. *)
Lemma mis_serial_step_lookup x N i w :
  i < length x → w < length x → x !!! i = active →
  (mis_serial_step Ap Aj active C F (x, N) i).1 !!! w
  = if decide (w = i) then C
    else if decide (w ∈ row Ap Aj i ∧ x !!! w = active) then F else x !!! w.
Proof.
  intros Hi Hw Hact. unfold mis_serial_step.
  rewrite Hact, Z.eqb_refl. simpl.
  rewrite mis_mark_row_lookup by (by rewrite length_insert).
  destruct (decide (w = i)) as [->|Hne].
  - rewrite list_lookup_total_insert_eq by done.
    case_decide as H; [|done]. destruct H; congruence.
  - by rewrite list_lookup_total_insert_ne.
Qed.

(** The state after the first [m] vertices were visited: [N] cells turned
    into [C], all of them below [m]; every vertex that turned into [F] is
    in the row of an earlier one that turned into [C]; and a vertex in the
    row of one that turned into [C] has turned into [F], unless it turned
    into [C] before. *)
Record mis_serial_max_inv (m : nat) (x : list Z) (N : nat) : Prop := {
  msm_len : length x = n;
  msm_frame : ∀ w, w < n → x0 !!! w ≠ active → x !!! w = x0 !!! w;
  msm_cases : ∀ w, w < n → x0 !!! w = active →
    x !!! w = active ∨ x !!! w = C ∨ x !!! w = F;
  msm_done : ∀ w, w < m → x !!! w ≠ active;
  msm_early : ∀ w, w < n → x0 !!! w = active → x !!! w = C → w < m;
  msm_demoted : ∀ w, w < n → x0 !!! w = active → x !!! w = F →
    ∃ u, u < w ∧ promoted active C x0 x u ∧ w ∈ row Ap Aj u;
  msm_first : ∀ u w, u < n → w < n → u ≠ w → promoted active C x0 x u →
    w ∈ row Ap Aj u → x0 !!! w = active →
    x !!! w = F ∨ (x !!! w = C ∧ w < u);
  msm_count : count_of C x = count_of C x0 + N
}.

Lemma mis_serial_max_inv_step m x N :
  m < n → mis_serial_max_inv m x N →
  mis_serial_max_inv (S m) (mis_serial_step Ap Aj active C F (x, N) m).1
    (mis_serial_step Ap Aj active C F (x, N) m).2.
Proof.
  intros Hm [Hlen Hframe Hcases Hdone Hearly Hdem Hfirst Hcount].
  destruct (decide (x !!! m = active)) as [Hact|Hact].
  - assert (Hcell := λ w (Hw : w < n),
      mis_serial_step_lookup x N m w ltac:(lia) ltac:(lia) Hact).
    assert (Hx0m : x0 !!! m = active).
    { destruct (decide (x0 !!! m = active)) as [|Hne]; [done|].
      rewrite <- (Hframe m Hm Hne) in Hne. done. }
    assert (HN : (mis_serial_step Ap Aj active C F (x, N) m).2 = S N).
    { unfold mis_serial_step. by rewrite Hact, Z.eqb_refl. }
    assert (Hcnt : count_of C (mis_serial_step Ap Aj active C F (x, N) m).1
                   = count_of C x + 1).
    { unfold mis_serial_step. rewrite Hact, Z.eqb_refl. simpl.
      rewrite count_of_mark_row by done.
      pose proof (count_of_insert C C x m ltac:(lia)) as H.
      rewrite decide_False, decide_True in H by congruence. lia. }
    split.
    + by rewrite mis_serial_step_length.
    + intros w Hw Hw0. rewrite Hcell by done.
      destruct (decide (w = m)) as [->|Hne]; [done|].
      rewrite decide_False; [by apply Hframe|].
      intros [_ Hwact]. rewrite Hframe in Hwact by done. done.
    + intros w Hw Hw0. rewrite Hcell by done.
      destruct (decide (w = m)) as [->|Hne]; [auto|].
      case_decide; [auto|]. by apply Hcases.
    + intros w Hw. rewrite Hcell by lia.
      destruct (decide (w = m)) as [->|Hne]; [congruence|].
      case_decide; [congruence|]. apply Hdone. lia.
    + intros w Hw Hw0. rewrite Hcell by done.
      destruct (decide (w = m)) as [->|Hne]; [lia|].
      case_decide; [congruence|]. intros HwC.
      specialize (Hearly w Hw Hw0 HwC). lia.
    + intros w Hw Hw0. rewrite Hcell by done.
      destruct (decide (w = m)) as [->|Hne]; [congruence|].
      case_decide as Hrow.
      * intros _. exists m. split.
        { destruct (decide (m < w)) as [|Hge]; [done|]. exfalso.
          destruct Hrow as [_ Hwact]. apply (Hdone w); [lia|done]. }
        split; [|by destruct Hrow].
        split; [done|]. rewrite Hcell by done. by rewrite decide_True.
      * intros HwF. destruct (Hdem w Hw Hw0 HwF) as (u & Hu & [Hu0 HuC] & Hin).
        exists u. split; [done|]. split; [|done]. split; [done|].
        rewrite Hcell by lia.
        destruct (decide (u = m)) as [->|Hum]; [done|].
        rewrite decide_False; [done|]. intros [_ ?]. congruence.
    + intros u w Hu Hw Huw [Hu0 HuC] Hin Hw0.
      rewrite Hcell in HuC by done. rewrite Hcell by done.
      destruct (decide (u = m)) as [->|Hum].
      * rewrite decide_False by done.
        destruct (decide (x !!! w = active)) as [Hwact|Hwact].
        { left. by rewrite decide_True. }
        rewrite decide_False by (by intros [_ ?]).
        destruct (Hcases w Hw Hw0) as [?|[HwC|HwF]]; [done| |by left].
        right. split; [done|]. by apply Hearly.
      * assert (HuC' : x !!! u = C).
        { case_decide; [congruence|done]. }
        destruct (Hfirst u w Hu Hw Huw (conj Hu0 HuC') Hin Hw0)
          as [HwF|[HwC Hlt]].
        -- left. destruct (decide (w = m)) as [->|Hwm]; [congruence|].
           rewrite decide_False; [done|]. intros [_ ?]. congruence.
        -- right. split; [|done].
           destruct (decide (w = m)) as [->|Hwm]; [done|].
           rewrite decide_False; [done|]. intros [_ ?]. congruence.
    + rewrite HN, Hcnt. lia.
  - assert (E : mis_serial_step Ap Aj active C F (x, N) m = (x, N)).
    { unfold mis_serial_step.
      destruct (Z.eqb_spec (x !!! m) active); [done|done]. }
    rewrite E. simpl. split; try done.
    + intros w Hw. destruct (decide (w = m)) as [->|Hne]; [done|].
      apply Hdone. lia.
    + intros w Hw Hw0 HwC. specialize (Hearly w Hw Hw0 HwC). lia.
Qed.

Lemma mis_serial_max_inv_loop m :
  m ≤ n →
  mis_serial_max_inv m
    (fold_left (mis_serial_step Ap Aj active C F) (seq 0 m) (x0, 0)).1
    (fold_left (mis_serial_step Ap Aj active C F) (seq 0 m) (x0, 0)).2.
Proof.
  induction m as [|m IH]; intros Hm.
  - simpl. split.
    + done.
    + done.
    + auto.
    + intros w Hw. lia.
    + intros w Hw Hw0 HwC. congruence.
    + intros w Hw Hw0 HwF. congruence.
    + intros u w Hu Hw Huw [Hu0 HuC]. congruence.
    + lia.
  - rewrite fold_left_seq_S. simpl.
    specialize (IH ltac:(lia)).
    destruct (fold_left _ (seq 0 m) (x0, 0)) as [x N].
    apply mis_serial_max_inv_step; [lia|done].
Qed.
End MisSerialMaximal.

(** X1.  [maximal_independent_set_serial] builds the greedy set: a
    vertex that held [active] ends as [C] exactly when no earlier vertex
    that the call turned into [C] stores it in its row, and as [F]
    otherwise.  No cell below [num_rows] holds [active] on return, the
    cells that did not hold [active] are unchanged, and the value returned
    is the number of cells that turned into [C]. *)
Theorem mis_serial_maximal (n : nat) (Ap Aj : list nat) (active C F : Z)
    (x x' : list Z) (N : nat) :
  length x = n → active ≠ C → active ≠ F → C ≠ F →
  maximal_independent_set_serial n Ap Aj active C F x = (x', N) →
  length x' = n
  ∧ (∀ w, w < n → x' !!! w ≠ active)
  ∧ (∀ w, w < n → x !!! w ≠ active → x' !!! w = x !!! w)
  ∧ (∀ w, w < n → x !!! w = active → x' !!! w = C ∨ x' !!! w = F)
  ∧ (∀ w, w < n → x !!! w = active →
       (x' !!! w = C ↔
        ∀ u, u < w → promoted active C x x' u → w ∉ row Ap Aj u))
  ∧ count_of C x' = count_of C x + N.
Proof.
  intros Hlen HAC HAF HCF Hrun.
  destruct (mis_serial_max_inv_loop n Ap Aj active C F x Hlen HAC HAF HCF n
              (le_n n)) as [H1 H2 H3 H4 _ H5 H6 H7].
  unfold maximal_independent_set_serial in Hrun. rewrite Hrun in *.
  simpl in *.
  assert (Hcases : ∀ w, w < n → x !!! w = active →
            x' !!! w = C ∨ x' !!! w = F).
  { intros w Hw Hw0. destruct (H3 w Hw Hw0) as [?|?]; [|done].
    by destruct (H4 w Hw). }
  split; [done|]. split; [done|]. split; [done|]. split; [done|].
  split; [|done].
  intros w Hw Hw0. split.
  - intros HwC u Hu Hpro Hin.
    destruct (H6 u w ltac:(lia) Hw ltac:(lia) Hpro Hin Hw0) as [?|[_ ?]];
      [congruence|lia].
  - intros Hnone. destruct (Hcases w Hw Hw0) as [?|HwF]; [done|].
    destruct (H5 w Hw Hw0 HwF) as (u & Hu & Hpro & Hin).
    by destruct (Hnone u Hu Hpro).
Qed.

Lemma mis_serial_maximal_witness :
  (∀ w, w < 5 → [1; 2; 1; 2; 1]%Z !!! w ≠ 0%Z)
  ∧ count_of 1%Z [1; 2; 1; 2; 1]%Z = count_of 1%Z [0; 0; 0; 0; 0]%Z + 3.
Proof.
  destruct (mis_serial_maximal 5 path5_Ap path5_Aj 0 1 2
              [0; 0; 0; 0; 0]%Z [1; 2; 1; 2; 1]%Z 3)
    as (_ & H1 & _ & _ & _ & H2); try done.
Defined.

(** ** maximal_independent_set_parallel: the set is maximal *)

Lemma mis_scan_row_mis active C x y i js :
  mis_scan_row active C x y i js = ScanNeighborMIS →
  ∃ j, j ∈ js ∧ x !!! j = C.
Proof.
  induction js as [|j js IH]; simpl; [done|].
  destruct (Z.eqb_spec (x !!! j) C) as [HjC|HjC].
  { intros _. exists j. split; [apply elem_of_cons; by left|done]. }
  destruct (_ && _); [done|].
  intros (j' & Hj' & H)%IH. exists j'. split; [apply elem_of_cons; by right|done].
Qed.

Section MisParallelMaximal.
Variables (n : nat) (Ap Aj : list nat) (active C F : Z) (y : list Q).
Variable x0 : list Z.
Hypothesis Hcols : csr_cols_ok n Ap Aj.
Hypothesis Hsym : csr_symmetric n Ap Aj.
Hypothesis Hlen0 : length x0 = n.
Hypothesis HAC : active ≠ C.
Hypothesis HAF : active ≠ F.
Hypothesis HCF : C ≠ F.

(** The state at any point of the call: [N] cells turned into [C], and
    every vertex that turned into [F] has a neighbour that holds [C]. *)
Record mis_parallel_max_inv (x : list Z) (N : nat) : Prop := {
  mpm_len : length x = n;
  mpm_frame : ∀ w, w < n → x0 !!! w ≠ active → x !!! w = x0 !!! w;
  mpm_cases : ∀ w, w < n → x0 !!! w = active →
    x !!! w = active ∨ x !!! w = C ∨ x !!! w = F;
  mpm_demoted : ∀ w, w < n → x0 !!! w = active → x !!! w = F →
    ∃ u, u < n ∧ u ∈ row Ap Aj w ∧ x !!! u = C;
  mpm_count : count_of C x = count_of C x0 + N
}.

Lemma mis_parallel_max_inv_init : mis_parallel_max_inv x0 0.
Proof. split; auto; try lia; intros w _ Hw0 HwF; congruence. Qed.

(** One visit keeps the invariant; if the flag is still clear after it, the
    visited vertex is not active. *)
Lemma mis_parallel_max_inv_step x N flag i :
  i < n → mis_parallel_max_inv x N →
  let st := mis_parallel_step Ap Aj active C F y (x, N, flag) i in
  mis_parallel_max_inv st.1.1 st.1.2
  ∧ (st.2 = false → flag = false ∧ st.1.1 !!! i ≠ active)
  ∧ (∀ w, w < n → x !!! w ≠ active → st.1.1 !!! w ≠ active).
Proof.
  intros Hi [Hlen Hframe Hcases Hdem Hcount]. cbv zeta.
  unfold mis_parallel_step.
  destruct (Z.eqb_spec (x !!! i) active) as [Hact|Hact]; simpl.
  2:{ split; [done|]. split; [by intros ->|done]. }
  assert (Hx0i : x0 !!! i = active).
  { destruct (decide (x0 !!! i = active)) as [|Hne]; [done|].
    rewrite <- (Hframe i Hi Hne) in Hne. done. }
  destruct (mis_scan_row _ _ _ _ _ _) eqn:Hscan; simpl.
  - (* the loop over the row ran to its end *)
    destruct (Nat.leb_spec (Ap !!! i) (Ap !!! S i)) as [Hrow|Hrow]; simpl.
    2:{ split; [done|]. split; [done|done]. }
    pose proof (mis_scan_row_end _ _ _ _ _ _ Hscan) as HnoC.
    assert (Hcell : ∀ w, w < n →
      <[i:=C]> (mis_mark_row active F x (row Ap Aj i)) !!! w =
        if decide (w = i) then C
        else if decide (w ∈ row Ap Aj i ∧ x !!! w = active) then F
             else x !!! w).
    { intros w Hw. destruct (decide (w = i)) as [->|Hne].
      - apply list_lookup_total_insert_eq. rewrite mis_mark_row_length. lia.
      - rewrite list_lookup_total_insert_ne by done.
        apply mis_mark_row_lookup. lia. }
    split; [split|split].
    + by rewrite length_insert, mis_mark_row_length.
    + intros w Hw Hw0. rewrite Hcell by done.
      destruct (decide (w = i)) as [->|Hne]; [done|].
      rewrite decide_False; [by apply Hframe|].
      intros [_ Hwact]. rewrite Hframe in Hwact by done. done.
    + intros w Hw Hw0. rewrite Hcell by done.
      destruct (decide (w = i)) as [->|Hne]; [auto|].
      case_decide; [auto|]. by apply Hcases.
    + intros w Hw Hw0. rewrite Hcell by done.
      destruct (decide (w = i)) as [->|Hne]; [congruence|].
      case_decide as Hin.
      * intros _. exists i. split; [done|]. split.
        -- apply Hsym; [done..|]. by destruct Hin.
        -- rewrite Hcell by done. by rewrite decide_True.
      * intros HwF. destruct (Hdem w Hw Hw0 HwF) as (u & Hu & Hin' & HuC).
        exists u. split; [done|]. split; [done|].
        rewrite Hcell by done.
        destruct (decide (u = i)) as [->|Hui]; [done|].
        rewrite decide_False; [done|]. intros [_ ?]. congruence.
    + pose proof (count_of_insert C C (mis_mark_row active F x (row Ap Aj i)) i)
        as H.
      rewrite mis_mark_row_length in H. specialize (H ltac:(lia)).
      rewrite (decide_True (P := C = C)) in H by done.
      rewrite decide_False in H.
      * rewrite count_of_mark_row in H by done. lia.
      * rewrite mis_mark_row_lookup by lia.
        destruct (decide (i ∈ row Ap Aj i ∧ x !!! i = active)); congruence.
    + intros ->. split; [done|].
      rewrite list_lookup_total_insert_eq; [congruence|].
      rewrite mis_mark_row_length. lia.
    + intros w Hw Hwact. rewrite Hcell by done.
      destruct (decide (w = i)) as [->|Hne]; [congruence|].
      case_decide; [congruence|done].
  - (* a neighbour is in the set *)
    apply mis_scan_row_mis in Hscan as (j & Hj & HjC).
    assert (Hjn : j < n) by by apply (Hcols i).
    split; [split|split].
    + by rewrite length_insert.
    + intros w Hw Hw0. destruct (decide (w = i)) as [->|Hne]; [done|].
      rewrite list_lookup_total_insert_ne by done. by apply Hframe.
    + intros w Hw Hw0. destruct (decide (w = i)) as [->|Hne].
      * rewrite list_lookup_total_insert_eq by lia. auto.
      * rewrite list_lookup_total_insert_ne by done. by apply Hcases.
    + intros w Hw Hw0 HwF.
      assert (Hkeep : ∀ u, x !!! u = C → <[i:=F]> x !!! u = C).
      { intros u HuC. destruct (decide (u = i)) as [->|Hne]; [congruence|].
        by rewrite list_lookup_total_insert_ne. }
      destruct (decide (w = i)) as [->|Hne].
      * exists j. split; [done|]. split; [done|]. by apply Hkeep.
      * rewrite list_lookup_total_insert_ne in HwF by done.
        destruct (Hdem w Hw Hw0 HwF) as (u & Hu & Hin & HuC).
        exists u. split; [done|]. split; [done|]. by apply Hkeep.
    + pose proof (count_of_insert C F x i ltac:(lia)) as H.
      rewrite !decide_False in H by congruence. lia.
    + done.
    + intros w Hw Hwact. destruct (decide (w = i)) as [->|Hne]; [done|].
      by rewrite list_lookup_total_insert_ne.
  - (* a neighbour is larger *)
    split; [done|]. split; [done|done].
Qed.

Lemma mis_parallel_max_inv_round x N :
  mis_parallel_max_inv x N →
  mis_parallel_max_inv (mis_parallel_round n Ap Aj active C F y x N).1.1
    (mis_parallel_round n Ap Aj active C F y x N).1.2
  ∧ ((mis_parallel_round n Ap Aj active C F y x N).2 = false →
     ∀ w, w < n → (mis_parallel_round n Ap Aj active C F y x N).1.1 !!! w ≠ active).
Proof.
  intros Hinv. unfold mis_parallel_round.
  assert (H : ∀ m, m ≤ n →
    mis_parallel_max_inv
      (fold_left (mis_parallel_step Ap Aj active C F y) (seq 0 m) (x, N, false)).1.1
      (fold_left (mis_parallel_step Ap Aj active C F y) (seq 0 m) (x, N, false)).1.2
    ∧ ((fold_left (mis_parallel_step Ap Aj active C F y) (seq 0 m)
          (x, N, false)).2 = false →
       ∀ w, w < m →
         (fold_left (mis_parallel_step Ap Aj active C F y) (seq 0 m)
            (x, N, false)).1.1 !!! w ≠ active)).
  { induction m as [|m IH]; intros Hm.
    - simpl. split; [done|]. intros _ w Hw. lia.
    - rewrite fold_left_seq_S. change (0 + m) with m.
      destruct IH as [IHinv IHflag]; [lia|].
      destruct (fold_left _ (seq 0 m) (x, N, false)) as [[x1 N1] f1].
      simpl in IHinv, IHflag.
      destruct (mis_parallel_max_inv_step x1 N1 f1 m ltac:(lia) IHinv)
        as (Hinv' & Hflag' & Hkeep).
      cbv zeta in *. split; [done|].
      intros Hf w Hw. destruct (Hflag' Hf) as [Hf1 Hm'].
      destruct (decide (w = m)) as [->|Hne]; [done|].
      apply Hkeep; [lia|]. apply IHflag; [done|lia]. }
  destruct (H n (le_n n)) as [H1 H2]. split; [done|]. done.
Qed.

Lemma mis_parallel_max_inv_while fuel max_iters num_iters flag x N x' N' :
  mis_parallel_max_inv x N →
  (flag = false → ∀ w, w < n → x !!! w ≠ active) →
  mis_parallel_while fuel n Ap Aj active C F y max_iters num_iters flag x N
    = Some (x', N') →
  mis_parallel_max_inv x' N'
  ∧ (max_iters = (-1)%Z → ∀ w, w < n → x' !!! w ≠ active).
Proof.
  revert num_iters flag x N.
  induction fuel as [|fuel IH]; intros num_iters flag x N Hinv Hflag;
    cbn [mis_parallel_while].
  - destruct flag; simpl.
    + destruct (Z.eqb_spec max_iters (-1)) as [->|Hne]; simpl; [done|].
      destruct (_ <? _)%Z; [done|]. intros [= <- <-]. split; [done|done].
    + intros [= <- <-]. split; [done|]. intros _. by apply Hflag.
  - destruct flag; simpl.
    + destruct (Z.eqb_spec max_iters (-1)) as [->|Hne]; simpl.
      * destruct (mis_parallel_max_inv_round x N Hinv) as [Hinv1 Hflag1].
        destruct (mis_parallel_round _ _ _ _ _ _ _ _ _) as [[x1 N1] flag1].
        by apply IH.
      * destruct (_ <? _)%Z.
        -- destruct (mis_parallel_max_inv_round x N Hinv) as [Hinv1 Hflag1].
           destruct (mis_parallel_round _ _ _ _ _ _ _ _ _) as [[x1 N1] flag1].
           by apply IH.
        -- intros [= <- <-]. split; [done|done].
    + intros [= <- <-]. split; [done|]. intros _. by apply Hflag.
Qed.
End MisParallelMaximal.

(** X2.  On a symmetric graph the set built by
    [maximal_independent_set_parallel] is maximal.  Whenever the call
    returns, the cells that did not hold [active] are unchanged, an active
    cell holds [active], [C] or [F], every vertex that turned into [F] has a
    neighbour that holds [C], and the value returned is the number of cells
    that turned into [C]; without a bound on the rounds ([max_iters = -1])
    no cell below [num_rows] is left [active].  The call returns after at
    most [n + 1] rounds. *)
Theorem mis_parallel_maximal (n : nat) (Ap Aj : list nat) (active C F : Z)
    (x : list Z) (y : list Q) (max_iters : Z) :
  csr_rows_ok n Ap → csr_cols_ok n Ap Aj → csr_symmetric n Ap Aj →
  length x = n → active ≠ C → active ≠ F → C ≠ F →
  (∀ fuel x' N,
     maximal_independent_set_parallel fuel n Ap Aj active C F x y max_iters
       = Some (x', N) →
     length x' = n
     ∧ (∀ w, w < n → x !!! w ≠ active → x' !!! w = x !!! w)
     ∧ (∀ w, w < n → x !!! w = active →
          x' !!! w = active ∨ x' !!! w = C ∨ x' !!! w = F)
     ∧ (∀ w, w < n → x !!! w = active → x' !!! w = F →
          ∃ u, u < n ∧ u ∈ row Ap Aj w ∧ x' !!! u = C)
     ∧ count_of C x' = count_of C x + N
     ∧ (max_iters = (-1)%Z → ∀ w, w < n → x' !!! w ≠ active))
  ∧ (∀ fuel, n < fuel →
       ∃ r, maximal_independent_set_parallel fuel n Ap Aj active C F x y
              max_iters = Some r).
Proof.
  intros Hrows Hcols Hsym Hlen HAC HAF HCF. split.
  - intros fuel x' N Hrun.
    apply (mis_parallel_max_inv_while n Ap Aj active C F y x Hcols Hsym Hlen
             HAC HAF HCF) in Hrun as [[H1 H2 H3 H4 H5] H6].
    + done.
    + by apply mis_parallel_max_inv_init.
    + done.
  - intros fuel Hfuel. by apply mis_parallel_returns.
Qed.

Lemma mis_parallel_maximal_witness :
  (∀ w, w < 5 → [1; 2; 1; 2; 1]%Z !!! w ≠ 0%Z)
  ∧ count_of 1%Z [1; 2; 1; 2; 1]%Z = count_of 1%Z [0; 0; 0; 0; 0]%Z + 3.
Proof.
  destruct (mis_parallel_maximal 5 path5_Ap path5_Aj 0 1 2
              [0; 0; 0; 0; 0]%Z [1#2; 1#3; 1#2; 1#5; 1#7]%Q (-1))
    as [Hmax _].
  - apply csr_rows_ok_dec_sound. vm_compute. reflexivity.
  - apply csr_cols_okb_sound. vm_compute. reflexivity.
  - apply csr_symmetricb_sound. vm_compute. reflexivity.
  - reflexivity.
  - lia.
  - lia.
  - lia.
  - destruct (Hmax 6 [1; 2; 1; 2; 1]%Z 3) as (_ & _ & _ & _ & H1 & H2);
      [reflexivity|].
    split; [by apply H2|done].
Defined.

(** ** vertex_coloring_mis: the colouring is greedy *)

Section ColoringGreedy.
Variables (n : nat) (Ap Aj : list nat).
Hypothesis Hsym : csr_symmetric n Ap Aj.

(** At the head of the loop: every colour below [K] is in use, a coloured
    vertex has a neighbour of every smaller colour, an uncoloured one has a
    neighbour of every colour so far, and each round coloured a vertex. *)
Record greedy_inv (K : Z) (x : list Z) (N : nat) : Prop := {
  gr_used : ∀ c, (0 ≤ c < K)%Z → ∃ w, w < n ∧ x !!! w = c;
  gr_colored : ∀ w c, w < n → (0 ≤ c < x !!! w)%Z →
    ∃ u, u < n ∧ u ∈ row Ap Aj w ∧ x !!! u = c;
  gr_waiting : ∀ w c, w < n → x !!! w = (-1 - K)%Z → (0 ≤ c < K)%Z →
    ∃ u, u < n ∧ u ∈ row Ap Aj w ∧ x !!! u = c;
  gr_rounds : (K ≤ Z.of_nat N)%Z
}.

Lemma greedy_inv_round K x N x' c :
  coloring_inv n Ap Aj K x N → greedy_inv K x N → N < n →
  maximal_independent_set_serial n Ap Aj (-1 - K) K (-2 - K) x = (x', c) →
  greedy_inv (K + 1) x' (N + c).
Proof.
  intros Hcol [Hused Hcolored Hwait Hrounds] HN Hrun.
  destruct (coloring_inv_round n Ap Aj Hsym K x N x' c Hcol Hrun) as [_ Hprog].
  specialize (Hprog HN).
  destruct Hcol as (Hlen & HK & Hrange & _ & HNc).
  assert (HAC : (-1 - K)%Z ≠ K) by lia.
  assert (HAF : (-1 - K)%Z ≠ (-2 - K)%Z) by lia.
  assert (HCF : K ≠ (-2 - K)%Z) by lia.
  destruct (mis_serial_max_inv_loop n Ap Aj (-1 - K) K (-2 - K) x
              Hlen HAC HAF HCF n (le_n n))
    as [_ Hframe Hcases Hdone _ Hdem _ _].
  unfold maximal_independent_set_serial in Hrun. rewrite Hrun in *.
  simpl in Hframe, Hcases, Hdone, Hdem.
  assert (Hkeep : ∀ u, u < n → (0 ≤ x !!! u)%Z → x' !!! u = x !!! u).
  { intros u Hu Hpos. apply Hframe; [done|lia]. }
  assert (Hnew : ∀ w, w < n →
    (x' !!! w = x !!! w ∧ (0 ≤ x !!! w < K)%Z)
    ∨ (x !!! w = (-1 - K)%Z ∧ (x' !!! w = K ∨ x' !!! w = (-2 - K)%Z))).
  { intros w Hw. destruct (Hrange w Hw) as [Hin|Hact].
    - left. split; [|done]. apply Hkeep; [done|lia].
    - right. split; [done|].
      destruct (Hcases w Hw Hact) as [?|?]; [|done].
      by destruct (Hdone w Hw). }
  assert (Hpromoter : ∀ w, w < n → x !!! w = (-1 - K)%Z →
    x' !!! w = (-2 - K)%Z → ∃ u, u < n ∧ u ∈ row Ap Aj w ∧ x' !!! u = K).
  { intros w Hw Hact HwF.
    destruct (Hdem w Hw Hact HwF) as (u & Hu & [_ HuC] & Hin).
    exists u. split; [lia|]. split; [apply Hsym; [lia|done|done]|done]. }
  split.
  - intros c' Hc'. destruct (decide (c' = K)) as [->|Hne].
    + rewrite HNc, <- Hlen in HN.
      destruct (colored_count_missing x HN) as (w & Hw & Hneg).
      rewrite Hlen in Hw.
      destruct (Hnew w Hw) as [[_ ?]|[Hact [HwC|HwF]]]; [lia| |].
      * by exists w.
      * destruct (Hpromoter w Hw Hact HwF) as (u & Hu & _ & HuC). by exists u.
    + destruct (Hused c' ltac:(lia)) as (w & Hw & Hwc).
      exists w. split; [done|]. rewrite Hkeep; [done|done|lia].
  - intros w c' Hw Hc'.
    destruct (Hnew w Hw) as [[Heq Hin]|[Hact [HwC|HwF]]].
    + rewrite Heq in Hc'. destruct (Hcolored w c' Hw Hc') as (u & Hu & Hin' & Huc).
      exists u. split; [done|]. split; [done|]. rewrite Hkeep; [done|done|lia].
    + rewrite HwC in Hc'. destruct (Hwait w c' Hw Hact Hc') as (u & Hu & Hin' & Huc).
      exists u. split; [done|]. split; [done|]. rewrite Hkeep; [done|done|lia].
    + lia.
  - intros w c' Hw HwF Hc'.
    destruct (Hnew w Hw) as [[Heq Hin]|[Hact _]]; [lia|].
    destruct (decide (c' = K)) as [->|Hne].
    + apply Hpromoter; [done|done|lia].
    + destruct (Hwait w c' Hw Hact ltac:(lia)) as (u & Hu & Hin' & Huc).
      exists u. split; [done|]. split; [done|]. rewrite Hkeep; [done|done|lia].
  - lia.
Qed.

Lemma vertex_coloring_mis_while_greedy fuel K x N :
  coloring_inv n Ap Aj K x N → greedy_inv K x N → n - N ≤ fuel →
  ∃ x' K', vertex_coloring_mis_while fuel n Ap Aj x N K = Some (x', K')
           ∧ (0 ≤ K' ≤ Z.of_nat n)%Z
           ∧ (∀ c, (0 ≤ c < K')%Z → ∃ w, w < n ∧ x' !!! w = c)
           ∧ (∀ w c, w < n → (0 ≤ c < x' !!! w)%Z →
                ∃ u, u < n ∧ u ∈ row Ap Aj w ∧ x' !!! u = c).
Proof.
  revert K x N. induction fuel as [|fuel IH]; intros K x N Hcol Hgr Hfuel;
    cbn [vertex_coloring_mis_while].
  - destruct (Nat.ltb_spec N n) as [Hlt|Hge]; [lia|].
    exists x, K. split; [done|].
    destruct Hcol as (Hlen & HK & _ & _ & HN). destruct Hgr as [H1 H2 _ H4].
    split; [|done].
    pose proof (length_filter (λ v, (0 ≤ v)%Z) x) as Hf.
    unfold colored_count in HN. lia.
  - destruct (Nat.ltb_spec N n) as [Hlt|Hge].
    + destruct (maximal_independent_set_serial _ _ _ _ _ _ _) as [x1 c] eqn:E.
      destruct (coloring_inv_round n Ap Aj Hsym K x N x1 c Hcol E)
        as [Hcol1 Hprog].
      pose proof (greedy_inv_round K x N x1 c Hcol Hgr Hlt E) as Hgr1.
      apply IH; [done|done|]. specialize (Hprog Hlt). lia.
    + exists x, K. split; [done|].
      destruct Hcol as (Hlen & HK & _ & _ & HN). destruct Hgr as [H1 H2 _ H4].
      split; [|done].
      pose proof (length_filter (λ v, (0 ≤ v)%Z) x) as Hf.
      unfold colored_count in HN. lia.
Qed.
End ColoringGreedy.

(** X3.  On a symmetric graph [vertex_coloring_mis] returns a greedy
    colouring: the number [K] of colours is at most the number of
    vertices, every colour below [K] is held by some vertex, and a vertex
    of colour [c] has a neighbour of every colour below [c]. *)
Theorem vertex_coloring_mis_greedy (n : nat) (Ap Aj : list nat) (x : list Z)
    (fuel : nat) :
  csr_symmetric n Ap Aj → length x = n → n ≤ fuel →
  ∃ x' K,
    vertex_coloring_mis fuel n Ap Aj x = Some (x', K)
    ∧ (0 ≤ K ≤ Z.of_nat n)%Z
    ∧ (∀ c, (0 ≤ c < K)%Z → ∃ w, w < n ∧ x' !!! w = c)
    ∧ (∀ w c, w < n → (0 ≤ c < x' !!! w)%Z →
         ∃ u, u < n ∧ u ∈ row Ap Aj w ∧ x' !!! u = c).
Proof.
  intros Hsym Hlen Hfuel.
  assert (Hall : ∀ w, w < n → array_fill n (-1)%Z x !!! w = (-1)%Z).
  { intros w Hw. apply array_fill_lookup; lia. }
  apply vertex_coloring_mis_while_greedy; [done| | |lia].
  - split; [by rewrite array_fill_length|]. split; [lia|]. split; [|split].
    + intros w Hw. right. by apply Hall.
    + intros u v Hu _ _ _ Hcu. rewrite Hall in Hcu by done. lia.
    + symmetry. apply colored_count_none. intros w Hw.
      rewrite array_fill_length in Hw. rewrite Hall by lia. lia.
  - split.
    + intros c Hc. lia.
    + intros w c Hw Hc. rewrite Hall in Hc by done. lia.
    + intros w c _ _ Hc. lia.
    + lia.
Qed.

Lemma vertex_coloring_mis_greedy_witness :
  ∃ x' K,
    vertex_coloring_mis 5 5 path5_Ap path5_Aj [7; 7; 7; 7; 7]%Z = Some (x', K)
    ∧ (0 ≤ K ≤ 5)%Z
    ∧ (∀ c, (0 ≤ c < K)%Z → ∃ w, w < 5 ∧ x' !!! w = c)
    ∧ (∀ w c, w < 5 → (0 ≤ c < x' !!! w)%Z →
         ∃ u, u < 5 ∧ u ∈ row path5_Ap path5_Aj w ∧ x' !!! u = c).
Proof.
  apply (vertex_coloring_mis_greedy 5 path5_Ap path5_Aj [7; 7; 7; 7; 7]%Z 5).
  - apply csr_symmetricb_sound. vm_compute. reflexivity.
  - reflexivity.
  - lia.
Defined.

(** ** vertex_coloring_first_fit: a proper colouring stays proper *)

(** Adjacent vertices keep different colours, and the sign of every entry
    is kept. *)
Lemma first_fit_proper (n : nat) (Ap Aj : list nat) (K : Z) (x : list Z) :
  length x = n → (0 ≤ K)%Z → csr_cols_ok n Ap Aj → csr_symmetric n Ap Aj →
  (∀ i, i < n → (x !!! i ≤ K)%Z) →
  (∀ i j, i < n → j < n → i ≠ j → j ∈ row Ap Aj i →
     (0 ≤ x !!! i)%Z → x !!! i ≠ x !!! j) →
  (∀ i j, i < n → j < n → i ≠ j → j ∈ row Ap Aj i →
     (0 ≤ vertex_coloring_first_fit n Ap Aj x K !!! i)%Z →
     vertex_coloring_first_fit n Ap Aj x K !!! i
     ≠ vertex_coloring_first_fit n Ap Aj x K !!! j)
  ∧ (∀ i, i < n →
       (0 ≤ x !!! i)%Z ↔ (0 ≤ vertex_coloring_first_fit n Ap Aj x K !!! i)%Z).
Proof.
  intros Hlen HK Hcols Hsym Hrange Hproper.
  assert (Hindep : ∀ i j, i < n → j < n → i ≠ j → j ∈ row Ap Aj i →
            x !!! i = K → x !!! j ≠ K).
  { intros i j Hi Hj Hij Hin HiK HjK.
    apply (Hproper i j); try done; [lia|congruence]. }
  destruct (first_fit_spec n Ap Aj K x Hlen HK Hcols Hindep) as [Hlen' Hcells].
  set (x' := vertex_coloring_first_fit n Ap Aj x K) in *.
  assert (Hsign : ∀ i, i < n → (0 ≤ x !!! i)%Z ↔ (0 ≤ x' !!! i)%Z).
  { intros i Hi. destruct (Hcells i Hi) as [HK1 HK2].
    destruct (decide (x !!! i = K)) as [HiK|HiK].
    - destruct (HK1 HiK) as [? _]. split; lia.
    - by rewrite HK2. }
  split; [|done].
  intros i j Hi Hj Hij Hin Hpos.
  destruct (Hcells i Hi) as [Hi1 Hi2], (Hcells j Hj) as [Hj1 Hj2].
  destruct (decide (x !!! i = K)) as [HiK|HiK].
  - destruct (Hi1 HiK) as (_ & Hfree & _).
    rewrite (Hj2 (Hindep i j Hi Hj Hij Hin HiK)).
    intros Heq. by apply (Hfree j Hin).
  - rewrite (Hi2 HiK) in *.
    destruct (decide (x !!! j = K)) as [HjK|HjK].
    + destruct (Hj1 HjK) as (_ & Hfree & _).
      intros Heq. apply (Hfree i); [by apply Hsym|done|done].
    + rewrite (Hj2 HjK). by apply Hproper.
Qed.

(** X4.  Let [x] be a colouring of a symmetric graph with entries at most
    [K] in which two adjacent vertices never share a colour.  After
    [vertex_coloring_first_fit] this still holds, the vertices that had no
    colour still have none, and the coloured ones are still coloured. *)
Theorem first_fit_keeps_proper (n : nat) (Ap Aj : list nat) (K : Z)
    (x : list Z) :
  length x = n → (0 ≤ K)%Z → csr_cols_ok n Ap Aj → csr_symmetric n Ap Aj →
  (∀ i, i < n → (x !!! i ≤ K)%Z) →
  (∀ i j, i < n → j < n → i ≠ j → j ∈ row Ap Aj i →
     (0 ≤ x !!! i)%Z → x !!! i ≠ x !!! j) →
  (∀ i j, i < n → j < n → i ≠ j → j ∈ row Ap Aj i →
     (0 ≤ vertex_coloring_first_fit n Ap Aj x K !!! i)%Z →
     vertex_coloring_first_fit n Ap Aj x K !!! i
     ≠ vertex_coloring_first_fit n Ap Aj x K !!! j)
  ∧ (∀ i, i < n →
       (0 ≤ x !!! i)%Z ↔ (0 ≤ vertex_coloring_first_fit n Ap Aj x K !!! i)%Z).
Proof. apply first_fit_proper. Qed.

Lemma first_fit_keeps_proper_witness :
  vertex_coloring_first_fit 3 path3_Ap path3_Aj [2; 0; 2]%Z 2 = [1; 0; 1]%Z
  ∧ ∀ i j, i < 3 → j < 3 → i ≠ j → j ∈ row path3_Ap path3_Aj i →
      (0 ≤ vertex_coloring_first_fit 3 path3_Ap path3_Aj [2; 0; 2]%Z 2 !!! i)%Z →
      vertex_coloring_first_fit 3 path3_Ap path3_Aj [2; 0; 2]%Z 2 !!! i
      ≠ vertex_coloring_first_fit 3 path3_Ap path3_Aj [2; 0; 2]%Z 2 !!! j.
Proof.
  split; [reflexivity|].
  apply (first_fit_keeps_proper 3 path3_Ap path3_Aj 2 [2; 0; 2]%Z).
  - reflexivity.
  - lia.
  - apply csr_cols_okb_sound. vm_compute. reflexivity.
  - apply csr_symmetricb_sound. vm_compute. reflexivity.
  - apply (bool_decide_unpack _). vm_compute. exact I.
  - intros i j Hi Hj. revert j Hj. revert i Hi.
    apply (bool_decide_unpack _). vm_compute. exact I.
Defined.

(** ** bellman_ford: what one call does to the distances and the labels *)

(** Every edge is relaxed: no distance can be improved through a stored
    neighbour, with the sums as the type [T] computes them. *)
Definition edges_relaxed (T_add : Q → Q → Q) (n : nat) (Ap Aj : list nat)
    (Ax d : list Q) : Prop :=
  ∀ i jj, i < n → jj ∈ row_slots Ap i →
    (d !!! i <= T_add (Ax !!! jj) (d !!! (Aj !!! jj)))%Q.

Lemma Qltb_false a b : Qltb a b = false ↔ (b <= a)%Q.
Proof.
  rewrite <- not_true_iff_false, Qltb_iff. split; [apply Qnot_lt_le|apply Qle_not_lt].
Qed.

(** The loop over a row: the result is below the start value and below
    every candidate, and it is the start pair or a strictly smaller
    candidate with the label of its neighbour. *)
Lemma bellman_ford_row_spec T_add Aj Ax d cm js xi nci :
  ((fold_left (bellman_ford_row T_add Aj Ax d cm) js (xi, nci)).1 <= xi)%Q
  ∧ (∀ jj, jj ∈ js →
       ((fold_left (bellman_ford_row T_add Aj Ax d cm) js (xi, nci)).1
        <= T_add (Ax !!! jj) (d !!! (Aj !!! jj)))%Q)
  ∧ (fold_left (bellman_ford_row T_add Aj Ax d cm) js (xi, nci) = (xi, nci)
     ∨ ∃ jj, jj ∈ js
         ∧ fold_left (bellman_ford_row T_add Aj Ax d cm) js (xi, nci)
           = ((T_add (Ax !!! jj) (d !!! (Aj !!! jj)))%Q, cm !!! (Aj !!! jj))
         ∧ (T_add (Ax !!! jj) (d !!! (Aj !!! jj)) < xi)%Q).
Proof.
  revert xi nci. induction js as [|jj js IH]; intros xi nci; cbn [fold_left].
  - split; [apply Qle_refl|]. split; [|by left].
    intros jj Hjj. by apply elem_of_nil in Hjj.
  - assert (E : bellman_ford_row T_add Aj Ax d cm (xi, nci) jj
               = if Qltb (T_add (Ax !!! jj) (d !!! (Aj !!! jj))) xi
                 then ((T_add (Ax !!! jj) (d !!! (Aj !!! jj)))%Q, cm !!! (Aj !!! jj))
                 else (xi, nci)) by reflexivity.
    rewrite E. clear E.
    destruct (Qltb _ xi) eqn:Hlt.
    + apply Qltb_iff in Hlt.
      destruct (IH (T_add (Ax !!! jj) (d !!! (Aj !!! jj)))%Q (cm !!! (Aj !!! jj)))
        as (IH1 & IH2 & IH3).
      split; [lra|]. split.
      * intros jj' [->|Hjj']%elem_of_cons; [exact IH1|by apply IH2].
      * right. destruct IH3 as [E|(jj' & Hjj' & E & Hless)].
        -- exists jj. split; [apply elem_of_cons; by left|done].
        -- exists jj'. split; [apply elem_of_cons; by right|].
           split; [done|lra].
    + apply Qltb_false in Hlt.
      destruct (IH xi nci) as (IH1 & IH2 & IH3).
      split; [done|]. split.
      * intros jj' [->|Hjj']%elem_of_cons; [lra|by apply IH2].
      * destruct IH3 as [E|(jj' & Hjj' & E & Hless)]; [by left|].
        right. exists jj'. split; [apply elem_of_cons; by right|done].
Qed.

Lemma bellman_ford_step_other T_add Ap Aj Ax d cm k i :
  i ≠ k →
  (bellman_ford_step T_add Ap Aj Ax (d, cm) k).1 !!! i = d !!! i
  ∧ (bellman_ford_step T_add Ap Aj Ax (d, cm) k).2 !!! i = cm !!! i.
Proof.
  intros Hne. unfold bellman_ford_step.
  destruct (fold_left _ (row_slots Ap k) _) as [xi nci]. simpl.
  by rewrite !list_lookup_total_insert_ne.
Qed.

Lemma bellman_ford_step_length T_add Ap Aj Ax d cm k :
  length (bellman_ford_step T_add Ap Aj Ax (d, cm) k).1 = length d
  ∧ length (bellman_ford_step T_add Ap Aj Ax (d, cm) k).2 = length cm.
Proof.
  unfold bellman_ford_step.
  destruct (fold_left _ (row_slots Ap k) _) as [xi nci]. simpl.
  by rewrite !length_insert.
Qed.

Lemma bellman_ford_fold_other T_add Ap Aj Ax l d cm i :
  i ∉ l →
  (fold_left (bellman_ford_step T_add Ap Aj Ax) l (d, cm)).1 !!! i = d !!! i
  ∧ (fold_left (bellman_ford_step T_add Ap Aj Ax) l (d, cm)).2 !!! i = cm !!! i.
Proof.
  revert d cm. induction l as [|k l IH]; intros d cm Hi; cbn [fold_left]; [done|].
  destruct (bellman_ford_step_other T_add Ap Aj Ax d cm k i) as [H1 H2].
  { intros ->. apply Hi. by left. }
  destruct (bellman_ford_step T_add Ap Aj Ax (d, cm) k) as [d1 cm1].
  simpl in H1, H2. rewrite <- H1, <- H2. apply IH.
  intros Hin. apply Hi. by right.
Qed.

Lemma bellman_ford_fold_length T_add Ap Aj Ax l d cm :
  length (fold_left (bellman_ford_step T_add Ap Aj Ax) l (d, cm)).1 = length d
  ∧ length (fold_left (bellman_ford_step T_add Ap Aj Ax) l (d, cm)).2 = length cm.
Proof.
  revert d cm. induction l as [|k l IH]; intros d cm; cbn [fold_left]; [done|].
  destruct (bellman_ford_step_length T_add Ap Aj Ax d cm k) as [H1 H2].
  destruct (bellman_ford_step T_add Ap Aj Ax (d, cm) k) as [d1 cm1].
  simpl in H1, H2. rewrite <- H1, <- H2. apply IH.
Qed.

Lemma bellman_ford_step_eq T_add Ap Aj Ax d cm i :
  bellman_ford_step T_add Ap Aj Ax (d, cm) i
  = (<[i := (fold_left (bellman_ford_row T_add Aj Ax d cm) (row_slots Ap i)
               (d !!! i, cm !!! i)).1]> d,
     <[i := (fold_left (bellman_ford_row T_add Aj Ax d cm) (row_slots Ap i)
               (d !!! i, cm !!! i)).2]> cm).
Proof.
  unfold bellman_ford_step. by destruct (fold_left _ (row_slots Ap i) _).
Qed.

(** The call as the visits before [i], the visit of [i] and those after. *)
Lemma bellman_ford_split T_add n Ap Aj Ax d cm i :
  i < n →
  bellman_ford T_add n Ap Aj Ax d cm
  = fold_left (bellman_ford_step T_add Ap Aj Ax) (seq (S i) (n - S i))
      (bellman_ford_step T_add Ap Aj Ax
         (fold_left (bellman_ford_step T_add Ap Aj Ax) (seq 0 i) (d, cm)) i).
Proof.
  intros Hi. unfold bellman_ford.
  replace n with (i + S (n - S i)) at 1 by lia.
  rewrite seq_app, fold_left_app. cbn [seq fold_left]. done.
Qed.

(** The cell of [i] on return, from the state [(d1, cm1)] before the visit
    of [i]: the cells of [i] were not written before, and are not written
    after. *)
Lemma bellman_ford_cell T_add n Ap Aj Ax d cm i :
  i < n → length d = n →
  let st := fold_left (bellman_ford_step T_add Ap Aj Ax) (seq 0 i) (d, cm) in
  let r := fold_left (bellman_ford_row T_add Aj Ax st.1 st.2) (row_slots Ap i)
             (d !!! i, cm !!! i) in
  (bellman_ford T_add n Ap Aj Ax d cm).1 !!! i = r.1
  ∧ (i < length cm → (bellman_ford T_add n Ap Aj Ax d cm).2 !!! i = r.2)
  ∧ ∀ j, (st.1 !!! j <= d !!! j)%Q.
Proof.
  intros Hi Hlen. cbv zeta. rewrite (bellman_ford_split T_add n Ap Aj Ax d cm i Hi).
  assert (Hnot : i ∉ seq 0 i) by (rewrite elem_of_seq; lia).
  destruct (bellman_ford_fold_other T_add Ap Aj Ax (seq 0 i) d cm i Hnot) as [Hd Hcm].
  destruct (bellman_ford_fold_length T_add Ap Aj Ax (seq 0 i) d cm) as [Ld Lcm].
  pose proof (λ j, bellman_ford_fold_le T_add Ap Aj Ax (seq 0 i) d cm j) as Hle.
  destruct (fold_left (bellman_ford_step T_add Ap Aj Ax) (seq 0 i) (d, cm))
    as [d1 cm1]. simpl in Hd, Hcm, Ld, Lcm, Hle. cbn [fst snd].
  assert (Hnot' : i ∉ seq (S i) (n - S i)) by (rewrite elem_of_seq; lia).
  rewrite bellman_ford_step_eq, Hd, Hcm.
  destruct (fold_left (bellman_ford_row T_add Aj Ax d1 cm1) (row_slots Ap i) _)
    as [xi nci]. simpl.
  destruct (bellman_ford_fold_other T_add Ap Aj Ax (seq (S i) (n - S i))
              (<[i:=xi]> d1) (<[i:=nci]> cm1) i Hnot') as [Hd' Hcm'].
  rewrite Hd', Hcm'. split; [|split; [|done]].
  - apply list_lookup_total_insert_eq. lia.
  - intros Hicm. apply list_lookup_total_insert_eq. lia.
Qed.

(** X5.  Let the sum of the type [T] be monotone in the distance, as the
    rounded sum of a floating-point type and the sum of integers in range
    are.  After a call to [bellman_ford] every distance is at most the sum,
    as the type computes it, of the length of each stored edge and the old
    distance of its neighbour; so a call that leaves the distances as they
    were proves that every edge was relaxed, and conversely a call on
    relaxed distances changes neither [d] nor [cm]. *)
Theorem bellman_ford_relaxes_edges (T_add : Q → Q → Q)
    (n : nat) (Ap Aj : list nat) (Ax d : list Q) (cm : list Z) :
  (∀ a b c, (b <= c)%Q → (T_add a b <= T_add a c)%Q) →
  length d = n →
  (∀ i jj, i < n → jj ∈ row_slots Ap i →
     ((bellman_ford T_add n Ap Aj Ax d cm).1 !!! i
      <= T_add (Ax !!! jj) (d !!! (Aj !!! jj)))%Q)
  ∧ ((∀ i, i < n →
        ((bellman_ford T_add n Ap Aj Ax d cm).1 !!! i == d !!! i)%Q) →
     edges_relaxed T_add n Ap Aj Ax d)
  ∧ (edges_relaxed T_add n Ap Aj Ax d →
     bellman_ford T_add n Ap Aj Ax d cm = (d, cm)).
Proof.
  intros Hmono Hlen.
  assert (Hbound : ∀ i jj, i < n → jj ∈ row_slots Ap i →
     ((bellman_ford T_add n Ap Aj Ax d cm).1 !!! i
      <= T_add (Ax !!! jj) (d !!! (Aj !!! jj)))%Q).
  { intros i jj Hi Hjj.
    destruct (bellman_ford_cell T_add n Ap Aj Ax d cm i Hi Hlen) as (Hcell & _ & Hle).
    cbv zeta in Hcell, Hle. rewrite Hcell.
    destruct (fold_left (bellman_ford_step T_add Ap Aj Ax) (seq 0 i) (d, cm))
      as [d1 cm1]. simpl in *.
    destruct (bellman_ford_row_spec T_add Aj Ax d1 cm1 (row_slots Ap i)
                (d !!! i) (cm !!! i)) as (_ & Hall & _).
    specialize (Hall jj Hjj).
    pose proof (Hmono (Ax !!! jj) _ _ (Hle (Aj !!! jj))). lra. }
  split; [done|]. split.
  - intros Hsame i jj Hi Hjj.
    specialize (Hbound i jj Hi Hjj). specialize (Hsame i Hi). lra.
  - intros Hrel. unfold bellman_ford.
    assert (H : ∀ l, (∀ i, i ∈ l → i < n) →
              fold_left (bellman_ford_step T_add Ap Aj Ax) l (d, cm) = (d, cm)).
    { induction l as [|k l IH]; intros Hl; cbn [fold_left]; [done|].
      assert (Hk : k < n) by (apply Hl; by left).
      assert (E : bellman_ford_step T_add Ap Aj Ax (d, cm) k = (d, cm)).
      { unfold bellman_ford_step.
        destruct (bellman_ford_row_spec T_add Aj Ax d cm (row_slots Ap k)
                    (d !!! k) (cm !!! k))
          as (_ & _ & [->|(jj & Hjj & _ & Hless)]).
        - f_equal.
          + apply list_insert_id, list_lookup_lookup_total_lt. lia.
          + destruct (decide (k < length cm)) as [Hlt|Hge].
            * by apply list_insert_id, list_lookup_lookup_total_lt.
            * apply list_insert_ge. lia.
        - specialize (Hrel k jj Hk Hjj). lra. }
      rewrite E. apply IH. intros i Hi. apply Hl. by right. }
    apply H. intros i Hi. apply elem_of_seq in Hi. lia.
Qed.

Lemma bellman_ford_relaxes_edges_witness :
  bellman_ford Qplus 3 path3_Ap path3_Aj [1; 1; 1; 1]%Q [0; 1; 2]%Q [0; 0; 0]%Z
  = ([0; 1; 2]%Q, [0; 0; 0]%Z).
Proof.
  destruct (bellman_ford_relaxes_edges Qplus 3 path3_Ap path3_Aj [1; 1; 1; 1]%Q
              [0; 1; 2]%Q [0; 0; 0]%Z) as (_ & _ & Hfix);
    [intros a b c Hbc; lra|reflexivity|].
  apply Hfix. intros i jj Hi Hjj.
  destruct i as [|[|[|i]]]; [| | |lia]; vm_compute in Hjj;
    repeat (apply elem_of_cons in Hjj as [->|Hjj]);
    try (by apply elem_of_nil in Hjj); vm_compute; discriminate.
Defined.

Lemma row_slots_row Ap Aj i jj : jj ∈ row_slots Ap i → Aj !!! jj ∈ row Ap Aj i.
Proof. intros Hjj. unfold row. by apply (list_elem_of_fmap_2 (λ jj, Aj !!! jj)). Qed.

(** X6.  Let the sum of the type [T] be monotone in the distance.  Then
    [bellman_ford] never pushes a distance below a lower bound that
    respects the edges: if [h] is below [d] everywhere and
    [h[i] <= Ax[jj] + h[Aj[jj]]], with the sum as the type computes it, on
    every stored edge, then [h] is still below [d] after the call. *)
Theorem bellman_ford_keeps_lower_bound (T_add : Q → Q → Q)
    (n : nat) (Ap Aj : list nat)
    (Ax d : list Q) (cm : list Z) (h : list Q) :
  (∀ a b c, (b <= c)%Q → (T_add a b <= T_add a c)%Q) →
  csr_cols_ok n Ap Aj →
  edges_relaxed T_add n Ap Aj Ax h →
  (∀ i, i < n → (h !!! i <= d !!! i)%Q) →
  ∀ i, i < n → (h !!! i <= (bellman_ford T_add n Ap Aj Ax d cm).1 !!! i)%Q.
Proof.
  intros Hmono Hcols Hrel Hbelow. unfold bellman_ford.
  assert (H : ∀ l d cm, (∀ k, k ∈ l → k < n) →
            (∀ i, i < n → (h !!! i <= d !!! i)%Q) →
            ∀ i, i < n →
              (h !!! i
               <= (fold_left (bellman_ford_step T_add Ap Aj Ax) l (d, cm)).1 !!! i)%Q).
  { clear d cm Hbelow.
    induction l as [|k l IH]; intros d cm Hl Hbelow; cbn [fold_left]; [done|].
    assert (Hk : k < n) by (apply Hl; by left).
    rewrite bellman_ford_step_eq. apply IH; [intros k' Hk'; apply Hl; by right|].
    intros i Hi. destruct (decide (i = k)) as [->|Hne].
    - destruct (decide (k < length d)) as [Hlt|Hge].
      + rewrite list_lookup_total_insert_eq by done.
        destruct (bellman_ford_row_spec T_add Aj Ax d cm (row_slots Ap k)
                    (d !!! k) (cm !!! k))
          as (_ & _ & [->|(jj & Hjj & -> & _)]); simpl; [by apply Hbelow|].
        pose proof (Hrel k jj Hk Hjj) as H1.
        pose proof (Hmono (Ax !!! jj) _ _
                      (Hbelow (Aj !!! jj)
                         (Hcols k _ Hk (row_slots_row Ap Aj k jj Hjj)))) as H2.
        lra.
      + rewrite list_insert_ge by lia. by apply Hbelow.
    - rewrite list_lookup_total_insert_ne by done. by apply Hbelow. }
  apply H; [|done]. intros k Hk. apply elem_of_seq in Hk. lia.
Qed.

Lemma bellman_ford_keeps_lower_bound_witness :
  bellman_ford Qplus 3 path3_Ap path3_Aj [1; 1; 1; 1]%Q [0; 9; 9]%Q [0; -1; -1]%Z
  = ([0; 1; 2]%Q, [0; 0; 0]%Z)
  ∧ ∀ i, i < 3 →
      ([0; 1; 2]%Q !!! i
       <= (bellman_ford Qplus 3 path3_Ap path3_Aj [1; 1; 1; 1]%Q [0; 9; 9]%Q
             [0; -1; -1]%Z).1 !!! i)%Q.
Proof.
  split; [vm_compute; reflexivity|].
  apply (bellman_ford_keeps_lower_bound Qplus 3 path3_Ap path3_Aj [1; 1; 1; 1]%Q
           [0; 9; 9]%Q [0; -1; -1]%Z [0; 1; 2]%Q).
  - intros a b c Hbc. lra.
  - apply csr_cols_okb_sound. vm_compute. reflexivity.
  - intros i jj Hi Hjj.
    destruct i as [|[|[|i]]]; [| | |lia]; vm_compute in Hjj;
      repeat (apply elem_of_cons in Hjj as [->|Hjj]);
      try (by apply elem_of_nil in Hjj); vm_compute; discriminate.
  - intros i Hi. destruct i as [|[|[|i]]]; [| | |lia]; vm_compute; discriminate.
Defined.

(** X7.  [bellman_ford] changes the label of a node only when it strictly
    lowers its distance, and every label on return is a label some node
    had on entry, whatever the sum of the type [T] yields. *)
Theorem bellman_ford_labels (T_add : Q → Q → Q)
    (n : nat) (Ap Aj : list nat) (Ax d : list Q) (cm : list Z) :
  csr_cols_ok n Ap Aj → length d = n →
  ∀ i, i < n →
    ((bellman_ford T_add n Ap Aj Ax d cm).2 !!! i ≠ cm !!! i →
     ((bellman_ford T_add n Ap Aj Ax d cm).1 !!! i < d !!! i)%Q)
    ∧ ∃ w, w < n ∧ (bellman_ford T_add n Ap Aj Ax d cm).2 !!! i = cm !!! w.
Proof.
  intros Hcols Hlen i Hi. split.
  - destruct (bellman_ford_cell T_add n Ap Aj Ax d cm i Hi Hlen) as (Hd & Hcm & _).
    cbv zeta in Hd, Hcm. rewrite Hd.
    destruct (decide (i < length cm)) as [Hlt|Hge].
    + rewrite (Hcm Hlt).
      destruct (fold_left (bellman_ford_step T_add Ap Aj Ax) (seq 0 i) (d, cm))
        as [d1 cm1]. cbn [fst snd].
      destruct (bellman_ford_row_spec T_add Aj Ax d1 cm1 (row_slots Ap i)
                  (d !!! i) (cm !!! i))
        as (_ & _ & [->|(jj & Hjj & -> & Hless)]); simpl; [done|].
      by intros _.
    + intros Hne. exfalso. apply Hne.
      destruct (bellman_ford_fold_length T_add Ap Aj Ax (seq 0 n) d cm) as [_ Lcm].
      unfold bellman_ford.
      rewrite !list_lookup_total_alt, !lookup_ge_None_2 by lia. done.
  - unfold bellman_ford.
    assert (H : ∀ l d1 cm1, (∀ k, k ∈ l → k < n) →
              (∀ i, i < n → ∃ w, w < n ∧ cm1 !!! i = cm !!! w) →
              ∀ i, i < n → ∃ w, w < n ∧
                (fold_left (bellman_ford_step T_add Ap Aj Ax) l (d1, cm1)).2 !!! i
                = cm !!! w).
    { induction l as [|k l IH]; intros d1 cm1 Hl Hfrom; cbn [fold_left];
        [done|].
      assert (Hk : k < n) by (apply Hl; by left).
      rewrite bellman_ford_step_eq.
      apply IH; [intros k' Hk'; apply Hl; by right|].
      intros i' Hi'. destruct (decide (i' = k)) as [->|Hne].
      - destruct (decide (k < length cm1)) as [Hlt|Hge].
        + rewrite list_lookup_total_insert_eq by done.
          destruct (bellman_ford_row_spec T_add Aj Ax d1 cm1 (row_slots Ap k)
                      (d1 !!! k) (cm1 !!! k))
            as (_ & _ & [->|(jj & Hjj & -> & _)]); simpl; [by apply Hfrom|].
          apply Hfrom, (Hcols k); [done|]. by apply row_slots_row.
        + rewrite list_insert_ge by lia. by apply Hfrom.
      - rewrite list_lookup_total_insert_ne by done. by apply Hfrom. }
    apply H; [|by intros i' Hi'; exists i'|done].
    intros k Hk. apply elem_of_seq in Hk. lia.
Qed.

Lemma bellman_ford_labels_witness :
  ∃ w, w < 3
    ∧ (bellman_ford Qplus 3 path3_Ap path3_Aj [1; 1; 1; 1]%Q [0; 9; 9]%Q
         [0; -1; -1]%Z).2 !!! 2
      = [0; -1; -1]%Z !!! w.
Proof.
  apply (bellman_ford_labels Qplus 3 path3_Ap path3_Aj [1; 1; 1; 1]%Q [0; 9; 9]%Q
           [0; -1; -1]%Z).
  - apply csr_cols_okb_sound. vm_compute. reflexivity.
  - reflexivity.
  - lia.
Defined.

(** ** csr_propagate_max: the largest pair of the closed neighbourhood *)

(** X8.  Let every buffered pair be a key with the value of that key:
    [i_vals[j] = val[i_keys[j]]].  Then [csr_propagate_max] writes to cell
    [u] the pair of [u] or of one of its neighbours, and this pair is the
    largest among them, by value and for equal values by key.  The output
    pairs are again keys with their value. *)
Theorem csr_propagate_max_largest (n : nat) (Ap Aj : list nat) (val : list Q)
    (i_keys o_keys : list nat) (i_vals o_vals : list Q) (u : nat) :
  csr_cols_ok n Ap Aj → length o_keys = n → length o_vals = n →
  (∀ j, j < n → i_vals !!! j = val !!! (i_keys !!! j)) →
  u < n →
  (∃ w, (w = u ∨ w ∈ row Ap Aj u)
     ∧ (csr_propagate_max n Ap Aj i_keys o_keys i_vals o_vals).1 !!! u
       = i_keys !!! w
     ∧ (csr_propagate_max n Ap Aj i_keys o_keys i_vals o_vals).2 !!! u
       = i_vals !!! w)
  ∧ (∀ w, w = u ∨ w ∈ row Ap Aj u →
       lex_le (i_keys !!! w) (i_vals !!! w)
         ((csr_propagate_max n Ap Aj i_keys o_keys i_vals o_vals).1 !!! u)
         ((csr_propagate_max n Ap Aj i_keys o_keys i_vals o_vals).2 !!! u))
  ∧ (csr_propagate_max n Ap Aj i_keys o_keys i_vals o_vals).2 !!! u
    = val !!! ((csr_propagate_max n Ap Aj i_keys o_keys i_vals o_vals).1 !!! u).
Proof.
  intros Hcols Hok Hov Hpairs Hu.
  destruct (csr_propagate_max_lookup n Ap Aj i_keys o_keys i_vals o_vals
              Hok Hov) as (_ & _ & Hcell).
  specialize (Hcell u Hu). cbv zeta in Hcell.
  assert (Hrow : ∀ j, j ∈ row Ap Aj u → j < n) by (intros j; by apply Hcols).
  destruct (propagate_row_fold n val i_keys i_vals Hpairs (row Ap Aj u)
              (i_keys !!! u) Hrow) as (Hval & Hkey & Hle0 & Hlej).
  cbv zeta in Hval, Hkey, Hle0, Hlej.
  rewrite <- (Hpairs u Hu), <- Hcell in Hval, Hkey, Hle0, Hlej.
  simpl in Hval, Hkey, Hle0, Hlej.
  split; [|split; [|done]].
  - destruct Hkey as [HK|(j & Hj & HK)].
    + exists u. split; [by left|]. split; [done|].
      by rewrite Hval, HK, (Hpairs u Hu).
    + exists j. split; [by right|]. split; [done|].
      by rewrite Hval, HK, (Hpairs j (Hrow j Hj)).
  - intros w [->|Hw]; [done|by apply Hlej].
Qed.

Lemma csr_propagate_max_largest_witness :
  csr_propagate_max 3 path3_Ap path3_Aj [0; 1; 2] [0; 0; 0]
    [1#2; 1#3; 1#2]%Q [0; 0; 0]%Q
  = ([0; 2; 2], [1#2; 1#2; 1#2]%Q)
  ∧ ∀ w, w = 1 ∨ w ∈ row path3_Ap path3_Aj 1 →
      lex_le ([0; 1; 2] !!! w) ([1#2; 1#3; 1#2]%Q !!! w) 2 (1#2)%Q.
Proof.
  split; [reflexivity|].
  apply (csr_propagate_max_largest 3 path3_Ap path3_Aj [1#2; 1#3; 1#2]%Q
           [0; 1; 2] [0; 0; 0] [1#2; 1#3; 1#2]%Q [0; 0; 0]%Q 1).
  - apply csr_cols_okb_sound. vm_compute. reflexivity.
  - reflexivity.
  - reflexivity.
  - intros j Hj. destruct j as [|[|[|j]]]; [reflexivity..|lia].
  - lia.
Defined.

(** ** maximal_independent_set_k_parallel: the set is maximal *)

Section MisKMaximal.
Variables (n : nat) (Ap Aj : list nat) (k : nat) (y : list Q).
Hypothesis Hcols : csr_cols_ok n Ap Aj.

(** The arrays have their length and [x] holds 0 or 1. *)
Definition misk_bits (s : misk_state) : Prop :=
  misk_shape n s ∧ ∀ u, u < n → misk_x s !!! u = 0%Z ∨ misk_x s !!! u = 1%Z.

Lemma misk_bits_round s :
  misk_bits s →
  misk_bits (misk_round n Ap Aj k y s).1
  ∧ ((misk_round n Ap Aj k y s).2 = false →
     ∀ u, u < n → near_set n Ap Aj k (misk_x (misk_round n Ap Aj k y s).1) u).
Proof.
  intros [Hshape Hx01].
  destruct (misk_round_unfold n Ap Aj k y Hcols s Hshape)
    as (keys1 & vals3 & Hrel).
  destruct (misk_round n Ap Aj k y s) as [s1 work_left]. simpl in *.
  assert (Hx01' : ∀ u, u < n → misk_x s1 !!! u = 0%Z ∨ misk_x s1 !!! u = 1%Z).
  { intros u Hu. rewrite (mr_x _ _ _ _ _ _ _ _ _ _ Hrel u Hu).
    destruct (_ && _); [by right|by apply Hx01]. }
  split; [split; [apply (mr_shape _ _ _ _ _ _ _ _ _ _ Hrel)|done]|].
  intros -> u Hu.
  apply (misk_round_near n Ap Aj k y s s1 false keys1 vals3 u Hrel Hx01' Hu).
  destruct (Qeq_bool (vals3 !!! u) 1) eqn:E; [done|].
  assert (false = true); [|done].
  apply (mr_work_left _ _ _ _ _ _ _ _ _ _ Hrel). by exists u.
Qed.

Lemma misk_for_maximal fuel iter s s' :
  misk_bits s →
  misk_for fuel n Ap Aj k y (-1) iter s = Some s' →
  misk_bits s' ∧ ∀ u, u < n → near_set n Ap Aj k (misk_x s') u.
Proof.
  revert iter s. induction fuel as [|fuel IH]; intros iter s Hbits;
    cbn [misk_for Z.eqb orb]; [done|].
  destruct (misk_bits_round s Hbits) as [Hbits1 Hnear].
  destruct (misk_round n Ap Aj k y s) as [s1 work_left]. simpl in *.
  destruct work_left; simpl.
  - by apply IH.
  - intros [= <-]. split; [done|]. by apply Hnear.
Qed.
End MisKMaximal.

(** X9.  Without a bound on the rounds ([max_iters = -1]) the set built by
    [maximal_independent_set_k_parallel] is maximal: whenever the call
    returns, every cell of [x] holds 0 or 1 and every vertex is within [k]
    edges of a vertex that holds 1.  On a symmetric graph with weights
    above -1 the call returns. *)
Theorem misk_every_vertex_near_set (n : nat) (Ap Aj : list nat) (k : nat)
    (x : list Z) (y : list Q) :
  csr_cols_ok n Ap Aj → length x = n →
  (∀ fuel x',
     maximal_independent_set_k_parallel fuel n Ap Aj k x y (-1) = Some x' →
     (∀ u, u < n → x' !!! u = 0%Z ∨ x' !!! u = 1%Z)
     ∧ ∀ u, u < n →
         ∃ w d, d ≤ k ∧ walk n Ap Aj u d w ∧ x' !!! w = 1%Z)
  ∧ (csr_symmetric n Ap Aj → (∀ u, u < n → (-1 < y !!! u)%Q) →
     ∀ fuel, n < fuel →
       ∃ x', maximal_independent_set_k_parallel fuel n Ap Aj k x y (-1)
             = Some x').
Proof.
  intros Hcols Hx. split.
  - intros fuel x' Hrun. unfold maximal_independent_set_k_parallel in Hrun.
    destruct (misk_for _ _ _ _ _ _ _ _ _) as [s'|] eqn:Hfor; [|done].
    injection Hrun as <-.
    apply (misk_for_maximal n Ap Aj k y Hcols) in Hfor as [[_ H01] Hnear].
    + split; [done|]. intros u Hu. by apply Hnear.
    + destruct (misk_init_spec n x y Hx) as (L1 & L2 & L3 & L4 & L5 & L6 & Hc).
      split.
      * split; try done. intros u Hu. by destruct (Hc u Hu) as (_ & ? & _).
      * intros u Hu. left. by destruct (Hc u Hu).
  - intros Hsym Hy fuel Hfuel. by apply misk_returns.
Qed.

Lemma misk_every_vertex_near_set_witness :
  maximal_independent_set_k_parallel 6 5 path5_Ap path5_Aj 2
    [7; 7; 7; 7; 7]%Z [1#2; 1#3; 1#4; 1#5; 1#6]%Q (-1)
  = Some [1; 0; 0; 1; 0]%Z
  ∧ ∀ u, u < 5 →
      ∃ w d, d ≤ 2 ∧ walk 5 path5_Ap path5_Aj u d w
             ∧ [1; 0; 0; 1; 0]%Z !!! w = 1%Z.
Proof.
  split; [vm_compute; reflexivity|].
  destruct (misk_every_vertex_near_set 5 path5_Ap path5_Aj 2
              [7; 7; 7; 7; 7]%Z [1#2; 1#3; 1#4; 1#5; 1#6]%Q)
    as [Hmax _].
  - apply csr_cols_okb_sound. vm_compute. reflexivity.
  - reflexivity.
  - apply (Hmax 6 [1; 0; 0; 1; 0]%Z). reflexivity.
Defined.

(** ** bellman_ford_balanced: what a call that returns leaves behind *)

(** One edge: the state is left as it was and the edge was relaxed, or the
    distance of [i] got a value that is not larger and the flag is set. *)
Lemma bfb_edge_returns T_add ndebug Aj Ax i s jj s' :
  bfb_edge T_add ndebug Aj Ax i (Returns s) jj = Returns s' →
  (s' = s
   ∧ (bfb_d s !!! i <= T_add (Ax !!! jj) (bfb_d s !!! (Aj !!! jj)))%Q)
  ∨ (bfb_change s' = true
     ∧ bfb_d s' = <[i := (T_add (Ax !!! jj) (bfb_d s !!! (Aj !!! jj)))%Q]> (bfb_d s)
     ∧ (T_add (Ax !!! jj) (bfb_d s !!! (Aj !!! jj)) <= bfb_d s !!! i)%Q).
Proof.
  destruct s as [d cm predecessor pred_count cs change].
  unfold bfb_edge. cbn [mbind outcome_bind bfb_d].
  destruct (Qltb (T_add (Ax !!! jj) (d !!! (Aj !!! jj))) (d !!! i)) eqn:Hlt;
    cbn [orb].
  - apply Qltb_iff in Hlt.
    destruct (cm !!! i >? -1)%Z; unfold assert;
      repeat (destruct (ndebug || _); cbn [mbind outcome_bind];
              try discriminate);
      destruct (predecessor !!! i >? -1)%Z;
      repeat (destruct (ndebug || _); cbn [mbind outcome_bind];
              try discriminate);
      intros [= <-]; right; cbn; (split; [done|split; [done|lra]]).
  - apply Qltb_false in Hlt.
    destruct ((cm !!! i >? -1)%Z
              && Qeq_bool (T_add (Ax !!! jj) (d !!! (Aj !!! jj))) (d !!! i)
              && (at_Z cs (cm !!! (Aj !!! jj)) <? at_Z cs (cm !!! i))%Z
              && (pred_count !!! i =? 0)%Z) eqn:Hcond.
    + apply andb_prop in Hcond as [Hcond _].
      apply andb_prop in Hcond as [Hcond _].
      apply andb_prop in Hcond as [Hcm Heq].
      apply Qeq_bool_iff in Heq. rewrite Hcm.
      unfold assert;
      repeat (destruct (ndebug || _); cbn [mbind outcome_bind];
              try discriminate);
      destruct (predecessor !!! i >? -1)%Z;
      repeat (destruct (ndebug || _); cbn [mbind outcome_bind];
              try discriminate);
      intros [= <-]; right; cbn; (split; [done|split; [done|lra]]).
    + intros [= <-]. left. split; [done|lra].
Qed.

Lemma bfb_edge_stopped T_add ndebug Aj Ax i st jj s' :
  bfb_edge T_add ndebug Aj Ax i st jj = Returns s' → ∃ s, st = Returns s.
Proof. destruct st as [s| |]; [by exists s|done|done]. Qed.

(** The state [s'] may follow [s] in a sweep: no distance is larger, and
    if the flag is still clear nothing has changed. *)
Definition bfb_follows (s s' : bfb_state) : Prop :=
  length (bfb_d s') = length (bfb_d s)
  ∧ (∀ w, (bfb_d s' !!! w <= bfb_d s !!! w)%Q)
  ∧ (bfb_change s = true → bfb_change s' = true)
  ∧ (bfb_change s' = false → s' = s).

Lemma bfb_follows_refl s : bfb_follows s s.
Proof. split; [done|]. split; [intros; apply Qle_refl|done]. Qed.

Lemma bfb_follows_trans s1 s2 s3 :
  bfb_follows s1 s2 → bfb_follows s2 s3 → bfb_follows s1 s3.
Proof.
  intros (L1 & D1 & C1 & E1) (L2 & D2 & C2 & E2).
  split; [congruence|]. split; [|split].
  - intros w. eapply Qle_trans; [apply D2|apply D1].
  - auto.
  - intros H3. specialize (E2 H3). subst s3. auto.
Qed.

Lemma bfb_edge_follows T_add ndebug Aj Ax i s jj s' :
  bfb_edge T_add ndebug Aj Ax i (Returns s) jj = Returns s' →
  bfb_follows s s'
  ∧ (bfb_change s' = false →
     (bfb_d s !!! i <= T_add (Ax !!! jj) (bfb_d s !!! (Aj !!! jj)))%Q).
Proof.
  intros [[-> Hrel]|(Hch & Hd & Hle)]%bfb_edge_returns.
  - split; [apply bfb_follows_refl|done].
  - split; [|congruence]. split; [by rewrite Hd, length_insert|].
    split; [|split; [done|congruence]].
    intros w. rewrite Hd. destruct (decide (w = i)) as [->|Hne].
    + destruct (decide (i < length (bfb_d s))) as [Hlt|Hge].
      * by rewrite list_lookup_total_insert_eq.
      * rewrite list_insert_ge by lia. apply Qle_refl.
    + rewrite list_lookup_total_insert_ne by done. apply Qle_refl.
Qed.

(** The loop over the row of [i]. *)
Lemma bfb_row_follows T_add ndebug Aj Ax i js s s' :
  fold_left (bfb_edge T_add ndebug Aj Ax i) js (Returns s) = Returns s' →
  bfb_follows s s'
  ∧ (bfb_change s' = false →
     ∀ jj, jj ∈ js →
       (bfb_d s !!! i <= T_add (Ax !!! jj) (bfb_d s !!! (Aj !!! jj)))%Q).
Proof.
  revert s. induction js as [|jj js IH]; intros s; cbn [fold_left].
  - intros [= <-]. split; [apply bfb_follows_refl|].
    intros _ jj Hjj. by apply elem_of_nil in Hjj.
  - intros Hrun.
    destruct (bfb_edge T_add ndebug Aj Ax i (Returns s) jj) as [s1| |] eqn:E.
    + apply bfb_edge_follows in E as [Hf1 Hrel1].
      destruct (IH s1 Hrun) as [Hf2 Hrel2].
      split; [by apply (bfb_follows_trans s s1)|].
      intros Hch jj' Hjj'.
      destruct Hf2 as (_ & _ & _ & E2). specialize (E2 Hch). subst s'.
      destruct Hf1 as (_ & _ & _ & E1). specialize (E1 Hch). subst s1.
      apply elem_of_cons in Hjj' as [->|Hjj']; [by apply Hrel1|by apply Hrel2].
    + exfalso. clear -Hrun. induction js as [|jj' js IH']; [done|].
      by apply IH'.
    + exfalso. clear -Hrun. induction js as [|jj' js IH']; [done|].
      by apply IH'.
Qed.

(** The loop over the nodes. *)
Lemma bfb_nodes_follows T_add ndebug Ap Aj Ax l s s' :
  fold_left (λ st i, fold_left (bfb_edge T_add ndebug Aj Ax i) (row_slots Ap i) st)
    l (Returns s) = Returns s' →
  bfb_follows s s'
  ∧ (bfb_change s' = false →
     ∀ i jj, i ∈ l → jj ∈ row_slots Ap i →
       (bfb_d s !!! i <= T_add (Ax !!! jj) (bfb_d s !!! (Aj !!! jj)))%Q).
Proof.
  revert s. induction l as [|i l IH]; intros s; cbn [fold_left].
  - intros [= <-]. split; [apply bfb_follows_refl|].
    intros _ i jj Hi. by apply elem_of_nil in Hi.
  - intros Hrun.
    destruct (fold_left (bfb_edge T_add ndebug Aj Ax i) (row_slots Ap i) (Returns s))
      as [s1| |] eqn:E.
    + apply bfb_row_follows in E as [Hf1 Hrel1].
      destruct (IH s1 Hrun) as [Hf2 Hrel2].
      split; [by apply (bfb_follows_trans s s1)|].
      intros Hch i' jj Hi' Hjj.
      destruct Hf2 as (_ & _ & _ & E2). specialize (E2 Hch). subst s'.
      destruct Hf1 as (_ & _ & _ & E1). specialize (E1 Hch). subst s1.
      apply elem_of_cons in Hi' as [->|Hi'];
        [by apply Hrel1|by apply (Hrel2 Hch i')].
    + exfalso. clear -Hrun. induction l as [|i' l IH']; [done|].
      cbn [fold_left] in Hrun.
      replace (fold_left (bfb_edge T_add ndebug Aj Ax i') (row_slots Ap i')
                 AssertionFailed) with (@AssertionFailed bfb_state) in Hrun;
        [by apply IH'|].
      clear. induction (row_slots Ap i') as [|jj js IHj]; [done|]. done.
    + exfalso. clear -Hrun. induction l as [|i' l IH']; [done|].
      cbn [fold_left] in Hrun.
      replace (fold_left (bfb_edge T_add ndebug Aj Ax i') (row_slots Ap i')
                 OutOfFuel) with (@OutOfFuel bfb_state) in Hrun;
        [by apply IH'|].
      clear. induction (row_slots Ap i') as [|jj js IHj]; [done|]. done.
Qed.

Lemma bfb_do_while_returns T_add fuel ndebug n Ap Aj Ax iteration s s' :
  bfb_do_while T_add fuel ndebug n Ap Aj Ax iteration s = Returns s' →
  length (bfb_d s') = length (bfb_d s)
  ∧ (∀ w, (bfb_d s' !!! w <= bfb_d s !!! w)%Q)
  ∧ edges_relaxed T_add n Ap Aj Ax (bfb_d s').
Proof.
  revert iteration s. induction fuel as [|fuel IH]; intros iteration s;
    cbn [bfb_do_while]; [done|].
  unfold bfb_sweep.
  destruct (fold_left _ (seq 0 n) _) as [s1| |] eqn:E;
    cbn [mbind outcome_bind]; [|done|done].
  apply bfb_nodes_follows in E as [(L1 & D1 & _ & Esame) Hrel].
  cbn [bfb_d bfb_change] in L1, D1, Hrel.
  unfold assert. destruct (ndebug || _); cbn [mbind outcome_bind]; [|done].
  destruct (bfb_change s1) eqn:Hch.
  - intros Hrun. destruct (IH _ _ Hrun) as (L2 & D2 & R2).
    split; [congruence|]. split; [|done].
    intros w. eapply Qle_trans; [apply D2|apply D1].
  - intros [= <-]. split; [done|]. split; [done|].
    intros i jj Hi Hjj. rewrite (Esame eq_refl). cbn [bfb_d].
    apply (Hrel eq_refl i jj); [|done]. apply elem_of_seq. lia.
Qed.

(** X10.  Whenever [bellman_ford_balanced] returns, with or without
    assertions, no distance is larger than on entry and every edge is
    relaxed: [d[i] <= Ax[jj] + d[Aj[jj]]] for every stored neighbour of
    every node, the sum being the one the type [T] computes, whatever its
    rounding. *)
Theorem bellman_ford_balanced_returns_relaxed (T_add : Q → Q → Q)
    (fuel : nat) (ndebug : bool)
    (n k : nat) (Ap Aj : list nat) (Ax d : list Q) (cm : list Z) (c : list nat)
    (d' : list Q) (cm' : list Z) :
  bellman_ford_balanced T_add fuel ndebug n k Ap Aj Ax d cm c
  = Returns (d', cm') →
  length d' = length d
  ∧ (∀ w, (d' !!! w <= d !!! w)%Q)
  ∧ edges_relaxed T_add n Ap Aj Ax d'.
Proof.
  unfold bellman_ford_balanced, assert.
  destruct (ndebug || (length d =? n)); cbn [mbind outcome_bind]; [|done].
  destruct (ndebug || (length cm =? n)); cbn [mbind outcome_bind]; [|done].
  destruct (ndebug || (length c =? k)); cbn [mbind outcome_bind]; [|done].
  destruct (bfb_do_while _ _ _ _ _ _ _ _ _) as [s'| |] eqn:E;
    cbn [mbind outcome_bind]; [|done|done].
  intros [= <- <-]. by apply bfb_do_while_returns in E.
Qed.

Lemma bellman_ford_balanced_returns_relaxed_witness :
  bellman_ford_balanced Qplus 3 false 3 1 path3_Ap path3_Aj [1; 1; 1; 1]%Q
    [0; 1000; 1000]%Q [0; -1; -1]%Z [0]
  = Returns ([0; 1; 2]%Q, [0; 0; 0]%Z)
  ∧ edges_relaxed Qplus 3 path3_Ap path3_Aj [1; 1; 1; 1]%Q [0; 1; 2]%Q.
Proof.
  split; [vm_compute; reflexivity|].
  apply (bellman_ford_balanced_returns_relaxed Qplus 3 false 3 1 path3_Ap path3_Aj
           [1; 1; 1; 1]%Q [0; 1000; 1000]%Q [0; -1; -1]%Z [0]
           [0; 1; 2]%Q [0; 0; 0]%Z).
  reflexivity.
Defined.

(** ** breadth_first_search: the order is by level *)

Section BfsOrder.
Variables (n : nat) (Ap Aj : list nat).
Hypothesis Hcols : csr_cols_ok n Ap Aj.
Variables (seed : nat) (order0 : list nat).

(** The levels do not decrease along [order[0 .. N)]. *)
Definition bfs_sorted (s : bfs_state) : Prop :=
  ∀ p q, p ≤ q → q < bfs_N s →
    (bfs_level s !!! (bfs_order s !!! p)
     ≤ bfs_level s !!! (bfs_order s !!! q))%Z.

Lemma bfs_visited_lookup s p :
  bfs_wf n s → p < bfs_N s → bfs_order s !!! p ∈ bfs_visited s.
Proof.
  intros Hwf Hp. unfold bfs_visited.
  rewrite <- (lookup_total_take_lt _ (bfs_N s)) by done.
  apply list_elem_of_lookup_total_2.
  rewrite length_take, (wf_order_len n s Hwf). pose proof (wf_N n s Hwf). lia.
Qed.

Lemma bfs_sorted_step c lb le s :
  bfs_inv n Ap Aj seed order0 c lb le s → lb < le → bfs_sorted s →
  bfs_sorted (bfs_scan_level Ap Aj lb le (Z.of_nat (S c)) s).
Proof.
  intros Hinv Hlt Hsorted.
  pose proof (bfs_inv_step n Ap Aj Hcols seed order0 c lb le s Hinv Hlt) as Hinv'.
  cbv zeta in Hinv'.
  destruct Hinv as [Hwf Hle Hlb _ _ _ _].
  assert (Hcl : Z.of_nat (S c) ≠ (-1)%Z) by lia.
  assert (Hiis : ∀ ii, ii ∈ seq lb (le - lb) →
            ii < bfs_N s ∧ bfs_order s !!! ii < n).
  { intros ii Hii%elem_of_seq. split; [lia|].
    apply (wf_bound n s Hwf). apply bfs_visited_lookup; [done|lia]. }
  destruct (bfs_scan_fold n Ap Aj Hcols (Z.of_nat (S c)) s (seq lb (le - lb)) s
              Hcl Hwf (bfs_ext_refl n _ s) Hiis) as (Hwf' & Hext & _ & _).
  fold (bfs_scan_level Ap Aj lb le (Z.of_nat (S c)) s) in Hwf', Hext.
  set (s' := bfs_scan_level Ap Aj lb le (Z.of_nat (S c)) s) in *.
  intros p q Hpq Hq.
  assert (Hvp : bfs_order s' !!! p ∈ bfs_visited s')
    by (apply bfs_visited_lookup; [done|lia]).
  assert (Hvq : bfs_order s' !!! q ∈ bfs_visited s')
    by (by apply bfs_visited_lookup).
  pose proof (wf_bound n s' Hwf' _ Hvp) as Hpn.
  pose proof (wf_bound n s' Hwf' _ Hvq) as Hqn.
  destruct (decide (q < bfs_N s)) as [Hold|Hnew].
  - rewrite !(bfs_ext_lookup n (Z.of_nat (S c)) s s') by (done || lia).
    assert (Hp' : bfs_order s !!! p ∈ bfs_visited s)
      by (apply bfs_visited_lookup; [done|lia]).
    assert (Hq' : bfs_order s !!! q ∈ bfs_visited s)
      by (by apply bfs_visited_lookup).
    pose proof (wf_bound n s Hwf _ Hp') as Hpn'.
    pose proof (wf_bound n s Hwf _ Hq') as Hqn'.
    rewrite !(ext_old n _ _ _ Hext) by (done || by apply (wf_marked n s Hwf)).
    by apply Hsorted.
  - assert (Hq' : bfs_level s' !!! (bfs_order s' !!! q) = Z.of_nat (S c)).
    { apply (inv_window _ _ _ _ _ _ _ _ _ Hinv'); [done|].
      exists q. split; [lia|done]. }
    assert (Hpset : bfs_level s' !!! (bfs_order s' !!! p) ≠ (-1)%Z)
      by (by apply (wf_marked n s' Hwf')).
    destruct (inv_dist _ _ _ _ _ _ _ _ _ Hinv' _ Hpn Hpset) as (d & Hd & -> & _).
    lia.
Qed.

Lemma bfs_while_sorted fuel c lb le s s' :
  bfs_inv n Ap Aj seed order0 c lb le s → bfs_sorted s →
  bfs_while fuel Ap Aj lb le (Z.of_nat (S c)) s = Some s' →
  bfs_sorted s'.
Proof.
  revert c lb le s. induction fuel as [|fuel IH]; intros c lb le s Hinv Hsorted;
    cbn [bfs_while].
  - destruct (lb <? le); [done|]. by intros [= <-].
  - destruct (Nat.ltb_spec lb le) as [Hlt|Hge]; [|by intros [= <-]].
    pose proof (bfs_inv_step n Ap Aj Hcols seed order0 c lb le s Hinv Hlt) as Hinv'.
    cbv zeta in Hinv'.
    replace (Z.of_nat (S c) + 1)%Z with (Z.of_nat (S (S c))) by lia.
    apply (IH (S c)); [done|]. by apply (bfs_sorted_step c lb).
Qed.
End BfsOrder.

(** X11.  With [level] filled with [-1], [breadth_first_search] writes the
    reachable vertices to [order[0 .. N)] in the order of their levels:
    [order[0]] is the seed and the level never decreases along the first
    [N] entries. *)
Theorem bfs_order_by_level (n : nat) (Ap Aj : list nat) (seed : nat)
    (order : list nat) (level : list Z) (fuel : nat) :
  csr_cols_ok n Ap Aj → seed < n →
  length order = n → length level = n →
  (∀ v, v < n → level !!! v = (-1)%Z) → n ≤ fuel →
  ∃ order' level' N,
    breadth_first_search fuel Ap Aj seed order level = Some (order', level')
    ∧ 1 ≤ N ≤ n
    ∧ (∀ j, j ∈ take N order' ↔ reachable n Ap Aj seed j)
    ∧ order' !!! 0 = seed
    ∧ ∀ p q, p ≤ q → q < N →
        (level' !!! (order' !!! p) ≤ level' !!! (order' !!! q))%Z.
Proof.
  intros Hcols Hseed Hol Hll Hfresh Hfuel.
  destruct (bfs_run_spec n Ap Aj Hcols seed order Hseed fuel level
              Hol Hll Hfresh Hfuel)
    as (s & Hrun & Hol' & Hll' & HN & Hnd & Hsuf & Hreach & Hdist & Hun).
  exists (bfs_order s), (bfs_level s), (bfs_N s).
  split; [unfold breadth_first_search; by rewrite Hrun|].
  split; [done|]. split; [done|].
  pose proof (bfs_inv_init n Ap Aj Hcols seed order Hseed level Hol Hll Hfresh)
    as Hinit.
  unfold bfs_run in Hrun.
  assert (Hsorted0 : bfs_sorted
            (BfsState (<[0:=seed]> order) (<[seed:=0%Z]> level) 1)).
  { intros p q Hpq Hq. simpl in Hq. assert (p = q) as -> by lia. lia. }
  pose proof (bfs_while_sorted n Ap Aj Hcols seed order fuel 0 0 1 _ s
                Hinit Hsorted0 Hrun) as Hsorted.
  split; [|done].
  (* the first entry has the least level, which is that of the seed *)
  assert (Hseedin : seed ∈ take (bfs_N s) (bfs_order s)).
  { apply Hreach. exists 0. by constructor. }
  apply elem_of_take in Hseedin as (p & Hp & HpN).
  apply list_lookup_total_correct in Hp.
  pose proof (Hsorted 0 p ltac:(lia) HpN) as Hle. rewrite Hp in Hle.
  destruct (Hdist seed) as (d0 & [_ Hmin0] & Hlev0); [exists 0; by constructor|].
  specialize (Hmin0 0 ltac:(by constructor)).
  assert (Hfirst : bfs_order s !!! 0 ∈ take (bfs_N s) (bfs_order s)).
  { rewrite <- (lookup_total_take_lt _ (bfs_N s)) by lia.
    apply list_elem_of_lookup_total_2. rewrite length_take. lia. }
  apply Hreach in Hfirst.
  destruct (Hdist _ Hfirst) as (d & [Hwalk _] & Hlev).
  assert (d = 0) as -> by lia.
  by inversion Hwalk.
Qed.

Lemma bfs_order_by_level_witness :
  ∃ order' level' N,
    breadth_first_search 4 [0; 2; 3; 5; 6] [1; 2; 0; 0; 3; 2] 0
      [9; 9; 9; 9] [-1; -1; -1; -1]%Z = Some (order', level')
    ∧ 1 ≤ N ≤ 4
    ∧ (∀ j, j ∈ take N order'
            ↔ reachable 4 [0; 2; 3; 5; 6] [1; 2; 0; 0; 3; 2] 0 j)
    ∧ order' !!! 0 = 0
    ∧ ∀ p q, p ≤ q → q < N →
        (level' !!! (order' !!! p) ≤ level' !!! (order' !!! q))%Z.
Proof.
  apply (bfs_order_by_level 4 [0; 2; 3; 5; 6] [1; 2; 0; 0; 3; 2] 0
           [9; 9; 9; 9] [-1; -1; -1; -1]%Z 4).
  - apply csr_cols_okb_sound. vm_compute. reflexivity.
  - lia.
  - reflexivity.
  - reflexivity.
  - apply (bool_decide_unpack _). vm_compute. exact I.
  - lia.
Defined.

(** ** connected_components *)

Lemma walk_app n Ap Aj u d1 w d2 v :
  walk n Ap Aj u d1 w → walk n Ap Aj w d2 v → walk n Ap Aj u (d1 + d2) v.
Proof.
  intros H1 H2. induction H2 as [Hw|d2 w' v H2 IH Hv Hin].
  - by rewrite Nat.add_0_r.
  - rewrite Nat.add_succ_r. by apply (walk_step _ _ _ _ _ w').
Qed.

Section ConnectedComponents.
Variables (n : nat) (Ap Aj : list nat).
Hypothesis Hcols : csr_cols_ok n Ap Aj.

(** *** The search from one root *)

Section FromRoot.
Variables (c : Z) (root : nat) (comps0 : list Z).
Hypothesis Hc : c ≠ (-1)%Z.
Hypothesis Hnew : ∀ v, v < n → comps0 !!! v ≠ c.

(** The state of the search that labels with [c] from [root]; [P] lists
    the labelled vertices whose rows are still to be scanned. *)
Record cc_inv (P : list nat) (comps : list Z) : Prop := {
  cci_len : length comps = n;
  cci_pending : ∀ v, v ∈ P → v < n ∧ comps !!! v = c;
  cci_frame : ∀ v, v < n → comps0 !!! v ≠ (-1)%Z → comps !!! v = comps0 !!! v;
  cci_fresh : ∀ v, v < n → comps0 !!! v = (-1)%Z →
    comps !!! v = (-1)%Z ∨ comps !!! v = c;
  cci_root : comps !!! root = c;
  cci_reach : ∀ v, v < n → comps !!! v = c → reachable n Ap Aj root v;
  cci_closed : ∀ u v, u < n → comps !!! u = c → u ∉ P → v ∈ row Ap Aj u →
    comps !!! v ≠ (-1)%Z
}.

Lemma cc_visit_inv top DFS comps j :
  cc_inv (top :: DFS) comps → j ∈ row Ap Aj top →
  cc_inv (top :: (cc_visit c (DFS, comps) j).1) (cc_visit c (DFS, comps) j).2
  ∧ (cc_visit c (DFS, comps) j).2 !!! j ≠ (-1)%Z
  ∧ (∀ v, comps !!! v ≠ (-1)%Z → (cc_visit c (DFS, comps) j).2 !!! v ≠ (-1)%Z)
  ∧ count_of (-1)%Z (cc_visit c (DFS, comps) j).2
    + length (cc_visit c (DFS, comps) j).1
    = count_of (-1)%Z comps + length DFS.
Proof.
  intros [Hlen Hpend Hframe Hfresh Hroot Hreach Hclosed] Hj.
  destruct (Hpend top ltac:(by left)) as [Htop Htopc].
  assert (Hjn : j < n) by by apply (Hcols top).
  unfold cc_visit.
  destruct (Z.eqb_spec (comps !!! j) (-1)) as [Hjnew|Hjold]; simpl; [|done].
  assert (Hkeep : ∀ v, comps !!! v ≠ (-1)%Z → <[j:=c]> comps !!! v = comps !!! v).
  { intros v Hv. apply list_lookup_total_insert_ne. congruence. }
  split; [split|split; [|split]].
  - by rewrite length_insert.
  - intros v Hv. apply elem_of_cons in Hv as [->|Hv].
    + split; [done|]. rewrite Hkeep; [done|congruence].
    + apply elem_of_cons in Hv as [->|Hv].
      * split; [done|]. apply list_lookup_total_insert_eq. lia.
      * destruct (Hpend v ltac:(by right)) as [Hvn Hvc].
        split; [done|]. rewrite Hkeep; [done|congruence].
  - intros v Hv Hv0. rewrite Hkeep; [by apply Hframe|].
    rewrite Hframe by done. done.
  - intros v Hv Hv0. destruct (decide (v = j)) as [->|Hne].
    + right. apply list_lookup_total_insert_eq. lia.
    + rewrite list_lookup_total_insert_ne by done. by apply Hfresh.
  - rewrite Hkeep; [done|congruence].
  - intros v Hv Hvc. destruct (decide (v = j)) as [->|Hne].
    + destruct (Hreach top Htop Htopc) as [d Hwalk].
      exists (S d). by apply (walk_step _ _ _ _ _ top).
    + rewrite list_lookup_total_insert_ne in Hvc by done. by apply Hreach.
  - intros u v Hu Huc Hnot Hv.
    assert (Huj : u ≠ j).
    { intros ->. apply Hnot. right. by left. }
    rewrite list_lookup_total_insert_ne in Huc by done.
    assert (Hold : comps !!! v ≠ (-1)%Z).
    { apply (Hclosed u v); try done. intros Hin. apply Hnot.
      apply elem_of_cons in Hin as [->|Hin]; [by left|]. right. by right. }
    by rewrite Hkeep.
  - rewrite list_lookup_total_insert_eq by lia. done.
  - intros v Hv. by rewrite Hkeep.
  - pose proof (count_of_insert (-1)%Z c comps j ltac:(lia)) as H.
    rewrite decide_True, decide_False in H by done. simpl. lia.
Qed.

(** The loop over (the rest [js] of) the row of [top]. *)
Lemma cc_visit_fold top js DFS comps :
  cc_inv (top :: DFS) comps → (∀ j, j ∈ js → j ∈ row Ap Aj top) →
  cc_inv (top :: (fold_left (cc_visit c) js (DFS, comps)).1)
    (fold_left (cc_visit c) js (DFS, comps)).2
  ∧ (∀ j, j ∈ js → (fold_left (cc_visit c) js (DFS, comps)).2 !!! j ≠ (-1)%Z)
  ∧ (∀ v, comps !!! v ≠ (-1)%Z →
       (fold_left (cc_visit c) js (DFS, comps)).2 !!! v ≠ (-1)%Z)
  ∧ count_of (-1)%Z (fold_left (cc_visit c) js (DFS, comps)).2
    + length (fold_left (cc_visit c) js (DFS, comps)).1
    = count_of (-1)%Z comps + length DFS.
Proof.
  revert DFS comps. induction js as [|j js IH]; intros DFS comps Hinv Hjs;
    cbn [fold_left].
  - split; [done|]. split; [|done]. intros j Hj. by apply elem_of_nil in Hj.
  - destruct (cc_visit_inv top DFS comps j Hinv) as (Hinv1 & Hj1 & Hkeep1 & Hm1).
    { apply Hjs. by left. }
    destruct (cc_visit c (DFS, comps) j) as [DFS1 comps1]. simpl in *.
    destruct (IH DFS1 comps1 Hinv1) as (Hinv2 & Hall2 & Hkeep2 & Hm2).
    { intros j' Hj'. apply Hjs. by right. }
    split; [done|]. split; [|split; [|lia]].
    + intros j' [->|Hj']%elem_of_cons; [by apply Hkeep2|by apply Hall2].
    + intros v Hv. by apply Hkeep2, Hkeep1.
Qed.

(** The while loop empties the stack within as many rounds as there are
    unlabelled vertices and stack entries. *)
Lemma cc_while_spec fuel DFS comps :
  cc_inv DFS comps → count_of (-1)%Z comps + length DFS ≤ fuel →
  ∃ comps', cc_while fuel Ap Aj c DFS comps = Some comps' ∧ cc_inv [] comps'.
Proof.
  revert DFS comps. induction fuel as [|fuel IH]; intros DFS comps Hinv Hfuel.
  - destruct DFS as [|top DFS]; [|simpl in Hfuel; lia].
    exists comps. done.
  - destruct DFS as [|top DFS]; [by exists comps|].
    cbn [cc_while].
    destruct (cc_visit_fold top (row Ap Aj top) DFS comps Hinv)
      as (Hinv1 & Hall1 & _ & Hm1); [done|].
    destruct (fold_left (cc_visit c) (row Ap Aj top) (DFS, comps))
      as [DFS1 comps1]. simpl in *.
    apply IH; [|lia].
    destruct Hinv1 as [Hlen Hpend Hframe Hfresh Hroot Hreach Hclosed].
    split; try done.
    + intros v Hv. apply Hpend. by right.
    + intros u v Hu Huc Hnot Hv.
      destruct (decide (u = top)) as [->|Hne]; [by apply Hall1|].
      apply (Hclosed u v); try done.
      intros [->|Hin]%elem_of_cons; done.
Qed.
End FromRoot.

(** *** The loop over the vertices *)

(** The state after the first [m] vertices: [K] labels are in use, the
    labelled vertices are closed under the edges, and those that share a
    label are reached from one root. *)
Record cc_outer (m : nat) (comps : list Z) (K : Z) : Prop := {
  cco_len : length comps = n;
  cco_K : (0 ≤ K ≤ Z.of_nat m)%Z;
  cco_range : ∀ v, v < n → comps !!! v = (-1)%Z ∨ (0 ≤ comps !!! v < K)%Z;
  cco_done : ∀ v, v < m → v < n → comps !!! v ≠ (-1)%Z;
  cco_used : ∀ l, (0 ≤ l < K)%Z → ∃ v, v < n ∧ comps !!! v = l;
  cco_closed : ∀ u v, u < n → comps !!! u ≠ (-1)%Z → v ∈ row Ap Aj u →
    comps !!! v ≠ (-1)%Z;
  cco_root : ∀ u v, u < n → v < n → comps !!! u ≠ (-1)%Z →
    comps !!! u = comps !!! v →
    ∃ r, reachable n Ap Aj r u ∧ reachable n Ap Aj r v
}.

Lemma cc_step_spec fuel m comps K :
  m < n → n ≤ fuel → cc_outer m comps K →
  ∃ comps' K', cc_step fuel Ap Aj (Some (comps, K)) m = Some (comps', K')
    ∧ cc_outer (S m) comps' K'
    ∧ (∀ v, v < n → comps !!! v ≠ (-1)%Z → comps' !!! v = comps !!! v)
    ∧ (∀ v, v < n → comps !!! v = (-1)%Z →
         comps' !!! v = (-1)%Z ∨ comps' !!! v = K).
Proof.
  intros Hm Hfuel [Hlen HK Hrange Hdone Hused Hclosed Hroot].
  cbn [cc_step].
  destruct (Z.eqb_spec (comps !!! m) (-1)) as [Hnew|Hold].
  2:{ exists comps, K. split; [done|]. split; [|split; [done|by left]].
      split; try done; [lia|].
      intros v Hv Hvn. destruct (decide (v = m)) as [->|Hne]; [done|].
      apply Hdone; [lia|done]. }
  assert (HKc : K ≠ (-1)%Z) by lia.
  assert (HKnew : ∀ v, v < n → comps !!! v ≠ K).
  { intros v Hv. destruct (Hrange v Hv); lia. }
  assert (Hinit : cc_inv K m comps [m] (<[m:=K]> comps)).
  { split.
    - by rewrite length_insert.
    - intros v ->%list_elem_of_singleton. split; [done|].
      apply list_lookup_total_insert_eq. lia.
    - intros v Hv Hv0. apply list_lookup_total_insert_ne. congruence.
    - intros v Hv Hv0. destruct (decide (v = m)) as [->|Hne].
      + right. apply list_lookup_total_insert_eq. lia.
      + left. by rewrite list_lookup_total_insert_ne.
    - apply list_lookup_total_insert_eq. lia.
    - intros v Hv Hvc. destruct (decide (v = m)) as [->|Hne].
      + exists 0. by constructor.
      + rewrite list_lookup_total_insert_ne in Hvc by done.
        by destruct (HKnew v Hv).
    - intros u v Hu Huc Hnot Hv. exfalso.
      destruct (decide (u = m)) as [->|Hne].
      + apply Hnot. by left.
      + rewrite list_lookup_total_insert_ne in Huc by done.
        by destruct (HKnew u Hu). }
  destruct (cc_while_spec K m comps HKc fuel [m] (<[m:=K]> comps) Hinit)
    as (comps' & Hrun & [Hlen' _ Hframe' Hfresh' Hm' Hreach' Hclosed']).
  { pose proof (count_of_insert (-1)%Z K comps m ltac:(lia)) as H.
    rewrite decide_True, decide_False in H by done.
    pose proof (count_of_le (-1)%Z comps). simpl. lia. }
  rewrite Hrun. exists comps', (K + 1)%Z. split; [done|].
  split; [|split; [done|done]].
  split.
  - done.
  - lia.
  - intros v Hv. destruct (Hrange v Hv) as [Hv0|Hv0].
    + destruct (Hfresh' v Hv Hv0) as [->| ->]; [by left|right; lia].
    + right. rewrite Hframe'; [lia|done|lia].
  - intros v Hv Hvn. destruct (decide (v = m)) as [->|Hne]; [lia|].
    rewrite Hframe'; [|done|]; apply Hdone; (lia || done).
  - intros l Hl. destruct (decide (l = K)) as [->|Hne].
    + by exists m.
    + destruct (Hused l ltac:(lia)) as (v & Hv & Hvl).
      exists v. split; [done|]. rewrite Hframe'; [done|done|lia].
  - intros u v Hu Hu' Hv.
    destruct (decide (comps !!! u = (-1)%Z)) as [Hu0|Hu0].
    + destruct (Hfresh' u Hu Hu0) as [?|HuK]; [done|].
      apply (Hclosed' u v); try done. apply not_elem_of_nil.
    + assert (Hvn : v < n) by by apply (Hcols u).
      rewrite Hframe'; [by apply (Hclosed u v)|done|].
      by apply (Hclosed u v).
  - intros u v Hu Hv Hu' Huv.
    destruct (decide (comps !!! u = (-1)%Z)) as [Hu0|Hu0].
    + destruct (Hfresh' u Hu Hu0) as [?|HuK]; [done|].
      exists m. split; [by apply Hreach'|].
      apply Hreach'; [done|congruence].
    + rewrite (Hframe' u Hu Hu0) in Huv.
      assert (Hv0 : comps !!! v ≠ (-1)%Z).
      { intros Hv0. destruct (Hfresh' v Hv Hv0) as [Hbad|Hbad];
          rewrite Hbad in Huv; [done|]. by destruct (HKnew u Hu). }
      rewrite (Hframe' v Hv Hv0) in Huv. by apply Hroot.
Qed.
(** On a symmetric graph the two ends of an edge get the same label. *)
Definition cc_edges (comps : list Z) : Prop :=
  ∀ u v, u < n → comps !!! u ≠ (-1)%Z → v ∈ row Ap Aj u →
    comps !!! v = comps !!! u.

Lemma cc_loop_spec fuel comps0 m :
  length comps0 = n → (∀ v, v < n → comps0 !!! v = (-1)%Z) →
  n ≤ fuel → m ≤ n →
  ∃ comps K,
    fold_left (cc_step fuel Ap Aj) (seq 0 m) (Some (comps0, 0%Z))
      = Some (comps, K)
    ∧ cc_outer m comps K
    ∧ (csr_symmetric n Ap Aj → cc_edges comps).
Proof.
  intros Hlen Hall Hfuel. induction m as [|m IH]; intros Hm.
  - exists comps0, 0%Z. split; [done|]. split.
    + split.
      * done.
      * lia.
      * intros v Hv. left. by apply Hall.
      * intros v Hv. lia.
      * intros l Hl. lia.
      * intros u v Hu Hu'. destruct Hu'. by apply Hall.
      * intros u v Hu _ Hu'. destruct Hu'. by apply Hall.
    + intros _ u v Hu Hu'. destruct Hu'. by apply Hall.
  - destruct IH as (comps & K & Hrun & Hout & Hedges); [lia|].
    rewrite fold_left_seq_S, Hrun. change (0 + m) with m.
    destruct (cc_step_spec fuel m comps K ltac:(lia) Hfuel Hout)
      as (comps' & K' & Hstep & Hout' & Hframe & Hfresh).
    exists comps', K'. split; [done|]. split; [done|].
    intros Hsym u v Hu Hu' Hv.
    assert (Hvn : v < n) by by apply (Hcols u).
    pose proof (cco_closed _ _ _ Hout' u v Hu Hu' Hv) as Hv'.
    destruct (decide (comps !!! u = (-1)%Z)) as [Hu0|Hu0].
    + destruct (Hfresh u Hu Hu0) as [?|HuK]; [done|].
      destruct (decide (comps !!! v = (-1)%Z)) as [Hv0|Hv0].
      * destruct (Hfresh v Hvn Hv0) as [?|HvK]; [done|congruence].
      * exfalso. apply Hv0.
        rewrite <- (Hedges Hsym v u Hvn Hv0); [done|by apply Hsym].
    + rewrite (Hframe u Hu Hu0).
      pose proof (Hedges Hsym u v Hu Hu0 Hv) as Huv.
      rewrite Hframe; [done|done|congruence].
Qed.
End ConnectedComponents.

(** X12.  [connected_components] labels every vertex: it returns the
    number [K] of labels, at most the number of vertices; every label on
    return is in [[0, K)], every label in [[0, K)] is in use, and two
    vertices with the same label are both reached from one vertex of the
    graph.  The stack never holds more than one entry per vertex, so [n]
    rounds of its inner loop suffice for each root. *)
Theorem connected_components_labels (n : nat) (Ap Aj : list nat)
    (components : list Z) (fuel : nat) :
  csr_cols_ok n Ap Aj → length components = n → n ≤ fuel →
  ∃ components' K,
    connected_components fuel n Ap Aj components = Some (components', K)
    ∧ length components' = n
    ∧ (0 ≤ K ≤ Z.of_nat n)%Z
    ∧ (∀ v, v < n → (0 ≤ components' !!! v < K)%Z)
    ∧ (∀ l, (0 ≤ l < K)%Z → ∃ v, v < n ∧ components' !!! v = l)
    ∧ (∀ u v, u < n → v < n → components' !!! u = components' !!! v →
         ∃ r, reachable n Ap Aj r u ∧ reachable n Ap Aj r v).
Proof.
  intros Hcols Hlen Hfuel.
  destruct (cc_loop_spec n Ap Aj Hcols fuel (array_fill n (-1)%Z components) n)
    as (comps & K & Hrun & [H1 H2 H3 H4 H5 H6 H7] & _); try done.
  { by rewrite array_fill_length. }
  { intros v Hv. apply array_fill_lookup; lia. }
  exists comps, K. split; [done|]. split; [done|]. split; [done|].
  assert (Hlab : ∀ v, v < n → (0 ≤ comps !!! v < K)%Z).
  { intros v Hv. destruct (H3 v Hv) as [Hbad|?]; [|done].
    by destruct (H4 v Hv Hv). }
  split; [done|]. split; [done|].
  intros u v Hu Hv Huv. apply H7; try done.
  specialize (Hlab u Hu). lia.
Qed.

Lemma connected_components_labels_witness :
  ∃ components' K,
    connected_components 4 4 [0; 1; 2; 3; 4] [1; 0; 3; 2] [9; 9; 9; 9]%Z
      = Some (components', K)
    ∧ length components' = 4
    ∧ (0 ≤ K ≤ 4)%Z
    ∧ (∀ v, v < 4 → (0 ≤ components' !!! v < K)%Z)
    ∧ (∀ l, (0 ≤ l < K)%Z → ∃ v, v < 4 ∧ components' !!! v = l)
    ∧ (∀ u v, u < 4 → v < 4 → components' !!! u = components' !!! v →
         ∃ r, reachable 4 [0; 1; 2; 3; 4] [1; 0; 3; 2] r u
              ∧ reachable 4 [0; 1; 2; 3; 4] [1; 0; 3; 2] r v).
Proof.
  apply (connected_components_labels 4 [0; 1; 2; 3; 4] [1; 0; 3; 2]
           [9; 9; 9; 9]%Z 4).
  - apply csr_cols_okb_sound. vm_compute. reflexivity.
  - reflexivity.
  - lia.
Defined.

(** X13.  On a symmetric graph [connected_components] gives two vertices
    the same label exactly when a path joins them. *)
Theorem connected_components_correct (n : nat) (Ap Aj : list nat)
    (components : list Z) (fuel : nat) :
  csr_cols_ok n Ap Aj → csr_symmetric n Ap Aj →
  length components = n → n ≤ fuel →
  ∃ components' K,
    connected_components fuel n Ap Aj components = Some (components', K)
    ∧ ∀ u v, u < n → v < n →
        (components' !!! u = components' !!! v ↔ reachable n Ap Aj u v).
Proof.
  intros Hcols Hsym Hlen Hfuel.
  destruct (cc_loop_spec n Ap Aj Hcols fuel (array_fill n (-1)%Z components) n)
    as (comps & K & Hrun & [H1 H2 H3 H4 H5 H6 H7] & Hedges); try done.
  { by rewrite array_fill_length. }
  { intros v Hv. apply array_fill_lookup; lia. }
  specialize (Hedges Hsym).
  exists comps, K. split; [done|].
  intros u v Hu Hv. split.
  - intros Huv. destruct (H7 u v Hu Hv) as (r & [d1 Hru] & [d2 Hrv]).
    { by apply H4. } { done. }
    exists (d1 + d2). apply (walk_app n Ap Aj u d1 r); [|done].
    by apply walk_sym.
  - intros [d Hwalk]. induction Hwalk as [|d w v Hwalk IH Hvn Hin]; [done|].
    pose proof (walk_bound n Ap Aj u d w Hwalk) as Hw.
    rewrite (IH Hw). symmetry. apply Hedges; try done. by apply H4.
Qed.

Lemma connected_components_correct_witness :
  connected_components 4 4 [0; 1; 2; 3; 4] [1; 0; 3; 2] [9; 9; 9; 9]%Z
    = Some ([0; 0; 1; 1]%Z, 2%Z)
  ∧ ∃ components' K,
      connected_components 4 4 [0; 1; 2; 3; 4] [1; 0; 3; 2] [9; 9; 9; 9]%Z
        = Some (components', K)
      ∧ ∀ u v, u < 4 → v < 4 →
          (components' !!! u = components' !!! v
           ↔ reachable 4 [0; 1; 2; 3; 4] [1; 0; 3; 2] u v).
Proof.
  split; [reflexivity|].
  apply (connected_components_correct 4 [0; 1; 2; 3; 4] [1; 0; 3; 2]
           [9; 9; 9; 9]%Z 4).
  - apply csr_cols_okb_sound. vm_compute. reflexivity.
  - apply csr_symmetricb_sound. vm_compute. reflexivity.
  - reflexivity.
  - lia.
Defined.

(** ** The colourings built from the parallel kernel *)

(** With [max_iters = 1] the loop of the parallel kernel runs once. *)
Lemma mis_parallel_one_round fuel n Ap Aj active C F x y :
  0 < fuel →
  maximal_independent_set_parallel fuel n Ap Aj active C F x y 1
  = Some ((mis_parallel_round n Ap Aj active C F y x 0).1.1,
          (mis_parallel_round n Ap Aj active C F y x 0).1.2).
Proof.
  intros Hfuel. destruct fuel as [|fuel]; [lia|].
  unfold maximal_independent_set_parallel. cbn [mis_parallel_while].
  change (true && ((1 =? -1)%Z || (0 <? 1)%Z)) with true. cbv iota.
  destruct (mis_parallel_round n Ap Aj active C F y x 0) as [[x1 N1] flag1].
  cbn [fst snd].
  destruct fuel as [|fuel]; cbn [mis_parallel_while];
    change ((1 =? -1)%Z || (0 + 1 <? 1)%Z) with false;
    by rewrite andb_false_r.
Qed.

Lemma reset_demoted_spec n x :
  length (reset_demoted n x) = length x
  ∧ ∀ w, reset_demoted n x !!! w
         = if decide (w < n ∧ x !!! w = (-2)%Z) then (-1)%Z else x !!! w.
Proof.
  unfold reset_demoted. induction n as [|n IH].
  - split; [done|]. intros w. rewrite decide_False; [done|]. lia.
  - rewrite fold_left_seq_S. change (0 + n) with n.
    destruct IH as [IHlen IH].
    set (x1 := fold_left _ (seq 0 n) x) in *.
    assert (Hn : x1 !!! n = x !!! n).
    { rewrite IH. rewrite decide_False; [done|]. lia. }
    rewrite Hn. destruct (Z.eqb_spec (x !!! n) (-2)) as [E|E].
    + split; [by rewrite length_insert|]. intros w.
      destruct (decide (w = n)) as [->|Hne].
      * rewrite decide_True by (split; [lia|done]).
        destruct (decide (n < length x1)) as [Hlt|Hge].
        -- by rewrite list_lookup_total_insert_eq.
        -- rewrite list_insert_ge by lia. rewrite Hn.
           rewrite list_lookup_total_alt, lookup_ge_None_2 in E by lia.
           rewrite list_lookup_total_alt, lookup_ge_None_2 by lia.
           simpl in *. done.
      * rewrite list_lookup_total_insert_ne by done. rewrite IH.
        destruct (decide (w < n ∧ x !!! w = (-2)%Z)) as [[? ?]|Hno].
        -- rewrite decide_True; [done|]. split; [lia|done].
        -- rewrite decide_False; [done|]. intros [? ?]. apply Hno. split; [lia|done].
    + split; [done|]. intros w. rewrite IH.
      destruct (decide (w < n ∧ x !!! w = (-2)%Z)) as [[? ?]|Hno].
      * rewrite decide_True; [done|]. split; [lia|done].
      * rewrite decide_False; [done|]. intros [? ?]. apply Hno.
        split; [|done]. destruct (decide (w = n)) as [->|?]; [done|lia].
Qed.

(** Counting the coloured cells of two arrays cell by cell. *)
Lemma colored_count_new (K : Z) (l l' : list Z) :
  (0 ≤ K)%Z → length l' = length l →
  (∀ w, w < length l →
     (l' !!! w = l !!! w ∧ l !!! w ≠ K)
     ∨ ((l !!! w < 0)%Z ∧ ((l' !!! w < 0)%Z ∨ l' !!! w = K))) →
  colored_count l' = colored_count l + count_of K l'.
Proof.
  intros HK. unfold colored_count, count_of. revert l'.
  induction l as [|a l IH]; intros [|a' l'] Hlen Hcells; try done.
  rewrite !filter_cons.
  specialize (IH l' ltac:(simpl in Hlen; lia)
                ltac:(intros w Hw; apply (Hcells (S w)); simpl; lia)).
  pose proof (Hcells 0 ltac:(simpl; lia)) as H0. simpl in H0.
  repeat case_decide; simpl; lia.
Qed.

Lemma colored_count_same (l l' : list Z) :
  length l' = length l →
  (∀ w, w < length l → (0 ≤ l' !!! w)%Z ↔ (0 ≤ l !!! w)%Z) →
  colored_count l' = colored_count l.
Proof.
  unfold colored_count. revert l'.
  induction l as [|a l IH]; intros [|a' l'] Hlen Hcells; try done.
  rewrite !filter_cons.
  specialize (IH l' ltac:(simpl in Hlen; lia)
                ltac:(intros w Hw; apply (Hcells (S w)); simpl; lia)).
  pose proof (Hcells 0 ltac:(simpl; lia)) as H0. simpl in H0.
  repeat case_decide; simpl; lia.
Qed.

Lemma count_of_none `{EqDecision A} `{!Inhabited A} (a : A) (l : list A) :
  (∀ w, w < length l → l !!! w ≠ a) → count_of a l = 0.
Proof.
  intros H. destruct (count_of_cases a l) as [[? _]|[_ (w & Hw & Hwa)]]; [done|].
  by destruct (H w Hw).
Qed.

Lemma count_of_some `{EqDecision A} `{!Inhabited A} (a : A) (l : list A) w :
  w < length l → l !!! w = a → 0 < count_of a l.
Proof.
  intros Hw Hwa. destruct (count_of_cases a l) as [[_ Hnone]|[? _]]; [|done].
  by destruct (Hnone w Hw).
Qed.

(** The value of [std::max_element] over a non-empty range. *)
Lemma max_element_S k x :
  max_element (S (S k)) x
  = if (max_element (S k) x <? x !!! S k)%Z then x !!! S k
    else max_element (S k) x.
Proof.
  unfold max_element. replace (S (S k) - 1) with (S k) by lia.
  replace (S k - 1) with k by lia. by rewrite fold_left_seq_S.
Qed.

Lemma max_element_spec n x :
  0 < n →
  (∀ w, w < n → (x !!! w ≤ max_element n x)%Z)
  ∧ ∃ w, w < n ∧ x !!! w = max_element n x.
Proof.
  intros Hn. destruct n as [|k]; [lia|]. clear Hn.
  induction k as [|k [IH1 (w0 & Hw0 & IH2)]].
  - split; [|by exists 0; split; [lia|]].
    intros w Hw. assert (w = 0) as -> by lia. unfold max_element. simpl. lia.
  - rewrite max_element_S.
    destruct (Z.ltb_spec (max_element (S k) x) (x !!! S k)) as [Hlt|Hge].
    + split; [|exists (S k); split; [lia|done]].
      intros w Hw. destruct (decide (w = S k)) as [->|Hne]; [lia|].
      specialize (IH1 w ltac:(lia)). lia.
    + split; [|exists w0; split; [lia|done]].
      intros w Hw. destruct (decide (w = S k)) as [->|Hne]; [lia|].
      apply IH1. lia.
Qed.

Section ParallelColoring.
Variables (n : nat) (Ap Aj : list nat).
Hypothesis Hrows : csr_rows_ok n Ap.
Hypothesis Hcols : csr_cols_ok n Ap Aj.
Hypothesis Hsym : csr_symmetric n Ap Aj.

(** A vertex of colour [c] has a neighbour of every colour below [c]. *)
Definition greedy_coloring (x : list Z) : Prop :=
  ∀ w c, w < n → (0 ≤ c < x !!! w)%Z →
    ∃ u, u < n ∧ u ∈ row Ap Aj w ∧ u ≠ w ∧ x !!! u = c.

(** The state at the head of the loop of [vertex_coloring_jones_plassmann]
    and of [vertex_coloring_LDF]: colours below [K], every other vertex at
    [-1], no two adjacent vertices of one colour, [N] vertices coloured,
    and at least one vertex coloured in each round so far. *)
Definition pc_inv (K : Z) (x : list Z) (N : nat) : Prop :=
  length x = n ∧ (0 ≤ K ≤ Z.of_nat N)%Z
  ∧ (∀ w, w < n → x !!! w = (-1)%Z ∨ (0 ≤ x !!! w < K)%Z)
  ∧ proper_coloring n Ap Aj x
  ∧ greedy_coloring x
  ∧ N = colored_count x.

(** One round with the weights [y]: a round of the parallel kernel, the
    reset of the demoted vertices, and first-fit on the colour [K]. *)
Definition pc_round (y : list Q) (K : Z) (x : list Z) : list Z * nat :=
  (vertex_coloring_first_fit n Ap Aj
     (reset_demoted n (mis_parallel_round n Ap Aj (-1) K (-2) y x 0).1.1) K,
   (mis_parallel_round n Ap Aj (-1) K (-2) y x 0).1.2).

Lemma pc_round_spec y K x N :
  pc_inv K x N → N < n →
  pc_inv (K + 1) (pc_round y K x).1 (N + (pc_round y K x).2)
  ∧ 0 < (pc_round y K x).2.
Proof.
  intros (Hlen & HK & Hrange & Hproper & Hgreedy & HN) HNn. unfold pc_round.
  cbn [fst snd].
  assert (HAC : (-1)%Z ≠ K) by lia.
  assert (HAF : (-1)%Z ≠ (-2)%Z) by lia.
  assert (HCF : K ≠ (-2)%Z) by lia.
  destruct (mis_parallel_max_inv_round n Ap Aj (-1) K (-2) y x Hcols Hsym Hlen
              HAC HAF HCF x 0) as [[Hlen1 Hframe Hcases Hdem Hcount] _].
  { by apply mis_parallel_max_inv_init. }
  destruct (mis_parallel_inv_round n Ap Aj (-1) K (-2) y x Hlen HAC HAF HCF x 0)
    as (_ & _ & Hguard).
  { by apply mis_parallel_inv_init. }
  pose proof (mis_parallel_round_progress n Ap Aj (-1) K (-2) y Hrows Hcols
                HAC HAF HCF x 0 Hlen) as Hprog.
  set (x1 := (mis_parallel_round n Ap Aj (-1) K (-2) y x 0).1.1) in *.
  set (c := (mis_parallel_round n Ap Aj (-1) K (-2) y x 0).1.2) in *.
  destruct (reset_demoted_spec n x1) as [Hlen2 Hreset].
  set (x2 := reset_demoted n x1) in *.
  (* the cells after the round of the kernel *)
  assert (Hx1 : ∀ w, w < n →
    (x1 !!! w = x !!! w ∧ (0 ≤ x !!! w < K)%Z)
    ∨ (x !!! w = (-1)%Z
       ∧ (x1 !!! w = (-1)%Z ∨ x1 !!! w = K ∨ x1 !!! w = (-2)%Z))).
  { intros w Hw. destruct (Hrange w Hw) as [Hact|Hcol].
    - right. split; [done|]. by apply Hcases.
    - left. split; [|done]. apply Hframe; [done|lia]. }
  (* and after the reset *)
  assert (Hx2 : ∀ w, w < n →
    (x2 !!! w = x !!! w ∧ (0 ≤ x !!! w < K)%Z)
    ∨ (x !!! w = (-1)%Z
       ∧ (x2 !!! w = (-1)%Z ∨ (x2 !!! w = K ∧ x1 !!! w = K)))).
  { intros w Hw. rewrite Hreset.
    destruct (Hx1 w Hw) as [[Heq Hcol]|[Hact [H1|[H1|H1]]]].
    - left. rewrite decide_False; [done|]. intros [_ ?]. lia.
    - right. split; [done|]. left. rewrite decide_False; [done|].
      intros [_ ?]. lia.
    - right. split; [done|]. right. rewrite decide_False; [done|].
      intros [_ ?]. lia.
    - right. split; [done|]. left. by rewrite decide_True. }
  assert (Hrange2 : ∀ i, i < n → (x2 !!! i ≤ K)%Z).
  { intros i Hi. destruct (Hx2 i Hi) as [[-> ?]|[_ [->|[-> _]]]]; lia. }
  assert (Hproper2 : ∀ i j, i < n → j < n → i ≠ j → j ∈ row Ap Aj i →
            (0 ≤ x2 !!! i)%Z → x2 !!! i ≠ x2 !!! j).
  { intros i j Hi Hj Hij Hin Hpos.
    destruct (Hx2 i Hi) as [[Hi1 Hi2]|[Hi1 [Hi2|[Hi2 Hi3]]]];
      destruct (Hx2 j Hj) as [[Hj1 Hj2]|[Hj1 [Hj2|[Hj2 Hj3]]]]; try lia.
    - rewrite Hi1, Hj1. apply Hproper; try done; lia.
    - exfalso. by destruct (Hguard i j Hi Hj Hij Hi1 Hi3 Hin). }
  assert (Hlen2' : length x2 = n) by lia.
  destruct (first_fit_proper n Ap Aj K x2 Hlen2' ltac:(lia) Hcols Hsym
              Hrange2 Hproper2) as [Hproper3 Hsign3].
  assert (Hindep2 : ∀ i j, i < n → j < n → i ≠ j → j ∈ row Ap Aj i →
            x2 !!! i = K → x2 !!! j ≠ K).
  { intros i j Hi Hj Hij Hin HiK HjK.
    apply (Hproper2 i j); try done; [lia|congruence]. }
  destruct (first_fit_spec n Ap Aj K x2 Hlen2' ltac:(lia) Hcols Hindep2)
    as [Hlen3 Hcells3].
  set (x3 := vertex_coloring_first_fit n Ap Aj x2 K) in *.
  (* counting *)
  assert (Hc1 : colored_count x1 = colored_count x + count_of K x1).
  { apply colored_count_new; [lia|lia|]. rewrite Hlen. intros w Hw.
    destruct (Hx1 w Hw) as [[Heq Hcol]|[Hact [H1|[H1|H1]]]].
    - left. split; [done|lia].
    - right. split; [lia|]. left. lia.
    - right. split; [lia|]. by right.
    - right. split; [lia|]. left. lia. }
  assert (Hc0 : count_of K x = 0).
  { apply count_of_none. rewrite Hlen. intros w Hw.
    destruct (Hrange w Hw); lia. }
  assert (Hc2 : colored_count x2 = colored_count x1).
  { apply colored_count_same; [done|]. rewrite Hlen1. intros w Hw.
    rewrite Hreset. case_decide as H; [|done]. destruct H as [_ H]. lia. }
  assert (Hc3 : colored_count x3 = colored_count x2).
  { apply colored_count_same; [lia|]. rewrite Hlen2'. intros w Hw.
    symmetry. by apply Hsign3. }
  (* some vertex is promoted *)
  assert (Hpos : 0 < c).
  { rewrite HN, <- Hlen in HNn.
    destruct (colored_count_missing x HNn) as (w0 & Hw0 & Hneg).
    rewrite Hlen in Hw0.
    assert (Hw0act : x !!! w0 = (-1)%Z) by (destruct (Hrange w0 Hw0); lia).
    destruct Hprog as [_ Hless]; [by exists w0|].
    destruct (decide (c = 0)) as [Hc|Hc]; [|lia]. exfalso.
    assert (HnoK : ∀ w, w < n → x1 !!! w ≠ K).
    { destruct (count_of_cases K x1) as [[_ Hnone]|[Hsome _]]; [|lia].
      intros w Hw. apply Hnone. lia. }
    assert (Hsame : x1 = x).
    { apply (list_eq_same_length _ _ n); [done..|].
      intros w a b Hw Ha Hb.
      apply list_lookup_total_correct in Ha, Hb. subst a b.
      destruct (Hx1 w Hw) as [[Heq _]|[Hact [H1|[H1|H1]]]].
      - done.
      - congruence.
      - by destruct (HnoK w Hw).
      - destruct (Hdem w Hw Hact H1) as (u & Hu & _ & HuK).
        by destruct (HnoK u Hu). }
    rewrite Hsame in Hless. lia. }
  split; [|done].
  split; [done|]. split; [lia|]. split; [|split; [|split]].
  - intros w Hw. destruct (Hcells3 w Hw) as [HK1 HK2].
    destruct (decide (x2 !!! w = K)) as [HwK|HwK].
    + destruct (HK1 HwK) as [? _]. right. lia.
    + rewrite (HK2 HwK).
      destruct (Hx2 w Hw) as [[-> ?]|[_ [->|[? _]]]]; [right; lia|by left|done].
  - intros u v Hu Hv Huv Hin Hcu _. by apply Hproper3.
  - (* a colour below [K] is kept by the round *)
    assert (Hkeep : ∀ u, u < n → (0 ≤ x2 !!! u < K)%Z → x3 !!! u = x2 !!! u).
    { intros u Hu Hcol. destruct (Hcells3 u Hu) as [_ HK2]. apply HK2. lia. }
    intros w c' Hw Hc'. destruct (Hcells3 w Hw) as [HK1 HK2].
    destruct (decide (x2 !!! w = K)) as [HwK|HwK].
    + destruct (HK1 HwK) as (Hc & _ & Hleast).
      destruct (Hleast c' Hc') as (j & Hj & Hjw & Hjc).
      assert (Hjn : j < n) by by apply (Hcols w).
      exists j. split; [done|]. split; [done|]. split; [done|].
      rewrite Hkeep; [done|done|lia].
    + rewrite (HK2 HwK) in Hc'.
      destruct (Hx2 w Hw) as [[Heq Hcol]|[_ [Hneg|[? _]]]]; [|lia|done].
      rewrite Heq in Hc'.
      destruct (Hgreedy w c' Hw Hc') as (u & Hu & Hin & Huw & Huc).
      exists u. split; [done|]. split; [done|]. split; [done|].
      destruct (Hx2 u Hu) as [[Heq' Hcol']|[Hact _]]; [|lia].
      rewrite Hkeep; [congruence|done|lia].
  - lia.
Qed.

(** The last state of the loop: every vertex has a colour. *)
Lemma pc_inv_full K x N :
  pc_inv K x N → n ≤ N →
  length x = n ∧ (K ≤ Z.of_nat n)%Z
  ∧ (∀ w, w < n → (0 ≤ x !!! w < K)%Z)
  ∧ (∀ u v, u < n → v < n → u ≠ v → v ∈ row Ap Aj u → x !!! u ≠ x !!! v)
  ∧ greedy_coloring x.
Proof.
  intros (Hlen & HK & Hrange & Hproper & Hgreedy & HN) HNn.
  pose proof (length_filter (λ v, (0 ≤ v)%Z) x) as Hf.
  unfold colored_count in HN.
  assert (Hall : ∀ w, w < n → (0 ≤ x !!! w < K)%Z).
  { intros w Hw. pose proof (colored_count_full x) as Hfull.
    unfold colored_count in Hfull.
    specialize (Hfull ltac:(lia) w ltac:(lia)).
    destruct (Hrange w Hw); lia. }
  split; [done|]. split; [lia|]. split; [done|]. split; [|done].
  intros u v Hu Hv Huv Hin. apply Hproper; try done.
  - specialize (Hall u Hu). lia.
  - specialize (Hall v Hv). lia.
Qed.

Lemma jones_plassmann_while_spec fuel z K x N :
  pc_inv K x N → n - N ≤ fuel →
  ∃ x' K', jones_plassmann_while fuel n Ap Aj z x N K = Some x'
    ∧ length x' = n ∧ (K' ≤ Z.of_nat n)%Z
    ∧ (∀ w, w < n → (0 ≤ x' !!! w < K')%Z)
    ∧ (∀ u v, u < n → v < n → u ≠ v → v ∈ row Ap Aj u → x' !!! u ≠ x' !!! v)
    ∧ greedy_coloring x'.
Proof.
  revert K x N. induction fuel as [|fuel IH]; intros K x N Hinv Hfuel;
    cbn [jones_plassmann_while].
  - destruct (Nat.ltb_spec N n) as [Hlt|Hge]; [lia|].
    exists x, K. split; [done|]. by apply (pc_inv_full K x N).
  - destruct (Nat.ltb_spec N n) as [Hlt|Hge].
    + rewrite mis_parallel_one_round by lia.
      destruct (pc_round_spec z K x N Hinv Hlt) as [Hinv1 Hpos].
      unfold pc_round in Hinv1, Hpos. cbn [fst snd] in Hinv1, Hpos.
      apply IH; [done|lia].
    + exists x, K. split; [done|]. by apply (pc_inv_full K x N).
Qed.

Lemma ldf_while_spec R_add_I fuel y weights K x N :
  pc_inv K x N → n - N ≤ fuel →
  ∃ x' K', ldf_while R_add_I fuel n Ap Aj y weights x N K = Some x'
    ∧ length x' = n ∧ (K' ≤ Z.of_nat n)%Z
    ∧ (∀ w, w < n → (0 ≤ x' !!! w < K')%Z)
    ∧ (∀ u v, u < n → v < n → u ≠ v → v ∈ row Ap Aj u → x' !!! u ≠ x' !!! v)
    ∧ greedy_coloring x'.
Proof.
  revert weights K x N.
  induction fuel as [|fuel IH]; intros weights K x N Hinv Hfuel;
    cbn [ldf_while].
  - destruct (Nat.ltb_spec N n) as [Hlt|Hge]; [lia|].
    exists x, K. split; [done|]. by apply (pc_inv_full K x N).
  - destruct (Nat.ltb_spec N n) as [Hlt|Hge].
    + cbv zeta. rewrite mis_parallel_one_round by lia.
      destruct (pc_round_spec (ldf_weights R_add_I n Ap Aj x y weights) K x N
                  Hinv Hlt) as [Hinv1 Hpos].
      unfold pc_round in Hinv1, Hpos. cbn [fst snd] in Hinv1, Hpos.
      apply IH; [done|lia].
    + exists x, K. split; [done|]. by apply (pc_inv_full K x N).
Qed.

Lemma pc_inv_init x :
  length x = n → pc_inv 0 (array_fill n (-1)%Z x) 0.
Proof.
  intros Hlen.
  assert (Hall : ∀ w, w < n → array_fill n (-1)%Z x !!! w = (-1)%Z).
  { intros w Hw. apply array_fill_lookup; lia. }
  split; [by rewrite array_fill_length|]. split; [lia|].
  split; [|split; [|split]].
  - intros w Hw. left. by apply Hall.
  - intros u v Hu _ _ _ Hcu. rewrite Hall in Hcu by done. lia.
  - intros w c Hw Hc. rewrite Hall in Hc by done. lia.
  - symmetry. apply colored_count_none. intros w Hw.
    rewrite array_fill_length in Hw. rewrite Hall by lia. lia.
Qed.
End ParallelColoring.

Lemma jp_weights_spec R_add_I n Ap z :
  length (jp_weights R_add_I n Ap z) = length z
  ∧ ∀ i, i < length z →
      jp_weights R_add_I n Ap z !!! i
      = if decide (i < n)
        then R_add_I (z !!! i) (Z.of_nat (Ap !!! S i) - Z.of_nat (Ap !!! i))%Z
        else z !!! i.
Proof.
  unfold jp_weights. induction n as [|n [IHlen IH]].
  - split; [done|]. intros i Hi. by rewrite decide_False by lia.
  - rewrite fold_left_seq_S. change (0 + n) with n.
    set (z1 := fold_left _ (seq 0 n) z) in *.
    split; [by rewrite length_insert|]. intros i Hi.
    destruct (decide (i = n)) as [->|Hne].
    + rewrite list_lookup_total_insert_eq by lia.
      rewrite IH by done. rewrite decide_False by lia.
      by rewrite decide_True by lia.
    + rewrite list_lookup_total_insert_ne by done. rewrite IH by done.
      destruct (decide (i < n)).
      * by rewrite decide_True by lia.
      * by rewrite decide_False by lia.
Qed.

(** ** vertex_coloring_jones_plassmann *)

(** X14.  On a symmetric graph [vertex_coloring_jones_plassmann] returns
    within [n] rounds, each of which colours at least one vertex, whatever
    the weights and however the type [R] rounds.  On return every vertex
    has a colour, the two ends of an edge have different colours, a vertex
    of colour [c] has a neighbour of every colour below [c], and the value
    returned is the largest colour in use (not the number of colours),
    which is below [n].  The weights [z] are left as the call has changed
    them: to each the type's sum has added the number of stored entries
    of its row. *)
Theorem jones_plassmann_proper (R_add_I : Q → Z → Q) (n : nat)
    (Ap Aj : list nat) (x : list Z) (z : list Q) (fuel : nat) :
  csr_rows_ok n Ap → csr_cols_ok n Ap Aj → csr_symmetric n Ap Aj →
  length x = n → n ≤ fuel →
  ∃ x' z' T,
    vertex_coloring_jones_plassmann R_add_I fuel n Ap Aj x z
    = Some (x', z', T)
    ∧ length x' = n
    ∧ (∀ i j, i < n → j < n → i ≠ j → j ∈ row Ap Aj i → x' !!! i ≠ x' !!! j)
    ∧ (∀ i, i < n → (0 ≤ x' !!! i)%Z)
    ∧ (∀ i c, i < n → (0 ≤ c < x' !!! i)%Z →
         ∃ j, j < n ∧ j ∈ row Ap Aj i ∧ j ≠ i ∧ x' !!! j = c)
    ∧ (0 < n →
       (∀ i, i < n → (x' !!! i ≤ T)%Z)
       ∧ (∃ i, i < n ∧ x' !!! i = T)
       ∧ (T < Z.of_nat n)%Z)
    ∧ (∀ i, i < n → i < length z →
         z' !!! i
         = R_add_I (z !!! i) (Z.of_nat (Ap !!! S i) - Z.of_nat (Ap !!! i))%Z).
Proof.
  intros Hrows Hcols Hsym Hlen Hfuel.
  unfold vertex_coloring_jones_plassmann. cbv zeta.
  destruct (jones_plassmann_while_spec n Ap Aj Hrows Hcols Hsym fuel
              (jp_weights R_add_I n Ap z) 0 (array_fill n (-1)%Z x) 0)
    as (x' & K' & -> & Hlen' & HK' & Hrange & Hproper & Hgreedy).
  { by apply pc_inv_init. }
  { lia. }
  exists x', (jp_weights R_add_I n Ap z), (max_element n x').
  split; [done|]. split; [done|]. split; [done|].
  split; [|split; [done|split]].
  - intros i Hi. specialize (Hrange i Hi). lia.
  - intros Hn. destruct (max_element_spec n x' Hn) as [Hmax (w & Hw & Hat)].
    split; [done|]. split; [by exists w|].
    specialize (Hrange w Hw). lia.
  - intros i Hi Hiz. destruct (jp_weights_spec R_add_I n Ap z) as [_ Hz].
    rewrite Hz by done. by rewrite decide_True.
Qed.

(** The exact sum, which is the sum of a binary floating-point type on the
    weights below. *)
Definition Q_add_Z (a : Q) (m : Z) : Q := (a + inject_Z m)%Q.

Lemma jones_plassmann_proper_witness :
  vertex_coloring_jones_plassmann Q_add_Z 5 5 path5_Ap path5_Aj
    [7; 7; 7; 7; 7]%Z [1#2; 1#4; 1#2; 1#8; 3#4]%Q
  = Some ([0; 1; 0; 1; 0]%Z, [3#2; 9#4; 5#2; 17#8; 7#4]%Q, 1%Z)
  ∧ ∃ x' z' T,
      vertex_coloring_jones_plassmann Q_add_Z 5 5 path5_Ap path5_Aj
        [7; 7; 7; 7; 7]%Z [1#2; 1#4; 1#2; 1#8; 3#4]%Q = Some (x', z', T)
      ∧ length x' = 5
      ∧ (∀ i j, i < 5 → j < 5 → i ≠ j → j ∈ row path5_Ap path5_Aj i →
           x' !!! i ≠ x' !!! j)
      ∧ (∀ i, i < 5 → (0 ≤ x' !!! i)%Z)
      ∧ (∀ i c, i < 5 → (0 ≤ c < x' !!! i)%Z →
           ∃ j, j < 5 ∧ j ∈ row path5_Ap path5_Aj i ∧ j ≠ i ∧ x' !!! j = c)
      ∧ (0 < 5 →
         (∀ i, i < 5 → (x' !!! i ≤ T)%Z)
         ∧ (∃ i, i < 5 ∧ x' !!! i = T)
         ∧ (T < 5)%Z)
      ∧ (∀ i, i < 5 → i < length [1#2; 1#4; 1#2; 1#8; 3#4]%Q →
           z' !!! i
           = Q_add_Z ([1#2; 1#4; 1#2; 1#8; 3#4]%Q !!! i)
               (Z.of_nat (path5_Ap !!! S i) - Z.of_nat (path5_Ap !!! i))%Z).
Proof.
  split; [vm_compute; reflexivity|].
  apply (jones_plassmann_proper Q_add_Z 5 path5_Ap path5_Aj
           [7; 7; 7; 7; 7]%Z [1#2; 1#4; 1#2; 1#8; 3#4]%Q 5).
  - apply csr_rows_ok_dec_sound. vm_compute. reflexivity.
  - apply csr_cols_okb_sound. vm_compute. reflexivity.
  - apply csr_symmetricb_sound. vm_compute. reflexivity.
  - reflexivity.
  - lia.
Defined.

(** ** vertex_coloring_LDF *)

(** X15.  On a symmetric graph [vertex_coloring_LDF] returns within [n]
    rounds, whatever the weights and however the type [R] rounds.  On
    return every vertex has a colour, the two ends of an edge have
    different colours, a vertex of colour [c] has a neighbour of every
    colour below [c], and the value returned is the largest colour in use,
    which is below [n]. *)
Theorem ldf_proper (R_add_I : Q → Z → Q) (n : nat) (Ap Aj : list nat)
    (x : list Z) (y : list Q) (fuel : nat) :
  csr_rows_ok n Ap → csr_cols_ok n Ap Aj → csr_symmetric n Ap Aj →
  length x = n → n ≤ fuel →
  ∃ x' T,
    vertex_coloring_LDF R_add_I fuel n Ap Aj x y = Some (x', T)
    ∧ length x' = n
    ∧ (∀ i j, i < n → j < n → i ≠ j → j ∈ row Ap Aj i → x' !!! i ≠ x' !!! j)
    ∧ (∀ i, i < n → (0 ≤ x' !!! i)%Z)
    ∧ (∀ i c, i < n → (0 ≤ c < x' !!! i)%Z →
         ∃ j, j < n ∧ j ∈ row Ap Aj i ∧ j ≠ i ∧ x' !!! j = c)
    ∧ (0 < n →
       (∀ i, i < n → (x' !!! i ≤ T)%Z)
       ∧ (∃ i, i < n ∧ x' !!! i = T)
       ∧ (T < Z.of_nat n)%Z).
Proof.
  intros Hrows Hcols Hsym Hlen Hfuel.
  unfold vertex_coloring_LDF. cbv zeta.
  destruct (ldf_while_spec n Ap Aj Hrows Hcols Hsym R_add_I fuel y
              (replicate n 0%Q) 0 (array_fill n (-1)%Z x) 0)
    as (x' & K' & -> & Hlen' & HK' & Hrange & Hproper & Hgreedy).
  { by apply pc_inv_init. }
  { lia. }
  exists x', (max_element n x').
  split; [done|]. split; [done|]. split; [done|].
  split; [|split; [done|]].
  - intros i Hi. specialize (Hrange i Hi). lia.
  - intros Hn. destruct (max_element_spec n x' Hn) as [Hmax (w & Hw & Hat)].
    split; [done|]. split; [by exists w|].
    specialize (Hrange w Hw). lia.
Qed.

Lemma ldf_proper_witness :
  vertex_coloring_LDF Q_add_Z 5 5 path5_Ap path5_Aj [7; 7; 7; 7; 7]%Z
    [1#2; 1#4; 1#2; 1#8; 3#4]%Q
  = Some ([0; 1; 0; 1; 0]%Z, 1%Z)
  ∧ ∃ x' T,
      vertex_coloring_LDF Q_add_Z 5 5 path5_Ap path5_Aj [7; 7; 7; 7; 7]%Z
        [1#2; 1#4; 1#2; 1#8; 3#4]%Q = Some (x', T)
      ∧ length x' = 5
      ∧ (∀ i j, i < 5 → j < 5 → i ≠ j → j ∈ row path5_Ap path5_Aj i →
           x' !!! i ≠ x' !!! j)
      ∧ (∀ i, i < 5 → (0 ≤ x' !!! i)%Z)
      ∧ (∀ i c, i < 5 → (0 ≤ c < x' !!! i)%Z →
           ∃ j, j < 5 ∧ j ∈ row path5_Ap path5_Aj i ∧ j ≠ i ∧ x' !!! j = c)
      ∧ (0 < 5 →
         (∀ i, i < 5 → (x' !!! i ≤ T)%Z)
         ∧ (∃ i, i < 5 ∧ x' !!! i = T)
         ∧ (T < 5)%Z).
Proof.
  split; [vm_compute; reflexivity|].
  apply (ldf_proper Q_add_Z 5 path5_Ap path5_Aj [7; 7; 7; 7; 7]%Z
           [1#2; 1#4; 1#2; 1#8; 3#4]%Q 5).
  - apply csr_rows_ok_dec_sound. vm_compute. reflexivity.
  - apply csr_cols_okb_sound. vm_compute. reflexivity.
  - apply csr_symmetricb_sound. vm_compute. reflexivity.
  - reflexivity.
  - lia.
Defined.
